(** * tlnccuwagnf: the evaluation core (lib.js and interp.js)

    A shallow embedding of the runtime object model of [lib.js]
    (primitive wrappers, conversions, [toLObject], [has]/[get]/[set]/[call],
    LEnvironment, the array prototype) and of the evaluator of [interp.js]
    ([evaluateExpression], [evaluateEachExpression],
    [evaluateGetPropUsingIdentifier], [interp]).

    The program is dynamically typed: an expression handed to
    [evaluateExpression] is an ordinary host value, so the embedding has
    one type [val] of host values and the evaluator dispatches on it the
    way the source does.  Mutable host objects (Variable cells, scope
    objects, LObject instances, the [returnValue] local of a running call)
    live in an explicit store that is threaded through every operation. *)

From Stdlib Require Import ZArith String List Ascii Bool Lia DecimalString.
From stdpp Require Import gmap strings list.

Set Warnings "-register-all".

Open Scope string_scope.
Open Scope Z_scope.

(** ** The constants table *)

(** Modelled from the spec: the module [./constants] that both source
    files load as [C] is not part of the sources.  The specification calls
    the node kinds opaque identifiers agreed upon between parser and
    evaluator; they are taken to be pairwise distinct strings, each the
    name of its own constant. *)
Module C.
Definition COMMENT := "COMMENT".
Definition FUNCTION_CALL := "FUNCTION_CALL".
Definition VARIABLE_IDENTIFIER := "VARIABLE_IDENTIFIER".
Definition VARIABLE_ASSIGN := "VARIABLE_ASSIGN".
Definition VARIABLE_CHANGE := "VARIABLE_CHANGE".
Definition FUNCTION_PRIM := "FUNCTION_PRIM".
Definition STRING_PRIM := "STRING_PRIM".
Definition BOOLEAN_PRIM := "BOOLEAN_PRIM".
Definition NUMBER_PRIM := "NUMBER_PRIM".
Definition SET_PROP_USING_IDENTIFIER := "SET_PROP_USING_IDENTIFIER".
Definition GET_PROP_USING_IDENTIFIER := "GET_PROP_USING_IDENTIFIER".
End C.

(** ** Host values *)

(** Host numbers.  The only arithmetic lib.js performs itself is adding
    one to and subtracting one from an array length, so the embedding keeps
    the integers and NaN and does not represent fractions or infinities; on
    the range [-2^53, 2^53] integer arithmetic and the host's doubles
    agree, and the array functions leave the model (see [Abort]) rather
    than step outside that range. *)
Inductive num : Type :=
| NaN
| Int (z : Z).

(** The three constructors an object's ['__constructor__'] can name. *)
Inductive ctor : Type := LObject | LArray | LFunction.

(** Host values: the primitives, host arrays (syntax trees, argument and
    result lists), parameter records [{name, type}], the three primitive
    wrappers with their raw backing field, references to LObject instances
    (the reference carries the constructor, which is fixed at creation),
    references to scope objects, and the members every plain host object inherits from the host's
    Object.prototype. *)
Inductive val : Type :=
| VUndefined
| VNull
| VBoolean (b : bool)
| VNumber (n : num)
| VString (s : string)
| VArray (l : list val)
| VParamater (name type : string)
| VStringPrim (_str : val)
| VBooleanPrim (_bool : val)
| VNumberPrim (_num : val)
| VObject (c : ctor) (a : nat)
| VScope (a : nat)
| VHostMember (name : string).

(** Property names a plain host object ([{}]) answers to without owning
    them: the members of the host's Object.prototype.  The accessor
    [__proto__] is left out: programs that use it as a name are outside
    the model (see [modelled_key]). *)
Definition ObjectPrototype_names : list string :=
  [ "constructor"; "hasOwnProperty"; "isPrototypeOf"; "propertyIsEnumerable";
    "toLocaleString"; "toString"; "valueOf";
    "__defineGetter__"; "__defineSetter__"; "__lookupGetter__"; "__lookupSetter__" ].

Definition inherited (k : string) : bool :=
  existsb (String.eqb k) ObjectPrototype_names.

Definition modelled_key (k : string) : bool := negb (k =? "__proto__")%string.

(** ** The host's coercions *)

Definition num_to_string (n : num) : string :=
  match n with
  | NaN => "NaN"
  | Int z => NilZero.string_of_int (Z.to_int z)
  end.

(** The host's string-to-number conversion, as far as [num] can follow it:
    the empty string is 0, a decimal integer numeral (with an optional
    minus sign) is its value, and any other string is NaN.  Numerals the
    host would also accept (a fraction, an exponent, surrounding blanks)
    denote numbers outside [num]; no statement below depends on them. *)
Definition StringToNumber (s : string) : num :=
  if (s =? EmptyString)%string then Int 0
  else match NilZero.int_of_string s with
       | Some d => Int (Z.of_int d)
       | None => NaN
       end.

Definition js_Boolean (v : val) : bool :=
  match v with
  | VUndefined | VNull => false
  | VBoolean b => b
  | VNumber NaN => false
  | VNumber (Int z) => negb (z =? 0)
  | VString s => negb (s =? EmptyString)%string
  | _ => true
  end.

(** [Array.prototype.join] with the default separator: [undefined] and
    [null] elements contribute the empty string. *)
Definition join_elements (f : val -> string) : list val -> string :=
  fix join (l : list val) : string :=
    match l with
    | [] => EmptyString
    | x :: rest =>
        let elt := match x with
                   | VUndefined | VNull => EmptyString
                   | _ => f x
                   end in
        match rest with
        | [] => elt
        | _ :: _ => elt ++ "," ++ join rest
        end
    end.

(** [String(v)] and [Number(v)].  Objects convert through their own
    methods: StringPrim's [toString] returns [this.str], BooleanPrim's
    ['<Boolean ' + this.bool + '>'], NumberPrim's [this.num], LFunction's
    ['<Object Function>']; LObject and LArray instances and parameter
    records have the host's default, and a host array joins its elements.
    [Number] goes through [valueOf] where that yields a primitive
    (BooleanPrim, NumberPrim) and through [toString] otherwise. *)
Fixpoint js_String (v : val) : string :=
  match v with
  | VUndefined => "undefined"
  | VNull => "null"
  | VBoolean true => "true"
  | VBoolean false => "false"
  | VNumber n => num_to_string n
  | VString s => s
  | VArray l => join_elements js_String l
  | VParamater _ _ => "[object Object]"
  | VStringPrim _str => js_String _str
  | VBooleanPrim _bool =>
      "<Boolean " ++ (if js_Boolean _bool then "true" else "false") ++ ">"
  | VNumberPrim _num => num_to_string (js_Number _num)
  | VObject LFunction _ => "<Object Function>"
  | VObject _ _ => "[object Object]"
  | VScope _ => "[object Object]"
  | VHostMember name => "function " ++ name ++ "() { [native code] }"
  end
with js_Number (v : val) : num :=
  match v with
  | VUndefined => NaN
  | VNull => Int 0
  | VBoolean b => if b then Int 1 else Int 0
  | VNumber n => n
  | VString s => StringToNumber s
  | VArray l => StringToNumber (join_elements js_String l)
  | VParamater _ _ => StringToNumber "[object Object]"
  | VStringPrim _str => StringToNumber (js_String _str)
  | VBooleanPrim _bool => if js_Boolean _bool then Int 1 else Int 0
  | VNumberPrim _num => js_Number _num
  | VObject LFunction _ => StringToNumber "<Object Function>"
  | VObject _ _ => StringToNumber "[object Object]"
  | VScope _ => StringToNumber "[object Object]"
  | VHostMember name => StringToNumber ("function " ++ name ++ "() { [native code] }")
  end.

(** ** Primitive wrappers (lib.js, StringPrim, BooleanPrim, NumberPrim)

    Each wrapper keeps one raw field behind a setter that coerces on the
    way in and a getter that coerces again on the way out. *)

Module StringPrim.
(** [set str(str) { this._str = String(str) }] *)
Definition set_str (this : val) (str : val) : val :=
    match this with
    | VStringPrim _ => VStringPrim (VString (js_String str))
    | other => other
    end.
(** [get str() { return String(this._str) }] *)
Definition get_str (this : val) : val :=
    match this with
    | VStringPrim _str => VString (js_String _str)
    | _ => VUndefined
    end.
(** [constructor(str) { this.str = str }] *)
Definition new (str : val) : val := set_str (VStringPrim VUndefined) str.
End StringPrim.

Module BooleanPrim.
Definition set_bool (this : val) (bool : val) : val :=
    match this with
    | VBooleanPrim _ => VBooleanPrim (VBoolean (js_Boolean bool))
    | other => other
    end.
Definition get_bool (this : val) : val :=
    match this with
    | VBooleanPrim _bool => VBoolean (js_Boolean _bool)
    | _ => VUndefined
    end.
Definition new (bool : val) : val := set_bool (VBooleanPrim VUndefined) bool.
End BooleanPrim.

Module NumberPrim.
Definition set_num (this : val) (num : val) : val :=
    match this with
    | VNumberPrim _ => VNumberPrim (VNumber (js_Number num))
    | other => other
    end.
Definition get_num (this : val) : val :=
    match this with
    | VNumberPrim _num => VNumber (js_Number _num)
    | _ => VUndefined
    end.
Definition new (num : val) : val := set_num (VNumberPrim VUndefined) num.
End NumberPrim.

(** ** Conversions between language primitives and host primitives *)

Definition toJString (str : val) : val :=
  match str with
  | VStringPrim _ => StringPrim.get_str str
  | _ => VString (js_String str)
  end.

(** [bool instanceof BooleanPrim && bool.bool === true] *)
Definition toJBoolean (bool : val) : val :=
  match bool with
  | VBooleanPrim _ =>
      match BooleanPrim.get_bool bool with
      | VBoolean true => VBoolean true
      | _ => VBoolean false
      end
  | _ => VBoolean false
  end.

Definition toJNumber (num : val) : val :=
  match num with
  | VNumberPrim _ => NumberPrim.get_num num
  | _ => VNumber (js_Number num)
  end.

Definition toLString (str : val) : val := StringPrim.new str.
Definition toLBoolean (bool : val) : val := BooleanPrim.new bool.
Definition toLNumber (num : val) : val := NumberPrim.new num.

(** The string a value denotes as a property key; for the values of the
    model this is the string [String] gives. *)
Definition property_key (key : val) : string := js_String key.

(** ** The store *)

(** The prototype tables hold three host functions, each wrapped in an
    LFunction: [push] and [pop] (LArrayPrototype) and [debug]
    (LFunctionPrototype). *)
Inductive method : Type := push | pop | debug.

(** The host functions an LFunction's [fn] can hold:
    - the [return] binding [defaultCall] installs, closed over the
      [returnValue] local of one call;
    - the function [defaultCall] binds to an 'unevaluated' parameter,
      closed over the argument [value] and the called [fnToken];
    - the function [defaultGet] returns for a prototype method, closed over
      the method and the receiver [obj]. *)
Inductive native : Type :=
| NReturn (returnValue : nat)
| NUnevaluated (value : val) (fnToken : nat)
| NBound (value : method) (obj : val).

(** [fnToken.fn]: a host function, or anything else (the code of a
    function written in the language). *)
Inductive fnval : Type :=
| Native (f : native)
| Code (code : val).

(** An LObject instance: its [data] and, for an LFunction, the fields the
    constructor and the setters write ([paramaterList] and [argumentScope]
    are absent until something sets them). *)
Record object : Type := mkObject {
  data : gmap string val;
  fn : fnval;
  scopeVariables : val;
  paramaterList : option val;
  argumentScope : option val;
}.

(** A scope object: its own properties, in insertion order, each naming a
    Variable. *)
Definition scope : Type := list (string * nat).

(** The store.  [cells] holds the [value] of every Variable, [scopes] the
    scope objects, [objects] the LObject instances, [frames] the
    [returnValue] local of every call of a language function, and
    [host_values] the [value] property a program may have put on a member
    of the host's Object.prototype.  [history] is a history variable: it
    lists, oldest first, the invocations of [return] bindings with the
    value each one recorded; nothing ever reads it. *)
Record state : Type := mkState {
  cells : list val;
  scopes : list scope;
  objects : list object;
  frames : list val;
  host_values : gmap string val;
  history : list (nat * val);
}.

Definition empty_state : state := mkState [] [] [] [] ∅ [].

(** ** Outcomes *)

Inductive type_error : Type :=
| CannotReadProperty (prop : string) (base : val)
| CannotSetProperty (prop : string) (base : val)
| NotAFunction (callee : string)
| InOperatorOnNonObject (key : string) (target : val)
| NonIterable.

(** What the source can throw: the string of a failed variable read, the
    evaluator's InvalidExpressionType, or a TypeError of the host. *)
Inductive exn : Type :=
| ThrownString (message : string)
| InvalidExpressionType (expr : val)
| TypeError (e : type_error).

(** Why the embedding gives no answer: the recursion budget of the
    evaluator ran out, or the program left the modelled part of the host
    (the key [__proto__], a number beyond 2^53, a dangling reference). *)
Inductive abort : Type := OutOfFuel | OutsideModel.

Inductive outcome (A : Type) : Type :=
| Normal (a : A) (st : state)
| Throw (e : exn) (st : state)
| Abort (r : abort).

Arguments Normal {A} a st.
Arguments Throw {A} e st.
Arguments Abort {A} r.

Definition bind {A B : Type} (m : outcome A) (k : A -> state -> outcome B) : outcome B :=
  match m with
  | Normal a st => k a st
  | Throw e st => Throw e st
  | Abort r => Abort r
  end.

Notation "'let*' ( x , st ) := m 'in' k" :=
  (bind m (fun x st => k))
  (at level 10, x name, st name, m at level 100, k at level 200).

(** The text of a propagated error, as the host's console would show it. *)
Definition type_error_message (e : type_error) : string :=
  match e with
  | CannotReadProperty prop base =>
      "Cannot read property '" ++ prop ++ "' of " ++ js_String base
  | CannotSetProperty prop base =>
      "Cannot set property '" ++ prop ++ "' of " ++ js_String base
  | NotAFunction callee => callee ++ " is not a function"
  | InOperatorOnNonObject key target =>
      "Cannot use 'in' operator to search for '" ++ key ++ "' in " ++ js_String target
  | NonIterable => "Invalid attempt to destructure non-iterable instance"
  end.

Definition exn_message (e : exn) : string :=
  match e with
  | ThrownString message => message
  | InvalidExpressionType expr => "invalid expression type: " ++ js_String expr
  | TypeError e => type_error_message e
  end.

Fixpoint contains (needle hay : string) : bool :=
  String.prefix needle hay ||
  match hay with
  | EmptyString => false
  | String _ rest => contains needle rest
  end.

(** An error identifies a variable when its text contains the name. *)
Definition identifies (e : exn) (name : string) : bool :=
  contains name (exn_message e).

(** ** Plain host objects used as maps *)

(** [k in o] and [o[k]] on an object's [data]; [o[k] = v] and
    [delete o[k]] are the map's insert and delete. *)
Definition data_in (d : gmap string val) (k : string) : bool :=
  bool_decide (is_Some (d !! k)) || inherited k.

Definition data_get (d : gmap string val) (k : string) : val :=
  match d !! k with
  | Some v => v
  | None => if inherited k then VHostMember k else VUndefined
  end.

(** The same on a scope object. *)
Fixpoint scope_own (sc : scope) (k : string) : option nat :=
  match sc with
  | [] => None
  | (k', c) :: rest => if (k' =? k)%string then Some c else scope_own rest k
  end.

Fixpoint scope_put (sc : scope) (k : string) (c : nat) : scope :=
  match sc with
  | [] => [(k, c)]
  | (k', c') :: rest =>
      if (k' =? k)%string then (k', c) :: rest else (k', c') :: scope_put rest k c
  end.

Definition scope_in (sc : scope) (k : string) : bool :=
  bool_decide (is_Some (scope_own sc k)) || inherited k.

(** [Object.keys(variables)], in insertion order (the host would list
    names that are array indices first; they are not told apart here). *)
Definition Object_keys (sc : scope) : list val := map (fun e => VString (fst e)) sc.

(** Store updates. *)
Definition set_cells (st : state) (x : list val) : state :=
  mkState x (scopes st) (objects st) (frames st) (host_values st) (history st).
Definition set_scopes (st : state) (x : list scope) : state :=
  mkState (cells st) x (objects st) (frames st) (host_values st) (history st).
Definition set_objects (st : state) (x : list object) : state :=
  mkState (cells st) (scopes st) x (frames st) (host_values st) (history st).
Definition set_host_values (st : state) (x : gmap string val) : state :=
  mkState (cells st) (scopes st) (objects st) (frames st) x (history st).

(** [new Variable(value)] *)
Definition new_Variable (value : val) (st : state) : nat * state :=
  (length (cells st), set_cells st (cells st ++ [value])).

(** [new LFunction(fn)]: empty [data], [scopeVariables] null. *)
Definition new_LFunction (f : fnval) (st : state) : val * state :=
  (VObject LFunction (length (objects st)),
   set_objects st (objects st ++ [mkObject ∅ f VNull None None])).

(** [new LObject()] *)
Definition new_LObject (st : state) : val * state :=
  (VObject LObject (length (objects st)),
   set_objects st (objects st ++ [mkObject ∅ (Code VUndefined) VUndefined None None])).

(** [new LArray()]: an LObject whose data starts with [length] 0. *)
Definition new_LArray (st : state) : val * state :=
  (VObject LArray (length (objects st)),
   set_objects st (objects st ++
     [mkObject {[ "length" := VNumber (Int 0) ]} (Code VUndefined) VUndefined None None])).

Definition set_data (o : object) (d : gmap string val) : object :=
  mkObject d (fn o) (scopeVariables o) (paramaterList o) (argumentScope o).

(** ** has, get, set *)

(** The properties of the host object itself, which is what [key in obj]
    consults: the fields the constructors assign and the methods of the
    class and its superclasses. *)
Definition own_properties (c : ctor) (o : object) : list string :=
  match c with
  | LFunction =>
      ["data"; "__constructor__"; "fn"; "scopeVariables"; "unevaluatedArgs"; "normalArgs"]
      ++ match paramaterList o with Some _ => ["paramaterList"] | None => [] end
      ++ match argumentScope o with Some _ => ["argumentScope"] | None => [] end
  | _ => ["data"; "__constructor__"]
  end.

Definition class_members (c : ctor) : list string :=
  match c with
  | LFunction =>
      ["constructor"; "__call__"; "setScopeVariables"; "setParamaters"; "toString";
       "__get__"; "__set__"]
  | _ => ["constructor"; "__get__"; "__set__"]
  end.

(** [function has(obj, key) { return key in obj }] *)
Definition has (obj key : val) (st : state) : outcome bool :=
  let k := property_key key in
  if negb (modelled_key k) then Abort OutsideModel else
  match obj with
  | VObject c a =>
      match objects st !! a with
      | Some o =>
          Normal (existsb (String.eqb k)
                    (own_properties c o ++ class_members c ++ ObjectPrototype_names)) st
      | None => Abort OutsideModel
      end
  | VStringPrim _ =>
      Normal (existsb (String.eqb k)
                (["_str"; "constructor"; "toString"; "str"] ++ ObjectPrototype_names)) st
  | VBooleanPrim _ =>
      Normal (existsb (String.eqb k)
                (["_bool"; "constructor"; "valueOf"; "toString"; "bool"]
                 ++ ObjectPrototype_names)) st
  | VNumberPrim _ =>
      Normal (existsb (String.eqb k)
                (["_num"; "constructor"; "valueOf"; "toString"; "num"]
                 ++ ObjectPrototype_names)) st
  | VUndefined | VNull | VBoolean _ | VNumber _ | VString _ =>
      Throw (TypeError (InOperatorOnNonObject k obj)) st
  | VArray _ | VParamater _ _ | VScope _ | VHostMember _ => Abort OutsideModel
  end.

(** ['__super__'] and ['__prototype__'] of the three constructors. *)
Definition super (c : ctor) : option ctor :=
  match c with
  | LObject => None
  | LArray | LFunction => Some LObject
  end.

Definition prototype (c : ctor) : list (string * method) :=
  match c with
  | LObject => []
  | LArray => [("push", push); ("pop", pop)]
  | LFunction => [("debug", debug)]
  end.

Fixpoint table_own (t : list (string * method)) (k : string) : option method :=
  match t with
  | [] => None
  | (k', m) :: rest => if (k' =? k)%string then Some m else table_own rest k
  end.

Definition table_in (t : list (string * method)) (k : string) : bool :=
  bool_decide (is_Some (table_own t k)) || inherited k.

(** The loop of [defaultGet]:
    [while (current && prototype && !(key in prototype))], which stops at
    the first constructor of the chain whose table answers to the key, or
    with [current] null.  No chain is longer than two. *)
Fixpoint walk (n : nat) (current : option ctor) (key : string) : option ctor :=
  match n, current with
  | S n', Some c =>
      if table_in (prototype c) key then Some c else walk n' (super c) key
  | _, _ => None
  end.

Definition the_string (v : val) : string :=
  match v with
  | VString s => s
  | _ => EmptyString
  end.

Definition defaultGet (obj : val) (key : val) (st : state) : outcome val :=
  match obj with
  | VObject c a =>
      match objects st !! a with
      | None => Abort OutsideModel
      | Some o =>
          let keyString := the_string (toJString key) in
          if negb (modelled_key keyString) then Abort OutsideModel else
          if data_in (data o) keyString then Normal (data_get (data o) keyString) st
          else
            match walk 3 (Some c) (property_key key) with
            | Some current =>
                match table_own (prototype current) keyString with
                | Some value =>
                    let (f, st') := new_LFunction (Native (NBound value obj)) st in
                    Normal f st'
                | None =>
                    Normal (if inherited keyString then VHostMember keyString
                            else VUndefined) st
                end
            | None => Normal VUndefined st
            end
      end
  | _ => Abort OutsideModel
  end.

(** [function get(obj, key) { return obj['__get__'](key) }]
    Of the receivers [val] has, the LObject instances answer [__get__],
    with [defaultGet]. *)
Definition get (obj key : val) (st : state) : outcome val :=
  match obj with
  | VObject _ _ => defaultGet obj key st
  | VUndefined | VNull => Throw (TypeError (CannotReadProperty "__get__" obj)) st
  | _ => Throw (TypeError (NotAFunction "obj.__get__")) st
  end.

(** [function defaultSet(obj, key, value) { return obj.data[toJString(key)] = value }] *)
Definition defaultSet (obj key value : val) (st : state) : outcome val :=
  match obj with
  | VObject c a =>
      match objects st !! a with
      | None => Abort OutsideModel
      | Some o =>
          let keyString := the_string (toJString key) in
          if negb (modelled_key keyString) then Abort OutsideModel else
          Normal value
            (set_objects st (<[a := set_data o (<[keyString := value]> (data o))]> (objects st)))
      end
  | _ => Abort OutsideModel
  end.

(** [function set(obj, key, value) { return obj['__set__'](key, value) }]
    Of the receivers [val] has, the LObject instances answer [__set__],
    with [defaultSet].  (The other class of lib.js with a [__set__],
    LEnvironment, has no instance in [val]; its method is
    [LEnvironment.__set__] below.) *)
Definition set (obj key value : val) (st : state) : outcome val :=
  match obj with
  | VObject _ _ => defaultSet obj key value st
  | VUndefined | VNull => Throw (TypeError (CannotReadProperty "__set__" obj)) st
  | _ => Throw (TypeError (NotAFunction "obj.__set__")) st
  end.

(** ** toLObject *)

(** [[
    function toLObject(data) {
      var obj = new LObject();
      for (var key in data) { set(obj, key, data[key]); }
      return obj;
    }
    ]]
    [data] is a plain host object; it is given by its enumerable
    properties, in the order the host enumerates them. *)
Fixpoint toLObject_loop (obj : val) (data : list (string * val)) (st : state) : outcome val :=
  match data with
  | [] => Normal VUndefined st
  | (key, value) :: rest =>
      let* (_, st) := set obj (VString key) value st in
      toLObject_loop obj rest st
  end.

Definition toLObject (data : list (string * val)) (st : state) : outcome val :=
  let (obj, st) := new_LObject st in
  let* (_, st) := toLObject_loop obj data st in
  Normal obj st.

(** ** The array prototype *)

(** The host's [+] and [-] with a number on the right.  An object operand
    is first reduced to a primitive ([valueOf], then [toString]); [+]
    concatenates when that primitive is a string.  [None]: the numbers
    involved leave the range on which the embedding is exact. *)
Definition to_primitive (v : val) : val :=
  match v with
  | VUndefined | VNull | VBoolean _ | VNumber _ | VString _ => v
  | VBooleanPrim _ => BooleanPrim.get_bool v
  | VNumberPrim _ => NumberPrim.get_num v
  | other => VString (js_String other)
  end.

Definition exact (n : num) : bool :=
  match n with
  | NaN => true
  | Int z => (- 2 ^ 53 <=? z) && (z <=? 2 ^ 53)
  end.

Definition num_add (a b : num) : num :=
  match a, b with
  | Int x, Int y => Int (x + y)
  | _, _ => NaN
  end.

Definition num_sub (a b : num) : num :=
  match a, b with
  | Int x, Int y => Int (x - y)
  | _, _ => NaN
  end.

Definition js_add (a : val) (b : num) : option val :=
  match to_primitive a with
  | VString s => Some (VString (s ++ num_to_string b))
  | p =>
      let r := num_add (js_Number p) b in
      if exact (js_Number p) && exact r then Some (VNumber r) else None
  end.

Definition js_sub (a : val) (b : num) : option val :=
  let r := num_sub (js_Number a) b in
  if exact (js_Number a) && exact r then Some (VNumber r) else None.

(** [self.data], for the object a prototype function receives; anything
    that is not an LObject instance has no [data] to read a length from. *)
Definition self_data (self : val) (st : state) : outcome (nat * object) :=
  match self with
  | VObject _ a =>
      match objects st !! a with
      | Some o => Normal (a, o) st
      | None => Abort OutsideModel
      end
  | VUndefined | VNull => Throw (TypeError (CannotReadProperty "data" self)) st
  | VScope _ => Abort OutsideModel
  | _ => Throw (TypeError (CannotReadProperty "length" VUndefined)) st
  end.

Definition store_data (a : nat) (o : object) (d : gmap string val) (st : state) : state :=
  set_objects st (<[a := set_data o d]> (objects st)).

Module LArrayPrototype.

(** [[
    push: new LFunction(function(self, what) {
      self.data[self.data.length] = what
      self.data.length = self.data.length + 1
    })
    ]] *)
Definition push (self what : val) (st : state) : outcome val :=
  let* (ao, st) := self_data self st in
  let d := data (snd ao) in
  let k := property_key (data_get d "length") in
  if negb (modelled_key k) then Abort OutsideModel else
  let d1 := <[k := what]> d in
  match js_add (data_get d1 "length") (Int 1) with
  | Some len => Normal VUndefined (store_data (fst ao) (snd ao) (<["length" := len]> d1) st)
  | None => Abort OutsideModel
  end.

(** [[
    pop: new LFunction(function(self) {
      delete self.data[self.data.length - 1]
      self.data.length = self.data.length - 1
    })
    ]] *)
Definition pop (self : val) (st : state) : outcome val :=
  let* (ao, st) := self_data self st in
  let d := data (snd ao) in
  match js_sub (data_get d "length") (Int 1) with
  | None => Abort OutsideModel
  | Some i =>
      let k := property_key i in
      if negb (modelled_key k) then Abort OutsideModel else
      let d1 := delete k d in
      match js_sub (data_get d1 "length") (Int 1) with
      | Some len => Normal VUndefined (store_data (fst ao) (snd ao) (<["length" := len]> d1) st)
      | None => Abort OutsideModel
      end
  end.

End LArrayPrototype.

Module LFunctionPrototype.

(** [debug] prints [self.fn.toString()]; the console is not part of the
    store, so all that remains is whether [self.fn] can be asked. *)
Definition debug (self : val) (st : state) : outcome val :=
  match self with
  | VObject _ a =>
      match objects st !! a with
      | Some o =>
          match fn o with
          | Code VUndefined => Throw (TypeError (CannotReadProperty "toString" VUndefined)) st
          | Code VNull => Throw (TypeError (CannotReadProperty "toString" VNull)) st
          | _ => Normal VUndefined st
          end
      | None => Abort OutsideModel
      end
  | VUndefined | VNull => Throw (TypeError (CannotReadProperty "fn" self)) st
  | VScope _ => Abort OutsideModel
  | _ => Throw (TypeError (CannotReadProperty "toString" VUndefined)) st
  end.

End LFunctionPrototype.

(** [value.fn.apply(value, arguments)] for a prototype method. *)
Definition apply_method (value : method) (arguments : list val) (st : state) : outcome val :=
  match value with
  | push => LArrayPrototype.push (nth 0 arguments VUndefined) (nth 1 arguments VUndefined) st
  | pop => LArrayPrototype.pop (nth 0 arguments VUndefined) st
  | debug => LFunctionPrototype.debug (nth 0 arguments VUndefined) st
  end.

(** ** Calling functions and evaluating expressions *)

(** [v[i]]; [None] when [v] is undefined or null. *)
Definition index (v : val) (i : nat) : option val :=
  match v with
  | VUndefined | VNull => None
  | VArray l => Some (nth i l VUndefined)
  | VString s =>
      Some match String.get i s with
           | Some c => VString (String c EmptyString)
           | None => VUndefined
           end
  | _ => Some VUndefined
  end.

Definition idx (v : val) (i : nat) : val :=
  match index v i with
  | Some x => x
  | None => VUndefined
  end.

(** [x === tag] for a tag of the constants table. *)
Definition is_tag (x : val) (tag : string) : bool :=
  match x with
  | VString s => (s =? tag)%string
  | _ => false
  end.

(** [expression instanceof Array && expression.every(e => e instanceof Array)] *)
Definition is_array (v : val) : bool :=
  match v with
  | VArray _ => true
  | _ => false
  end.

Definition is_array_of_arrays (expression : val) : bool :=
  match expression with
  | VArray l => forallb is_array l
  | _ => false
  end.

Definition evaluator : Type := val -> val -> state -> outcome val.

(** [l.map(f)], left to right, the store threaded through. *)
Fixpoint map_eval (f : val -> state -> outcome val) (l : list val) (st : state)
  : outcome (list val) :=
  match l with
  | [] => Normal [] st
  | x :: rest =>
      let* (y, st) := f x st in
      let* (ys, st) := map_eval f rest st in
      Normal (y :: ys) st
  end.

(** [a.map(f)] for a host value [a] named [what] in the source. *)
Definition array_map (what : string) (f : val -> state -> outcome val) (a : val) (st : state)
  : outcome val :=
  match a with
  | VArray l => let* (ys, st) := map_eval f l st in Normal (VArray ys) st
  | VUndefined | VNull => Throw (TypeError (CannotReadProperty "map" a)) st
  | _ => Throw (TypeError (NotAFunction (what ++ ".map"))) st
  end.

(** [Object.assign({}, source)]: a new scope object with the own
    properties of [source] (none when it is null or undefined). *)
Definition Object_assign_empty (source : val) (st : state) : outcome val :=
  match source with
  | VUndefined | VNull =>
      Normal (VScope (length (scopes st))) (set_scopes st (scopes st ++ [[]]))
  | VScope s =>
      match scopes st !! s with
      | Some sc => Normal (VScope (length (scopes st))) (set_scopes st (scopes st ++ [sc]))
      | None => Abort OutsideModel
      end
  | _ => Abort OutsideModel
  end.

(** [scope[name] = new Variable(value)] *)
Definition scope_define (variables : val) (name : string) (value : val) (st : state)
  : outcome val :=
  match variables with
  | VUndefined | VNull => Throw (TypeError (CannotSetProperty name variables)) st
  | VScope s =>
      match scopes st !! s with
      | Some sc =>
          if negb (modelled_key name) then Abort OutsideModel else
          let (c, st) := new_Variable value st in
          Normal VUndefined (set_scopes st (<[s := scope_put sc name c]> (scopes st)))
      | None => Abort OutsideModel
      end
  | _ => Abort OutsideModel
  end.

Definition argumentScope_of (fnToken : nat) (st : state) : val :=
  match objects st !! fnToken with
  | Some o => match argumentScope o with Some v => v | None => VUndefined end
  | None => VUndefined
  end.

(** The elements a [for (i = 0; i < x.length; i++) x[i]] loop visits;
    [None] when [x.length] cannot be read. *)
Definition elements (x : val) : option (list val) :=
  match x with
  | VUndefined | VNull => None
  | VArray l => Some l
  | VString s => Some (map (fun c => VString (String c EmptyString)) (list_ascii_of_string s))
  | _ => Some []
  end.

(** [_slicedToArray(_ref, 1)[0]]: the first element of an array or the
    first character of a string; [None] for anything that is not iterable. *)
Definition sliced_first (_ref : val) : option val :=
  match _ref with
  | VArray l => Some (nth 0 l VUndefined)
  | VString _ => index _ref 0
  | _ => None
  end.

Definition record_return (returnValue : nat) (v : val) (st : state) : state :=
  mkState (cells st) (scopes st) (objects st)
          (<[returnValue := v]> (frames st))
          (host_values st) (history st ++ [(returnValue, v)]).

(** [paramater.type] and [paramater.name]; [None] when [paramater] is
    undefined or null. *)
Definition paramater_type (paramater : val) : option val :=
  match paramater with
  | VUndefined | VNull => None
  | VParamater _ type => Some (VString type)
  | _ => Some VUndefined
  end.

Definition paramater_name (paramater : val) : val :=
  match paramater with
  | VParamater name _ => VString name
  | _ => VUndefined
  end.

Definition host_value (st : state) (k : string) : val :=
  match host_values st !! k with
  | Some v => v
  | None => VUndefined
  end.

(** [paramater.type !== 'normal'], for a parameter the loop of
    [defaultCall] can look at. *)
Definition not_normal (paramater : val) : bool :=
  match paramater_type paramater with
  | Some type => negb (is_tag type "normal")
  | None => true
  end.

(** ** LEnvironment *)

(** Class LEnvironment: an object that answers [__get__] and [__set__]
    with the variables of a scope.  An instance has one field, [vars],
    assigned by the constructor and never again; the methods below take
    it in the place of [this].  ([toString], which prints the names as
    JSON, is not modelled.)

    lib.js and interp.js declare the class and never instantiate it: an
    instance can only come from the host.  [val] has no such instance, so
    [get] and [set] above never dispatch to these methods, and a store of
    the embedding holds none.  Through an instance a program writes to the
    scope the instance wraps from wherever it runs; what is proved below
    of [get], [set] and the evaluator is proved of the programs that were
    handed none. *)
Module LEnvironment.

(** [__set__(variableName, value) { this.vars[variableName] = new Variable(value) }] *)
Definition __set__ (vars : val) (variableName value : val) (st : state) : outcome val :=
  scope_define vars (property_key variableName) value st.

(** [__get__(variableName) { return this.vars[variableName].value }] *)
Definition __get__ (vars : val) (variableName : val) (st : state) : outcome val :=
  let k := property_key variableName in
  match vars with
  | VScope s =>
      match scopes st !! s with
      | None => Abort OutsideModel
      | Some sc =>
          if negb (modelled_key k) then Abort OutsideModel else
          match scope_own sc k with
          | Some c =>
              match cells st !! c with
              | Some value => Normal value st
              | None => Abort OutsideModel
              end
          | None =>
              if inherited k then Normal (host_value st k) st
              else Throw (TypeError (CannotReadProperty "value" VUndefined)) st
          end
      end
  | VUndefined | VNull => Throw (TypeError (CannotReadProperty k vars)) st
  | _ => Abort OutsideModel
  end.

End LEnvironment.

Section Interp.

(** [var interp = require('./interp')]: lib.js reaches the evaluator
    through the module object, and the evaluator reaches itself through a
    budget that shrinks with every nested call (see [evaluateExpression]). *)
Variable interp_evaluateExpression : evaluator.

(** [[
    export function evaluateEachExpression(variables, expressions) {
      return expressions.map(e => evaluateExpression(e, variables));
    }
    ]] *)
Definition evaluateEachExpression (variables : val) (expressions : val) (st : state)
  : outcome val :=
  array_map "expressions" (fun e => interp_evaluateExpression e variables) expressions st.

(** Calling the host function held by an LFunction with an argument list. *)
Definition call_native (f : native) (arguments : list val) (st : state) : outcome val :=
  match f with
  | NReturn returnValue =>
      (* function([val]) { returnValue = val } *)
      match sliced_first (nth 0 arguments VUndefined) with
      | Some v =>
          if bool_decide (returnValue < length (frames st))%nat
          then Normal VUndefined (record_return returnValue v st)
          else Abort OutsideModel
      | None => Throw (TypeError NonIterable) st
      end
  | NUnevaluated value fnToken =>
      (* function() { return interp.evaluateExpression(value, fnToken.argumentScope) } *)
      interp_evaluateExpression value (argumentScope_of fnToken st) st
  | NBound value obj =>
      (* function(...args) { return value.fn(obj, ...args) } *)
      apply_method value (obj :: arguments) st
  end.

(** One turn of the loop over the parameters in [defaultCall]. *)
Definition bind_paramater (fnToken : nat) (args : val) (scope : val)
  (i : nat) (paramater : val) (st : state) : outcome val :=
  match index args i with
  | None => Throw (TypeError (CannotReadProperty (num_to_string (Int (Z.of_nat i))) args)) st
  | Some value =>
      match paramater_type paramater with
      | None => Throw (TypeError (CannotReadProperty "type" paramater)) st
      | Some type =>
          if is_tag type "normal" then
            let* (evaluatedValue, st) := interp_evaluateExpression value VUndefined st in
            scope_define scope (property_key (paramater_name paramater)) evaluatedValue st
          else if is_tag type "unevaluated" then
            let (f, st) := new_LFunction (Native (NUnevaluated value fnToken)) st in
            scope_define scope (property_key (paramater_name paramater)) f st
          else Normal VUndefined st
      end
  end.

Fixpoint bind_paramaters (fnToken : nat) (args : val) (scope : val)
  (i : nat) (paramaters : list val) (st : state) : outcome val :=
  match paramaters with
  | [] => Normal VUndefined st
  | paramater :: rest =>
      let* (_, st) := bind_paramater fnToken args scope i paramater st in
      bind_paramaters fnToken args scope (S i) rest st
  end.

(** [[
    export function defaultCall(fnToken, args) {
      if(fnToken.fn instanceof Function) {
        return fnToken.fn(args.map(
          arg => interp.evaluateExpression(arg, fnToken.argumentScope)))
      } else {
        const scope = Object.assign({}, fnToken.scopeVariables)
        let returnValue = null
        scope.return = new Variable(new LFunction(function([val]) {
          returnValue = val
        }))
        const paramaters = fnToken.paramaterList
        for(let i = 0; i < paramaters.length; i++) { ... }
        interp.evaluateEachExpression(scope, fnToken.fn)
        return returnValue
      }
    }
    ]] *)
Definition defaultCall (fnToken : val) (args : val) (st : state) : outcome val :=
  match fnToken with
  | VObject LFunction a =>
      match objects st !! a with
      | None => Abort OutsideModel
      | Some o =>
          match fn o with
          | Native f =>
              let* (mapped, st) :=
                array_map "args"
                  (fun arg st => interp_evaluateExpression arg (argumentScope_of a st) st)
                  args st in
              call_native f [mapped] st
          | Code (VHostMember _) => Abort OutsideModel
          | Code code =>
              let* (scope, st) := Object_assign_empty (scopeVariables o) st in
              let returnValue := length (frames st) in
              let st := mkState (cells st) (scopes st) (objects st)
                                (frames st ++ [VNull]) (host_values st) (history st) in
              let (f, st) := new_LFunction (Native (NReturn returnValue)) st in
              let* (_, st) := scope_define scope "return" f st in
              let paramaters :=
                match paramaterList o with Some v => v | None => VUndefined end in
              match paramaters, elements paramaters with
              | VHostMember _, _ => Abort OutsideModel
              | _, None => Throw (TypeError (CannotReadProperty "length" paramaters)) st
              | _, Some ps =>
                  let* (_, st) := bind_paramaters a args scope 0 ps st in
                  let* (_, st) := evaluateEachExpression scope code st in
                  match frames st !! returnValue with
                  | Some v => Normal v st
                  | None => Abort OutsideModel
                  end
              end
          end
      end
  | _ => Abort OutsideModel
  end.

(** The methods an LFunction instance answers to: those class LFunction
    declares ([__call__], [setScopeVariables], [setParamaters],
    [toString]) and those it inherits from LObject ([__get__], [__set__]). *)
Definition LFunction_method (name : string)
  : option (val -> list val -> state -> outcome val) :=
  if (name =? "__call__")%string then
    Some (fun this arguments st => defaultCall this (nth 0 arguments VUndefined) st)
  else if (name =? "setScopeVariables")%string then
    Some (fun this arguments st =>
            match this with
            | VObject _ a =>
                match objects st !! a with
                | Some o =>
                    Normal VUndefined
                      (set_objects st
                         (<[a := mkObject (data o) (fn o) (nth 0 arguments VUndefined)
                                          (paramaterList o) (argumentScope o)]> (objects st)))
                | None => Abort OutsideModel
                end
            | _ => Abort OutsideModel
            end)
  else if (name =? "setParamaters")%string then
    Some (fun this arguments st =>
            match this with
            | VObject _ a =>
                match objects st !! a with
                | Some o =>
                    Normal VUndefined
                      (set_objects st
                         (<[a := mkObject (data o) (fn o) (scopeVariables o)
                                          (Some (nth 0 arguments VUndefined))
                                          (argumentScope o)]> (objects st)))
                | None => Abort OutsideModel
                end
            | _ => Abort OutsideModel
            end)
  else if (name =? "toString")%string then
    Some (fun this arguments st => Normal (VString "<Object Function>") st)
  else if (name =? "__get__")%string then
    Some (fun this arguments st => defaultGet this (nth 0 arguments VUndefined) st)
  else if (name =? "__set__")%string then
    Some (fun this arguments st =>
            defaultSet this (nth 0 arguments VUndefined) (nth 1 arguments VUndefined) st)
  else None.

(** [fn.name(arguments)] on a freshly made LFunction [fn]. *)
Definition invoke (fn : val) (name : string) (arguments : list val) (st : state)
  : outcome val :=
  match LFunction_method name with
  | Some m => m fn arguments st
  | None => Throw (TypeError (NotAFunction ("fn." ++ name))) st
  end.

(** [function call(fn, args) { return fn['__call__'](args) }] *)
Definition call (fn : val) (args : val) (st : state) : outcome val :=
  match fn with
  | VObject LFunction _ => invoke fn "__call__" [args] st
  | VUndefined | VNull => Throw (TypeError (CannotReadProperty "__call__" fn)) st
  | _ => Throw (TypeError (NotAFunction "fn.__call__")) st
  end.

(** The body of [evaluateExpression(expression, variables)] in interp.js,
    branch by branch. *)
Definition evaluateExpression_body (expression : val) (variables : val) (st : state)
  : outcome val :=
  match index expression 0 with
  | None => Throw (TypeError (CannotReadProperty "0" expression)) st
  | Some tag =>
      if is_tag tag C.COMMENT then Normal VUndefined st
      else if is_array_of_arrays expression then
        evaluateEachExpression variables expression st
      else if is_tag tag C.FUNCTION_CALL then
        let fnExpression := idx expression 1 in
        let argExpressions := idx expression 2 in
        let* (fn, st) := interp_evaluateExpression fnExpression variables st in
        let* (args, st) :=
          array_map "argExpressions"
            (fun arg => interp_evaluateExpression arg variables) argExpressions st in
        call fn args st
      else if is_tag tag C.VARIABLE_IDENTIFIER then
        let name := idx expression 1 in
        let k := property_key name in
        match variables with
        | VScope s =>
            match scopes st !! s with
            | None => Abort OutsideModel
            | Some sc =>
                if negb (modelled_key k) then Abort OutsideModel else
                if scope_in sc k then
                  match scope_own sc k with
                  | Some c =>
                      match cells st !! c with
                      | Some value => Normal value st
                      | None => Abort OutsideModel
                      end
                  | None => Normal (host_value st k) st
                  end
                else
                  Throw (ThrownString
                           ("Variable " ++ js_String name ++ " not in ["
                            ++ js_String (VArray (Object_keys sc)) ++ "]")) st
            end
        | VUndefined | VNull | VBoolean _ | VNumber _ | VString _ =>
            Throw (TypeError (InOperatorOnNonObject k variables)) st
        | _ => Abort OutsideModel
        end
      else if is_tag tag C.VARIABLE_ASSIGN then
        let name := idx expression 1 in
        let valueExpression := idx expression 2 in
        let* (value, st) := interp_evaluateExpression valueExpression variables st in
        scope_define variables (property_key name) value st
      else if is_tag tag C.VARIABLE_CHANGE then
        let name := idx expression 1 in
        let k := property_key name in
        let valueExpression := idx expression 2 in
        let* (value, st) := interp_evaluateExpression valueExpression variables st in
        match variables with
        | VScope s =>
            match scopes st !! s with
            | None => Abort OutsideModel
            | Some sc =>
                if negb (modelled_key k) then Abort OutsideModel else
                match scope_own sc k with
                | Some c =>
                    if bool_decide (c < length (cells st))%nat
                    then Normal VUndefined (set_cells st (<[c := value]> (cells st)))
                    else Abort OutsideModel
                | None =>
                    if inherited k
                    then Normal VUndefined (set_host_values st (<[k := value]> (host_values st)))
                    else Throw (TypeError (CannotSetProperty "value" VUndefined)) st
                end
            end
        | VUndefined | VNull => Throw (TypeError (CannotReadProperty k variables)) st
        | _ => Abort OutsideModel
        end
      else if is_tag tag C.FUNCTION_PRIM then
        let args := idx expression 1 in
        let code := idx expression 2 in
        let (fn, st) := new_LFunction (Code code) st in
        let* (copy, st) := Object_assign_empty variables st in
        let* (_, st) := invoke fn "setScopeVariables" [copy] st in
        let* (_, st) := invoke fn "setArguments" [args] st in
        Normal fn st
      else if is_tag tag C.STRING_PRIM then
        Normal (toLString (idx expression 1)) st
      else if is_tag tag C.BOOLEAN_PRIM then
        Normal (toLBoolean (idx expression 1)) st
      else if is_tag tag C.NUMBER_PRIM then
        Normal (toLNumber (idx expression 1)) st
      else if is_tag tag C.SET_PROP_USING_IDENTIFIER then
        let objExpression := idx expression 1 in
        let key := idx expression 2 in
        let valueExpression := idx expression 3 in
        let* (obj, st) := interp_evaluateExpression objExpression variables st in
        let* (value, st) := interp_evaluateExpression valueExpression variables st in
        let* (_, st) := set obj key value st in
        Normal VUndefined st
      else if is_tag tag C.GET_PROP_USING_IDENTIFIER then
        let objExpression := idx expression 1 in
        let key := idx expression 2 in
        let* (obj, st) := interp_evaluateExpression objExpression variables st in
        get obj key st
      else Throw (InvalidExpressionType expression) st
  end.

End Interp.

(** [evaluateExpression] with a budget for its nesting: every call of the
    evaluator, from itself or from lib.js, spends one unit. *)
Fixpoint evaluateExpression (fuel : nat) : evaluator :=
  match fuel with
  | O => fun _ _ _ => Abort OutOfFuel
  | S fuel' => evaluateExpression_body (evaluateExpression fuel')
  end.

(** [[
    export function evaluateGetPropUsingIdentifier(
        variables, [_, objExpr, key]) {
      var obj = evaluateExpression(objExpr, variables);
      return lib.get(obj, key);
    }
    ]]
    The second parameter is taken apart by the host: anything that is not
    iterable is a TypeError. *)
Definition evaluateGetPropUsingIdentifier (fuel : nat) (variables : val) (node : val)
  (st : state) : outcome val :=
  match node with
  | VArray _ | VString _ =>
      let objExpr := idx node 1 in
      let key := idx node 2 in
      let* (obj, st) := evaluateExpression fuel objExpr variables st in
      get obj key st
  | _ => Throw (TypeError NonIterable) st
  end.

(** [[
    export function interp(ast) {
      if (ast) {
        var variables = {};
        Object.assign(variables, builtins.makeBuiltins());
        var result = evaluateEachExpression(variables, ast);
        return {result, variables};
      } else {
        console.error('Haha, you didn\'t past me a tree!');
      }
    }
    ]]
    Modelled from the spec: the module [./builtins] is not part of the
    sources.  The specification has it hand over a mapping from names to
    Variable cells, that is a scope object; [builtins] is the object
    [makeBuiltins()] returned and [st] the store it left.  The result is
    the pair of [result] and [variables], or nothing when [ast] is falsy. *)
Definition interp (fuel : nat) (builtins : val) (ast : val) (st : state)
  : outcome (option (val * val)) :=
  if js_Boolean ast then
    let* (variables, st) := Object_assign_empty builtins st in
    let* (result, st) := evaluateEachExpression (evaluateExpression fuel) variables ast st in
    Normal (Some (result, variables)) st
  else Normal None st.

(** * Properties *)

Open Scope list_scope.
Open Scope nat_scope.

(** ** The record of [return] invocations *)

(** The values recorded, oldest first, by the [return] binding of the call
    whose [returnValue] local is [f]. *)
Definition returns_of (f : nat) (h : list (nat * val)) : list val :=
  map snd (List.filter (fun e => Nat.eqb (fst e) f) h).

(** Every [returnValue] local holds the last value its [return] binding
    recorded, or null when that was never invoked; and only the bindings of
    calls that have started have ever been invoked. *)
Definition frames_agree (st : state) : Prop :=
  (forall f v, frames st !! f = Some v -> v = List.last (returns_of f (history st)) VNull) /\
  (forall e, In e (history st) -> (fst e < length (frames st))%nat).

(** [steps_to st st']: [st'] can follow [st] in a run: the history has
    only grown, and the agreement above is kept. *)
Definition steps_to (st st' : state) : Prop :=
  (exists new, history st' = history st ++ new) /\
  (frames_agree st -> frames_agree st').

Definition outcome_steps {A : Type} (st : state) (o : outcome A) : Prop :=
  match o with
  | Normal _ st' | Throw _ st' => steps_to st st'
  | Abort _ => True
  end.

(** A computation is well behaved when each of its outcomes is a state
    that can follow the one it started in. *)
Definition behaved {A : Type} (m : state -> outcome A) : Prop :=
  forall st, outcome_steps st (m st).

(** [o1] is [o2], unless the budget ran out before [o1] was reached. *)
Definition le_outcome {A : Type} (o1 o2 : outcome A) : Prop :=
  o1 = Abort OutOfFuel \/ o1 = o2.

Definition le_evaluator (interp1 interp2 : evaluator) : Prop :=
  forall e v st, le_outcome (interp1 e v st) (interp2 e v st).

(** An evaluator that evaluates nothing. *)
Definition no_evaluator : evaluator := fun _ _ _ => Abort OutOfFuel.

(** The store without its history, and outcomes that agree up to the
    history they leave. *)
Definition forget (st : state) : state :=
  mkState (cells st) (scopes st) (objects st) (frames st) (host_values st) [].

Definition same_run {A : Type} (o1 o2 : outcome A) : Prop :=
  match o1, o2 with
  | Normal a1 st1, Normal a2 st2 => a1 = a2 /\ forget st1 = forget st2
  | Throw e1 st1, Throw e2 st2 => e1 = e2 /\ forget st1 = forget st2
  | Abort r1, Abort r2 => r1 = r2
  | _, _ => False
  end.

Definition blind {A : Type} (m : state -> outcome A) : Prop :=
  forall st1 st2, forget st1 = forget st2 -> same_run (m st1) (m st2).

(** ** What a run keeps *)

(** The definitions of this part are about the stores of the embedding,
    in which every write to a scope object goes through [scope_define] on
    the current scope: a store holds no LEnvironment instance (see
    [LEnvironment]), through which a program rebinds the names of the
    scope the instance wraps.  They serve to show what a run adds to the
    store and what it does with the scope object a call has just made,
    which no instance made before the call can wrap; nothing is claimed
    from them about the other scopes of a program that was handed an
    instance. *)

(** The function objects of [l] are still there in [l'], with the host
    function or code they were made with and the same [argumentScope],
    and no object that [l'] adds has an [argumentScope]. *)
Definition objects_kept (l l' : list object) : Prop :=
  (forall a o, l !! a = Some o ->
     exists o', l' !! a = Some o' /\ fn o' = fn o /\ argumentScope o' = argumentScope o) /\
  (forall a o', l' !! a = Some o' -> l !! a = None -> argumentScope o' = None).

(** The scope objects of [l] are still there in [l'], and each still owns
    the names it owned. *)
Definition scopes_kept (l l' : list scope) : Prop :=
  length l <= length l' /\
  (forall s sc, l !! s = Some sc ->
     exists sc', l' !! s = Some sc' /\
       forall k, is_Some (scope_own sc k) -> is_Some (scope_own sc' k)).

Definition grows (st st' : state) : Prop :=
  length (cells st) <= length (cells st') /\
  length (frames st) <= length (frames st') /\
  objects_kept (objects st) (objects st') /\
  scopes_kept (scopes st) (scopes st').

(** Scope object [s] is the [argumentScope] of some function object. *)
Definition names_scope (s : nat) (o : object) : bool :=
  match argumentScope o with
  | Some (VScope s') => Nat.eqb s' s
  | _ => false
  end.

Definition argument_scope (st : state) (s : nat) : bool :=
  existsb (names_scope s) (objects st).

(** The scope objects an evaluation in the scope [variables] that starts
    in [st] may write to: [variables] itself, the scope objects made after
    [st], and the argument scopes. *)
Definition writable (st : state) (variables : val) (s : nat) : Prop :=
  variables = VScope s \/ length (scopes st) <= s \/ argument_scope st s = true.

Definition allowed (st : state) (variables : val) (scope : val) : Prop :=
  forall s, scope = VScope s -> writable st variables s.

(** [keeps variables st st']: [st'] has grown out of [st], and every
    scope object of [st] that is not [writable] is in [st'] as it was. *)
Definition keeps (variables : val) (st st' : state) : Prop :=
  grows st st' /\
  (forall s sc, scopes st !! s = Some sc -> ~ writable st variables s ->
     scopes st' !! s = Some sc).

Definition outcome_keeps {A : Type} (variables : val) (st : state) (o : outcome A) : Prop :=
  match o with
  | Normal _ st' | Throw _ st' => keeps variables st st'
  | Abort _ => True
  end.

(** A computation is isolated in [variables] when of the scope objects
    it finds it writes to the writable ones only. *)
Definition isolated {A : Type} (variables : val) (m : state -> outcome A) : Prop :=
  forall st, outcome_keeps variables st (m st).

(** [continues variables st0 m]: run from any store that [keeps] [st0],
    [m] ends in a store that [keeps] [st0]. *)
Definition continues {A : Type} (variables : val) (st0 : state) (m : state -> outcome A)
  : Prop :=
  forall st, keeps variables st0 st -> outcome_keeps variables st0 (m st).

(** ** Observing outcomes *)

Definition is_normal {A : Type} (o : outcome A) : bool :=
  match o with
  | Normal _ _ => true
  | _ => false
  end.

Definition result {A : Type} (o : outcome A) : option A :=
  match o with
  | Normal a _ => Some a
  | _ => None
  end.

Definition thrown {A : Type} (o : outcome A) : option exn :=
  match o with
  | Throw e _ => Some e
  | _ => None
  end.

Definition final {A : Type} (o : outcome A) : option state :=
  match o with
  | Normal _ st | Throw _ st => Some st
  | Abort _ => None
  end.

(** [obj.data[k]] in the store an outcome leaves behind. *)
Definition final_data {A : Type} (a : nat) (k : string) (o : outcome A) : option val :=
  match final o with
  | Some st =>
      match objects st !! a with
      | Some obj => data obj !! k
      | None => None
      end
  | None => None
  end.

(** ** Syntax trees, as the parser hands them to the evaluator *)

Definition FunctionCall (fnExpression : val) (argExpressions : list val) : val :=
  VArray [VString C.FUNCTION_CALL; fnExpression; VArray argExpressions].
Definition VariableIdentifier (name : string) : val :=
  VArray [VString C.VARIABLE_IDENTIFIER; VString name].
Definition VariableAssign (name : string) (valueExpression : val) : val :=
  VArray [VString C.VARIABLE_ASSIGN; VString name; valueExpression].
Definition VariableChange (name : string) (valueExpression : val) : val :=
  VArray [VString C.VARIABLE_CHANGE; VString name; valueExpression].
Definition FunctionPrim (args : val) (code : val) : val :=
  VArray [VString C.FUNCTION_PRIM; args; code].
Definition StringLiteral (string : string) : val :=
  VArray [VString C.STRING_PRIM; VString string].
Definition GetProp (objExpression : val) (key : string) : val :=
  VArray [VString C.GET_PROP_USING_IDENTIFIER; objExpression; VString key].
Definition SetProp (objExpression : val) (key : string) (valueExpression : val) : val :=
  VArray [VString C.SET_PROP_USING_IDENTIFIER; objExpression; VString key; valueExpression].

(** The node kinds [evaluateExpression] knows. *)
Definition node_kinds : list string :=
  [ C.COMMENT; C.FUNCTION_CALL; C.VARIABLE_IDENTIFIER; C.VARIABLE_ASSIGN;
    C.VARIABLE_CHANGE; C.FUNCTION_PRIM; C.STRING_PRIM; C.BOOLEAN_PRIM;
    C.NUMBER_PRIM; C.SET_PROP_USING_IDENTIFIER; C.GET_PROP_USING_IDENTIFIER ].

(** ** Sample programs *)

(** A function written in the language, the way a host builds one:
    [new LFunction(code)], then [setScopeVariables] and [setParamaters]. *)
Definition language_function (code : list val) (scopeVariables : val) (paramaters : list val)
  : object :=
  mkObject ∅ (Code (VArray code)) scopeVariables (Some (VArray paramaters)) None.

(** A top-level scope (scope object 0) that binds [f] to a language
    function and [a] to an empty LArray. *)
Definition program (f : object) : state :=
  mkState [VObject LFunction 0; VObject LArray 1]
          [[("f", 0); ("a", 1)]]
          [f; mkObject {[ "length" := VNumber (Int 0) ]} (Code VUndefined) VUndefined None None]
          [] ∅ [].

(** [a.push()]: an expression whose every evaluation makes the array [a]
    one longer. *)
Definition grow : val := FunctionCall (GetProp (VariableIdentifier "a") "push") [].

(** [p()], [return(e)] *)
Definition reference (name : string) : val := FunctionCall (VariableIdentifier name) [].
Definition return_ (e : val) : val := FunctionCall (VariableIdentifier "return") [e].

(** The values of the language: the three primitive wrappers and the
    references to LObject instances.  They are what an expression of the
    language evaluates to; none of them is a syntax tree. *)
Definition language_value (v : val) : bool :=
  match v with
  | VStringPrim _ | VBooleanPrim _ | VNumberPrim _ | VObject _ _ => true
  | _ => false
  end.

(** [f.__call__([])] in the sample program, for [f] a function of no
    parameters with the body [body] that captured the top-level scope. *)
Definition call_of (body : list val) (fuel : nat) : outcome val :=
  defaultCall (evaluateExpression fuel) (VObject LFunction 0) (VArray [])
              (program (language_function body (VScope 0) [])).

(** [return('first'); a.push(); return('second'); a.push()] *)
Definition returns_twice : list val :=
  [return_ (StringLiteral "first"); grow; return_ (StringLiteral "second"); grow].

(** The expressions of [l] are evaluated one after the other, each to a
    value, starting in [st] and ending in [st']. *)
Inductive evaluated_in_sequence (interp : evaluator) (variables : val)
  : list val -> state -> list val -> state -> Prop :=
| in_sequence_nil st :
    evaluated_in_sequence interp variables [] st [] st
| in_sequence_cons e l st r st1 rs st2 :
    interp e variables st = Normal r st1 ->
    evaluated_in_sequence interp variables l st1 rs st2 ->
    evaluated_in_sequence interp variables (e :: l) st (r :: rs) st2.

Lemma returns_of_app f h1 h2 :
  returns_of f (h1 ++ h2) = returns_of f h1 ++ returns_of f h2.
Proof. unfold returns_of. by rewrite List.filter_app, map_app. Qed.

Lemma returns_of_absent f h :
  (forall e, In e h -> fst e <> f) -> returns_of f h = [].
Proof.
  induction h as [|[g v] h IH]; intros Hno; [done|].
  unfold returns_of in *. simpl.
  destruct (Nat.eqb_spec g f) as [->|_].
  - exfalso. by apply (Hno (f, v)); [left|].
  - apply IH. intros e He. apply Hno. by right.
Qed.

Lemma steps_to_refl st : steps_to st st.
Proof. split; [exists []; by rewrite app_nil_r | done]. Qed.

Lemma steps_to_trans st1 st2 st3 :
  steps_to st1 st2 -> steps_to st2 st3 -> steps_to st1 st3.
Proof.
  intros [[n1 H1] A1] [[n2 H2] A2]. split; [|auto].
  exists (n1 ++ n2). by rewrite H2, H1, app_assoc.
Qed.

(** A step that touches neither the locals nor the history. *)
Lemma steps_to_same st st' :
  frames st' = frames st -> history st' = history st -> steps_to st st'.
Proof.
  intros Hf Hh. split.
  - exists []. by rewrite Hh, app_nil_r.
  - unfold frames_agree. by rewrite Hf, Hh.
Qed.

Lemma steps_to_new_frame st :
  steps_to st (mkState (cells st) (scopes st) (objects st)
                       (frames st ++ [VNull]) (host_values st) (history st)).
Proof.
  split; [exists []; simpl; by rewrite app_nil_r|].
  intros [Hv He]. split; simpl.
  - intros f v Hf.
    destruct (decide (f < length (frames st))%nat) as [Hlt|Hge].
    + rewrite lookup_app_l in Hf by done. by apply Hv.
    + rewrite lookup_app_r in Hf by lia.
      destruct (f - length (frames st))%nat eqn:E; simpl in Hf; [|done].
      injection Hf as <-.
      rewrite returns_of_absent; [done|].
      intros e Hin. specialize (He e Hin). lia.
  - intros e Hin. rewrite length_app. specialize (He e Hin). simpl. lia.
Qed.

Lemma steps_to_record_return f v st :
  (f < length (frames st))%nat -> steps_to st (record_return f v st).
Proof.
  intros Hlt. split; [by exists [(f, v)]|].
  intros [Hv He]. split; simpl.
  - intros g w Hg. rewrite returns_of_app.
    destruct (decide (f = g)) as [->|Hne].
    + rewrite list_lookup_insert_eq in Hg by done. injection Hg as <-.
      unfold returns_of at 2. simpl. rewrite Nat.eqb_refl. simpl.
      by rewrite last_last.
    + rewrite list_lookup_insert_ne in Hg by done.
      unfold returns_of at 2. simpl.
      destruct (Nat.eqb_spec f g); [done|]. simpl. rewrite app_nil_r. by apply Hv.
  - intros e Hin. rewrite length_insert.
    apply in_app_or in Hin as [Hin|[<-|[]]]; [by apply He | done].
Qed.

Lemma behaved_bind {A B : Type} (m : state -> outcome A) (k : A -> state -> outcome B) :
  behaved m -> (forall a, behaved (k a)) -> behaved (fun st => bind (m st) k).
Proof.
  intros Hm Hk st. specialize (Hm st). unfold bind.
  destruct (m st) as [a st1|e st1|r]; simpl in *; [|done..].
  specialize (Hk a st1). destruct (k a st1); simpl in *; [..|done];
    by eapply steps_to_trans.
Qed.

Lemma outcome_steps_bind {A B : Type} st (m : outcome A) (k : A -> state -> outcome B) :
  outcome_steps st m -> (forall a, behaved (k a)) -> outcome_steps st (bind m k).
Proof.
  intros Hm Hk. unfold bind.
  destruct m as [a st1|e st1|r]; simpl in *; [|done..].
  specialize (Hk a st1). destruct (k a st1); simpl in *; [..|done];
    by eapply steps_to_trans.
Qed.

Lemma outcome_steps_trans {A : Type} st st1 (o : outcome A) :
  steps_to st st1 -> outcome_steps st1 o -> outcome_steps st o.
Proof. destruct o; simpl; [..|done]; apply steps_to_trans. Qed.

(** Closes the goals about steps that leave locals and history alone. *)
Ltac quiet_step :=
  repeat case_match; simpl;
  try done;
  try (apply steps_to_refl);
  try (apply steps_to_same; reflexivity).

Lemma behaved_has obj key : behaved (has obj key).
Proof. intros st. unfold has. quiet_step. Qed.

Lemma behaved_defaultGet obj key : behaved (defaultGet obj key).
Proof. intros st. unfold defaultGet, new_LFunction in *. quiet_step; simplify_eq; quiet_step. Qed.

Lemma behaved_get obj key : behaved (get obj key).
Proof.
  intros st. unfold get.
  destruct obj; first [apply behaved_defaultGet | simpl; apply steps_to_refl].
Qed.

Lemma behaved_defaultSet obj key value : behaved (defaultSet obj key value).
Proof. intros st. unfold defaultSet. quiet_step. Qed.

Lemma behaved_set obj key value : behaved (set obj key value).
Proof.
  intros st. unfold set.
  destruct obj; first [apply behaved_defaultSet | simpl; apply steps_to_refl].
Qed.

Lemma behaved_self_data self : behaved (self_data self).
Proof. intros st. unfold self_data. quiet_step. Qed.

Lemma behaved_push self what : behaved (LArrayPrototype.push self what).
Proof.
  intros st. unfold LArrayPrototype.push.
  apply outcome_steps_bind; [apply behaved_self_data|].
  intros ao st1. unfold store_data. quiet_step.
Qed.

Lemma behaved_pop self : behaved (LArrayPrototype.pop self).
Proof.
  intros st. unfold LArrayPrototype.pop.
  apply outcome_steps_bind; [apply behaved_self_data|].
  intros ao st1. unfold store_data. quiet_step.
Qed.

Lemma behaved_debug self : behaved (LFunctionPrototype.debug self).
Proof. intros st. unfold LFunctionPrototype.debug. quiet_step. Qed.

Lemma behaved_apply_method value arguments : behaved (apply_method value arguments).
Proof.
  destruct value; simpl; [apply behaved_push | apply behaved_pop | apply behaved_debug].
Qed.

Lemma behaved_Object_assign_empty source : behaved (Object_assign_empty source).
Proof. intros st. unfold Object_assign_empty. quiet_step. Qed.

Lemma behaved_scope_define variables name value :
  behaved (scope_define variables name value).
Proof. intros st. unfold scope_define, new_Variable. quiet_step; simplify_eq; quiet_step. Qed.

Lemma behaved_map_eval f l : (forall x, behaved (f x)) -> behaved (map_eval f l).
Proof.
  intros Hf. induction l as [|x l IH]; intros st; simpl; [apply steps_to_refl|].
  apply outcome_steps_bind; [apply Hf|]. intros y st1.
  apply outcome_steps_bind; [apply IH|]. intros ys st2. simpl. apply steps_to_refl.
Qed.

Lemma behaved_array_map what f a : (forall x, behaved (f x)) -> behaved (array_map what f a).
Proof.
  intros Hf st. unfold array_map. destruct a; simpl; try apply steps_to_refl.
  apply outcome_steps_bind; [by apply behaved_map_eval|].
  intros ys st1. simpl. apply steps_to_refl.
Qed.

Section BehavedInterp.

Variable interp : evaluator.
Hypothesis behaved_interp : forall e v, behaved (interp e v).

Lemma behaved_evaluateEachExpression variables expressions :
  behaved (evaluateEachExpression interp variables expressions).
Proof. apply behaved_array_map. intros x. apply behaved_interp. Qed.

Lemma behaved_call_native f arguments : behaved (call_native interp f arguments).
Proof.
  intros st. destruct f as [r|value fnToken|value obj]; simpl.
  - destruct (sliced_first _); [|simpl; apply steps_to_refl].
    case_bool_decide; simpl; [|done]. by apply steps_to_record_return.
  - apply behaved_interp.
  - apply behaved_apply_method.
Qed.

Lemma behaved_bind_paramater fnToken args scope i paramater :
  behaved (bind_paramater interp fnToken args scope i paramater).
Proof.
  intros st. unfold bind_paramater.
  destruct (index args i); [|simpl; apply steps_to_refl].
  destruct (paramater_type paramater); [|simpl; apply steps_to_refl].
  destruct (is_tag _ "normal").
  { apply outcome_steps_bind; [apply behaved_interp|].
    intros a. apply behaved_scope_define. }
  destruct (is_tag _ "unevaluated"); [|simpl; apply steps_to_refl].
  unfold new_LFunction.
  eapply outcome_steps_trans; [|apply behaved_scope_define].
  by apply steps_to_same.
Qed.

Lemma behaved_bind_paramaters fnToken args scope paramaters :
  forall i, behaved (bind_paramaters interp fnToken args scope i paramaters).
Proof.
  induction paramaters as [|p ps IH]; intros i st; simpl; [apply steps_to_refl|].
  apply outcome_steps_bind; [apply behaved_bind_paramater|]. intros _. apply IH.
Qed.

Lemma behaved_defaultCall fnToken args : behaved (defaultCall interp fnToken args).
Proof.
  intros st. unfold defaultCall.
  destruct fnToken as [| | | | | | | | | |[] a| |]; try done.
  destruct (objects st !! a) as [o|]; [|done].
  assert (Huser : forall code,
    outcome_steps st
      (let* (scope, st) := Object_assign_empty (scopeVariables o) st in
       let returnValue := length (frames st) in
       let st := mkState (cells st) (scopes st) (objects st)
                         (frames st ++ [VNull]) (host_values st) (history st) in
       let (f, st) := new_LFunction (Native (NReturn returnValue)) st in
       let* (_, st) := scope_define scope "return" f st in
       let paramaters :=
         match paramaterList o with Some v => v | None => VUndefined end in
       match paramaters, elements paramaters with
       | VHostMember _, _ => Abort OutsideModel
       | _, None => Throw (TypeError (CannotReadProperty "length" paramaters)) st
       | _, Some ps =>
           let* (_, st) := bind_paramaters interp a args scope 0 ps st in
           let* (_, st) := evaluateEachExpression interp scope code st in
           match frames st !! returnValue with
           | Some v => Normal v st
           | None => Abort OutsideModel
           end
       end)).
  { intros code.
    apply outcome_steps_bind; [apply behaved_Object_assign_empty|].
    intros scope st1. simpl.
    match goal with
    | |- outcome_steps _ (bind (scope_define _ _ _ ?s) _) =>
        apply (outcome_steps_trans _ s)
    end.
    { eapply steps_to_trans; [apply steps_to_new_frame|]. by apply steps_to_same. }
    apply outcome_steps_bind; [apply behaved_scope_define|].
    intros _ st2.
    assert (Hrest : forall ps,
      outcome_steps st2
        (let* (_, st) := bind_paramaters interp a args scope 0 ps st2 in
         let* (_, st) := evaluateEachExpression interp scope code st in
         match frames st !! length (frames st1) with
         | Some v => Normal v st
         | None => Abort OutsideModel
         end)).
    { intros ps.
      apply outcome_steps_bind; [apply behaved_bind_paramaters|]. intros _.
      apply behaved_bind; [apply behaved_evaluateEachExpression|].
      intros _ st3. destruct (frames st3 !! _); simpl; [apply steps_to_refl|done]. }
    destruct (match paramaterList o with Some v => v | None => VUndefined end);
      first [ apply Hrest | exact (Hrest []) | simpl; apply steps_to_refl | done ]. }
  destruct (fn o) as [f|code].
  - apply outcome_steps_bind.
    + apply behaved_array_map. intros x st1. apply behaved_interp.
    + intros mapped. apply behaved_call_native.
  - destruct code; try apply Huser. done.
Qed.

Lemma behaved_invoke fn name arguments : behaved (invoke interp fn name arguments).
Proof.
  intros st. unfold invoke, LFunction_method.
  repeat case_match; simplify_eq; simpl;
    try apply steps_to_refl;
    try apply behaved_defaultCall;
    try apply behaved_defaultGet;
    try apply behaved_defaultSet.
  all: repeat case_match; simpl; try done; by apply steps_to_same.
Qed.

Lemma behaved_call fn args : behaved (call interp fn args).
Proof.
  intros st. unfold call.
  repeat case_match; first [apply behaved_invoke | simpl; apply steps_to_refl].
Qed.

Lemma behaved_evaluateExpression_body expression variables :
  behaved (evaluateExpression_body interp expression variables).
Proof.
  intros st. unfold evaluateExpression_body.
  destruct (index expression 0) as [tag|]; [|simpl; apply steps_to_refl].
  destruct (is_tag tag C.COMMENT); [simpl; apply steps_to_refl|].
  destruct (is_array_of_arrays expression); [apply behaved_evaluateEachExpression|].
  destruct (is_tag tag C.FUNCTION_CALL).
  { apply outcome_steps_bind; [apply behaved_interp|]. intros fn.
    apply behaved_bind; [apply behaved_array_map; intros x; apply behaved_interp|].
    intros args. apply behaved_call. }
  destruct (is_tag tag C.VARIABLE_IDENTIFIER); [quiet_step|].
  destruct (is_tag tag C.VARIABLE_ASSIGN).
  { apply outcome_steps_bind; [apply behaved_interp|]. intros value.
    apply behaved_scope_define. }
  destruct (is_tag tag C.VARIABLE_CHANGE).
  { apply outcome_steps_bind; [apply behaved_interp|]. intros value st1. quiet_step. }
  destruct (is_tag tag C.FUNCTION_PRIM).
  { unfold new_LFunction.
    match goal with
    | |- outcome_steps _ (bind (Object_assign_empty _ ?s) _) =>
        apply (outcome_steps_trans _ s)
    end.
    { by apply steps_to_same. }
    apply outcome_steps_bind; [apply behaved_Object_assign_empty|]. intros copy.
    apply behaved_bind; [apply behaved_invoke|]. intros _.
    apply behaved_bind; [apply behaved_invoke|]. intros _ st1.
    simpl. apply steps_to_refl. }
  destruct (is_tag tag C.STRING_PRIM); [simpl; apply steps_to_refl|].
  destruct (is_tag tag C.BOOLEAN_PRIM); [simpl; apply steps_to_refl|].
  destruct (is_tag tag C.NUMBER_PRIM); [simpl; apply steps_to_refl|].
  destruct (is_tag tag C.SET_PROP_USING_IDENTIFIER).
  { apply outcome_steps_bind; [apply behaved_interp|]. intros obj.
    apply behaved_bind; [apply behaved_interp|]. intros value.
    apply behaved_bind; [apply behaved_set|]. intros _ st1.
    simpl. apply steps_to_refl. }
  destruct (is_tag tag C.GET_PROP_USING_IDENTIFIER).
  { apply outcome_steps_bind; [apply behaved_interp|]. intros obj.
    apply behaved_get. }
  simpl. apply steps_to_refl.
Qed.

End BehavedInterp.

Lemma behaved_evaluateExpression fuel :
  forall e v, behaved (evaluateExpression fuel e v).
Proof.
  induction fuel as [|fuel IH]; intros e v; [done|].
  by apply behaved_evaluateExpression_body.
Qed.

(** ** The budget does not matter

    An evaluation that ends with a value or an exception ends the same
    way under every larger budget. *)

Lemma le_outcome_refl {A : Type} (o : outcome A) : le_outcome o o.
Proof. by right. Qed.

Lemma le_bind {A B : Type} (m1 m2 : outcome A) (k1 k2 : A -> state -> outcome B) :
  le_outcome m1 m2 ->
  (forall a st, le_outcome (k1 a st) (k2 a st)) ->
  le_outcome (bind m1 k1) (bind m2 k2).
Proof.
  intros [->| ->] Hk; [by left|].
  destruct m2; simpl; [apply Hk | by right..].
Qed.

Lemma le_map_eval (f1 f2 : val -> state -> outcome val) l :
  (forall x st, le_outcome (f1 x st) (f2 x st)) ->
  forall st, le_outcome (map_eval f1 l st) (map_eval f2 l st).
Proof.
  intros Hf. induction l as [|x l IH]; intros st; simpl; [by right|].
  apply le_bind; [apply Hf|]. intros y st1.
  apply le_bind; [apply IH|]. intros ys st2. by right.
Qed.

Lemma le_array_map what (f1 f2 : val -> state -> outcome val) a st :
  (forall x st, le_outcome (f1 x st) (f2 x st)) ->
  le_outcome (array_map what f1 a st) (array_map what f2 a st).
Proof.
  intros Hf. destruct a; simpl; try by right.
  apply le_bind; [by apply le_map_eval|]. intros ys st1. by right.
Qed.

Section Monotone.

Variables interp1 interp2 : evaluator.
Hypothesis interp_le : le_evaluator interp1 interp2.

Ltac mono :=
  repeat first
    [ apply le_outcome_refl
    | apply interp_le
    | apply le_array_map; intros ? ?
    | apply le_bind; [|intros ? ?]
    | case_match ].

Lemma le_evaluateEachExpression variables expressions st :
  le_outcome (evaluateEachExpression interp1 variables expressions st)
             (evaluateEachExpression interp2 variables expressions st).
Proof. unfold evaluateEachExpression. mono. Qed.

Lemma le_call_native f arguments st :
  le_outcome (call_native interp1 f arguments st) (call_native interp2 f arguments st).
Proof. unfold call_native. mono. Qed.

Lemma le_bind_paramaters fnToken args scope paramaters :
  forall i st,
    le_outcome (bind_paramaters interp1 fnToken args scope i paramaters st)
               (bind_paramaters interp2 fnToken args scope i paramaters st).
Proof.
  induction paramaters as [|p ps IH]; intros i st; simpl; [by right|].
  apply le_bind; [|intros ? ?; apply IH].
  unfold bind_paramater. mono.
Qed.

Lemma le_defaultCall fnToken args st :
  le_outcome (defaultCall interp1 fnToken args st) (defaultCall interp2 fnToken args st).
Proof.
  unfold defaultCall.
  repeat first
    [ apply le_outcome_refl
    | apply interp_le
    | apply le_call_native
    | apply le_bind_paramaters
    | apply le_evaluateEachExpression
    | apply le_array_map; intros ? ?
    | apply le_bind; [|intros ? ?]
    | case_match ].
Qed.

Lemma le_invoke fn name arguments st :
  le_outcome (invoke interp1 fn name arguments st) (invoke interp2 fn name arguments st).
Proof.
  unfold invoke, LFunction_method.
  repeat first
    [ apply le_outcome_refl | apply le_defaultCall | progress simplify_eq | case_match ].
Qed.

Lemma le_call fn args st :
  le_outcome (call interp1 fn args st) (call interp2 fn args st).
Proof. unfold call. repeat first [ apply le_outcome_refl | apply le_invoke | case_match ]. Qed.

Lemma le_evaluateExpression_body expression variables st :
  le_outcome (evaluateExpression_body interp1 expression variables st)
             (evaluateExpression_body interp2 expression variables st).
Proof.
  unfold evaluateExpression_body.
  repeat first
    [ apply le_outcome_refl
    | apply interp_le
    | apply le_call
    | apply le_invoke
    | apply le_evaluateEachExpression
    | apply le_array_map; intros ? ?
    | apply le_bind; [|intros ? ?]
    | case_match ].
Qed.

End Monotone.

Lemma evaluateExpression_step fuel :
  le_evaluator (evaluateExpression fuel) (evaluateExpression (S fuel)).
Proof.
  induction fuel as [|fuel IH]; intros e v st; [by left|].
  by apply le_evaluateExpression_body.
Qed.

Lemma evaluateExpression_monotone fuel fuel' :
  fuel <= fuel' -> le_evaluator (evaluateExpression fuel) (evaluateExpression fuel').
Proof.
  induction 1 as [|fuel' _ IH]; intros e v st; [by right|].
  destruct (IH e v st) as [->| ->]; [by left|]. apply evaluateExpression_step.
Qed.

(** The result of an evaluation that returns does not depend on the
    budget it was given. *)
Lemma evaluateExpression_result_is_stable fuel fuel' e v st r st' :
  fuel <= fuel' ->
  evaluateExpression fuel e v st = Normal r st' ->
  evaluateExpression fuel' e v st = Normal r st'.
Proof.
  intros Hle H. destruct (evaluateExpression_monotone fuel fuel' Hle e v st) as [E|E];
    congruence.
Qed.

(** ** The history is only a record

    No operation reads [history]: runs from stores that differ only there
    end alike, up to the history they leave. *)

Lemma same_run_bind {A B : Type} (m1 m2 : outcome A) (k : A -> state -> outcome B) :
  same_run m1 m2 -> (forall a, blind (k a)) -> same_run (bind m1 k) (bind m2 k).
Proof.
  destruct m1, m2; simpl; try done.
  intros [<- H] Hk. by apply Hk.
Qed.

Lemma blind_bind {A B : Type} (m : state -> outcome A) (k : A -> state -> outcome B) :
  blind m -> (forall a, blind (k a)) -> blind (fun st => bind (m st) k).
Proof. intros Hm Hk st1 st2 H. apply same_run_bind; [by apply Hm | done]. Qed.

Ltac blind_primitive :=
  intros [? ? ? ? ? ?] [? ? ? ? ? ?] [= -> -> -> -> ->]; simpl;
  repeat (case_match; simpl in *; simplify_eq); done.

Lemma blind_defaultGet obj key : blind (defaultGet obj key).
Proof. unfold defaultGet, new_LFunction. blind_primitive. Qed.

Lemma blind_get obj key : blind (get obj key).
Proof. unfold get, defaultGet, new_LFunction. blind_primitive. Qed.

Lemma blind_defaultSet obj key value : blind (defaultSet obj key value).
Proof. unfold defaultSet. blind_primitive. Qed.

Lemma blind_set obj key value : blind (set obj key value).
Proof. unfold set, defaultSet. blind_primitive. Qed.

Lemma blind_apply_method value arguments : blind (apply_method value arguments).
Proof.
  unfold apply_method, LArrayPrototype.push, LArrayPrototype.pop, LFunctionPrototype.debug,
    self_data, store_data, bind.
  blind_primitive.
Qed.

Lemma blind_Object_assign_empty source : blind (Object_assign_empty source).
Proof. unfold Object_assign_empty. blind_primitive. Qed.

Lemma blind_scope_define variables name value : blind (scope_define variables name value).
Proof. unfold scope_define, new_Variable. blind_primitive. Qed.

Lemma blind_map_eval f l : (forall x, blind (f x)) -> blind (map_eval f l).
Proof.
  intros Hf. induction l as [|x l IH]; intros st1 st2 H; simpl; [done|].
  apply same_run_bind; [by apply Hf|]. intros y.
  apply blind_bind; [apply IH|]. by intros ys st3 st4 H'.
Qed.

Lemma blind_array_map what f a : (forall x, blind (f x)) -> blind (array_map what f a).
Proof.
  intros Hf st1 st2 H. destruct a; simpl; try done.
  apply same_run_bind; [by apply blind_map_eval|]. by intros ys st3 st4 H'.
Qed.

Section BlindInterp.

Variable interp : evaluator.
Hypothesis blind_interp : forall e v, blind (interp e v).

Lemma blind_evaluateEachExpression variables expressions :
  blind (evaluateEachExpression interp variables expressions).
Proof. apply blind_array_map. intros x. apply blind_interp. Qed.

Lemma argumentScope_of_forget fnToken st1 st2 :
  forget st1 = forget st2 -> argumentScope_of fnToken st1 = argumentScope_of fnToken st2.
Proof. destruct st1, st2. intros [= -> -> -> -> ->]. done. Qed.

Lemma blind_call_native f arguments : blind (call_native interp f arguments).
Proof.
  destruct f as [r|value fnToken|value obj]; unfold call_native.
  - unfold record_return. blind_primitive.
  - intros st1 st2 H.
    rewrite (argumentScope_of_forget _ _ _ H). by apply blind_interp.
  - apply blind_apply_method.
Qed.

Lemma blind_bind_paramater fnToken args scope i paramater :
  blind (bind_paramater interp fnToken args scope i paramater).
Proof.
  intros st1 st2 H. unfold bind_paramater.
  destruct (index args i); [|done].
  destruct (paramater_type paramater); [|done].
  destruct (is_tag _ "normal").
  { apply same_run_bind; [by apply blind_interp|]. intros a. apply blind_scope_define. }
  destruct (is_tag _ "unevaluated"); [|done].
  unfold new_LFunction.
  assert (Hobj : objects st1 = objects st2) by (destruct st1, st2; by injection H).
  rewrite Hobj. apply blind_scope_define.
  destruct st1, st2. by injection H as -> -> -> -> ->.
Qed.

Lemma blind_bind_paramaters fnToken args scope paramaters :
  forall i, blind (bind_paramaters interp fnToken args scope i paramaters).
Proof.
  induction paramaters as [|p ps IH]; intros i st1 st2 H; simpl; [done|].
  apply same_run_bind; [by apply blind_bind_paramater|]. intros _. apply IH.
Qed.

Lemma blind_defaultCall fnToken args : blind (defaultCall interp fnToken args).
Proof.
  intros st1 st2 H. unfold defaultCall.
  destruct fnToken as [| | | | | | | | | |[] a| |]; try done.
  assert (Hobj : objects st1 = objects st2).
  { destruct st1, st2. by injection H. }
  rewrite Hobj. destruct (objects st2 !! a) as [o|]; [|done].
  destruct (fn o) as [f|code].
  { apply same_run_bind.
    - apply blind_array_map; [|done]. intros x st3 st4 H'.
      rewrite (argumentScope_of_forget _ _ _ H'). by apply blind_interp.
    - intros mapped. apply blind_call_native. }
  assert (Huser :
    same_run
      (let* (scope, st) := Object_assign_empty (scopeVariables o) st1 in
       let returnValue := length (frames st) in
       let st := mkState (cells st) (scopes st) (objects st)
                         (frames st ++ [VNull]) (host_values st) (history st) in
       let (f, st) := new_LFunction (Native (NReturn returnValue)) st in
       let* (_, st) := scope_define scope "return" f st in
       let paramaters :=
         match paramaterList o with Some v => v | None => VUndefined end in
       match paramaters, elements paramaters with
       | VHostMember _, _ => Abort OutsideModel
       | _, None => Throw (TypeError (CannotReadProperty "length" paramaters)) st
       | _, Some ps =>
           let* (_, st) := bind_paramaters interp a args scope 0 ps st in
           let* (_, st) := evaluateEachExpression interp scope code st in
           match frames st !! returnValue with
           | Some v => Normal v st
           | None => Abort OutsideModel
           end
       end)
      (let* (scope, st) := Object_assign_empty (scopeVariables o) st2 in
       let returnValue := length (frames st) in
       let st := mkState (cells st) (scopes st) (objects st)
                         (frames st ++ [VNull]) (host_values st) (history st) in
       let (f, st) := new_LFunction (Native (NReturn returnValue)) st in
       let* (_, st) := scope_define scope "return" f st in
       let paramaters :=
         match paramaterList o with Some v => v | None => VUndefined end in
       match paramaters, elements paramaters with
       | VHostMember _, _ => Abort OutsideModel
       | _, None => Throw (TypeError (CannotReadProperty "length" paramaters)) st
       | _, Some ps =>
           let* (_, st) := bind_paramaters interp a args scope 0 ps st in
           let* (_, st) := evaluateEachExpression interp scope code st in
           match frames st !! returnValue with
           | Some v => Normal v st
           | None => Abort OutsideModel
           end
       end)).
  { apply same_run_bind; [by apply blind_Object_assign_empty|].
    intros scope st3 st4 H'.
    assert (Hframes : frames st3 = frames st4).
    { destruct st3, st4. by injection H'. }
    assert (Hobj' : objects st3 = objects st4).
    { destruct st3, st4. by injection H'. }
    cbn zeta. unfold new_LFunction. cbn [objects]. rewrite Hframes, Hobj'.
    apply same_run_bind.
    { apply blind_scope_define. destruct st3, st4. by injection H' as -> -> -> -> ->. }
    intros _ st5 st6 H''.
    assert (Hrest : forall ps,
      same_run
        (let* (_, st) := bind_paramaters interp a args scope 0 ps st5 in
         let* (_, st) := evaluateEachExpression interp scope code st in
         match frames st !! length (frames st4) with
         | Some v => Normal v st
         | None => Abort OutsideModel
         end)
        (let* (_, st) := bind_paramaters interp a args scope 0 ps st6 in
         let* (_, st) := evaluateEachExpression interp scope code st in
         match frames st !! length (frames st4) with
         | Some v => Normal v st
         | None => Abort OutsideModel
         end)).
    { intros ps. apply same_run_bind; [by apply blind_bind_paramaters|]. intros _.
      apply blind_bind; [apply blind_evaluateEachExpression|].
      intros _ st7 st8 H3.
      assert (Hf : frames st7 = frames st8) by (destruct st7, st8; by injection H3).
      rewrite Hf. by destruct (frames st8 !! _). }
    destruct (match paramaterList o with Some v => v | None => VUndefined end);
      first [ apply Hrest | exact (Hrest []) | done ]. }
  destruct code; first [ exact Huser | done ].
Qed.

Lemma blind_invoke fn name arguments : blind (invoke interp fn name arguments).
Proof.
  unfold invoke, LFunction_method.
  repeat case_match; simplify_eq;
    first [ apply blind_defaultCall | apply blind_defaultGet | apply blind_defaultSet
          | blind_primitive ].
Qed.

Lemma blind_call fn args : blind (call interp fn args).
Proof.
  unfold call. repeat case_match; first [ apply blind_invoke | blind_primitive ].
Qed.

Lemma blind_evaluateExpression_body expression variables :
  blind (evaluateExpression_body interp expression variables).
Proof.
  intros st1 st2 H. unfold evaluateExpression_body.
  destruct (index expression 0) as [tag|]; [|done].
  destruct (is_tag tag C.COMMENT); [done|].
  destruct (is_array_of_arrays expression); [by apply blind_evaluateEachExpression|].
  destruct (is_tag tag C.FUNCTION_CALL).
  { apply same_run_bind; [by apply blind_interp|]. intros fn.
    apply blind_bind; [apply blind_array_map; intros x; apply blind_interp|].
    intros args. apply blind_call. }
  destruct (is_tag tag C.VARIABLE_IDENTIFIER).
  { revert st1 st2 H. unfold host_value. blind_primitive. }
  destruct (is_tag tag C.VARIABLE_ASSIGN).
  { apply same_run_bind; [by apply blind_interp|]. intros value.
    apply blind_scope_define. }
  destruct (is_tag tag C.VARIABLE_CHANGE).
  { apply same_run_bind; [by apply blind_interp|]. intros value.
    unfold set_cells, set_host_values. blind_primitive. }
  destruct (is_tag tag C.FUNCTION_PRIM).
  { unfold new_LFunction.
    assert (Hobj : objects st1 = objects st2) by (destruct st1, st2; by injection H).
    rewrite Hobj.
    apply same_run_bind.
    { apply blind_Object_assign_empty. destruct st1, st2.
      by injection H as -> -> -> -> ->. }
    intros copy. apply blind_bind; [apply blind_invoke|].
    intros _. apply blind_bind; [apply blind_invoke|].
    by intros _ st3 st4 H'. }
  destruct (is_tag tag C.STRING_PRIM); [done|].
  destruct (is_tag tag C.BOOLEAN_PRIM); [done|].
  destruct (is_tag tag C.NUMBER_PRIM); [done|].
  destruct (is_tag tag C.SET_PROP_USING_IDENTIFIER).
  { apply same_run_bind; [by apply blind_interp|]. intros obj.
    apply blind_bind; [apply blind_interp|]. intros value.
    apply blind_bind; [apply blind_set|]. by intros _ st3 st4 H'. }
  destruct (is_tag tag C.GET_PROP_USING_IDENTIFIER).
  { apply same_run_bind; [by apply blind_interp|]. intros obj. apply blind_get. }
  done.
Qed.

End BlindInterp.

Lemma blind_evaluateExpression fuel : forall e v, blind (evaluateExpression fuel e v).
Proof.
  induction fuel as [|fuel IH]; intros e v; [by intros st1 st2 H|].
  by apply blind_evaluateExpression_body.
Qed.

(** ** Reading a variable *)

Lemma prefix_append needle rest : String.prefix needle (needle ++ rest)%string = true.
Proof.
  induction needle as [|c n IH]; simpl; [by destruct rest|].
  rewrite IH. by destruct (Ascii.ascii_dec c c).
Qed.

Lemma contains_prefix needle rest : contains needle (needle ++ rest)%string = true.
Proof.
  pose proof (prefix_append needle rest) as H.
  destruct (needle ++ rest)%string; cbn [contains]; by rewrite H.
Qed.

Lemma contains_append front needle rest :
  contains needle (front ++ needle ++ rest)%string = true.
Proof.
  induction front as [|c front IH]; [exact (contains_prefix needle rest)|].
  change (contains needle (String c (front ++ needle ++ rest)%string) = true).
  cbn [contains]. rewrite IH. apply orb_true_r.
Qed.

(** Reading a name that the scope neither owns nor inherits throws the
    evaluator's own error, whose text contains the name. *)
Lemma read_of_unbound_name fuel name s sc st :
  scopes st !! s = Some sc ->
  modelled_key name = true ->
  scope_in sc name = false ->
  evaluateExpression (S fuel) (VariableIdentifier name) (VScope s) st
    = Throw (ThrownString ("Variable " ++ name ++ " not in ["
                           ++ js_String (VArray (Object_keys sc)) ++ "]")%string) st /\
  identifies (ThrownString ("Variable " ++ name ++ " not in ["
                            ++ js_String (VArray (Object_keys sc)) ++ "]")%string) name = true.
Proof.
  intros Hs Hk Hin. split.
  - cbn -[Object_keys js_String]. rewrite Hs. cbn -[Object_keys js_String].
    unfold property_key. cbn [js_String]. by rewrite Hk, Hin.
  - unfold identifies. cbn [exn_message]. apply (contains_append "Variable ").
Qed.

(** Reading a bound name returns what its cell holds. *)
Lemma read_of_bound_name fuel name s sc c value st :
  scopes st !! s = Some sc ->
  modelled_key name = true ->
  scope_own sc name = Some c ->
  cells st !! c = Some value ->
  evaluateExpression (S fuel) (VariableIdentifier name) (VScope s) st = Normal value st.
Proof.
  intros Hs Hk Hown Hc. cbn -[Object_keys js_String]. rewrite Hs.
  cbn -[Object_keys js_String]. unfold property_key, scope_in. cbn [js_String].
  rewrite Hk, Hown, Hc. reflexivity.
Qed.

(** ** The call site (interp.js) against the call protocol (lib.js) *)

(** The call branch, as an equation: the function expression, then every
    argument expression in the caller's scope, then the call. *)
Lemma evaluateExpression_FunctionCall fuel fnExpression argExpressions variables st :
  evaluateExpression (S fuel) (FunctionCall fnExpression argExpressions) variables st =
  let* (fn, st) := evaluateExpression fuel fnExpression variables st in
  let* (args, st) :=
    map_eval (fun arg => evaluateExpression fuel arg variables) argExpressions st in
  call (evaluateExpression fuel) fn (VArray args) st.
Proof.
  cbn -[call map_eval]. unfold bind.
  destruct (evaluateExpression fuel fnExpression variables st) as [fn st1| |]; [|done..].
  by destruct (map_eval _ argExpressions st1).
Qed.

(** So an argument that fails fails the call, whatever is called. *)
Lemma call_site_argument_failure fuel fnExpression argExpressions variables st fn st1 e st2 :
  evaluateExpression fuel fnExpression variables st = Normal fn st1 ->
  map_eval (fun arg => evaluateExpression fuel arg variables) argExpressions st1
    = Throw e st2 ->
  evaluateExpression (S fuel) (FunctionCall fnExpression argExpressions) variables st
    = Throw e st2.
Proof. intros Hfn Hargs. by rewrite evaluateExpression_FunctionCall, Hfn; simpl; rewrite Hargs. Qed.

(** C1.  The claim: at a function-call node the evaluator evaluates only
    the function expression, leaves the argument expressions to the
    callable, and a native function sees each argument evaluated exactly
    once.  The evaluator does otherwise: it maps [evaluateExpression] over
    the argument expressions itself before it calls.  Calling a function
    without parameters and with an empty body on an undefined variable
    throws the variable's lookup error, where the same call without the
    argument returns null; and a native function ([a.push]) given a string
    literal never runs, because [defaultCall] evaluates the wrapper the
    call site produced a second time, as if it were an expression. *)
Theorem call_site_evaluates_every_argument :
  let st := program (language_function [] VNull []) in
  thrown (evaluateExpression 3
            (FunctionCall (VariableIdentifier "f") [VariableIdentifier "missing"])
            (VScope 0) st)
    = Some (ThrownString "Variable missing not in [f,a]") /\
  result (evaluateExpression 3 (FunctionCall (VariableIdentifier "f") []) (VScope 0) st)
    = Some VNull /\
  thrown (evaluateExpression 4
            (FunctionCall (GetProp (VariableIdentifier "a") "push") [StringLiteral "x"])
            (VScope 0) st)
    = Some (InvalidExpressionType (VStringPrim (VString "x"))) /\
  final_data 1 "length"
    (evaluateExpression 4
       (FunctionCall (GetProp (VariableIdentifier "a") "push") [StringLiteral "x"])
       (VScope 0) st)
    = Some (VNumber (Int 0)).
Proof. repeat split; vm_compute; reflexivity. Qed.

(** C2.  The claim: an 'unevaluated' parameter re-evaluates the original
    argument expression in the caller's scope at each reference, so a side
    effect in the argument fires once per reference and not at all without
    one.  Through the evaluator it does not: with [f] taking one
    'unevaluated' parameter [p] and the argument [a.push()], a body that
    never mentions [p] still leaves [a] one longer; a body that calls [p]
    twice throws at the first reference, because what the parameter holds
    is the argument's value (undefined), and [a] is again one longer, not
    two. *)
Theorem unevaluated_argument_is_evaluated_at_the_call_site :
  let never := program (language_function [] VNull [VParamater "p" "unevaluated"]) in
  let twice := program (language_function [reference "p"; reference "p"] VNull
                                          [VParamater "p" "unevaluated"]) in
  let call_f := FunctionCall (VariableIdentifier "f") [grow] in
  result (evaluateExpression 6 call_f (VScope 0) never) = Some VNull /\
  final_data 1 "length" (evaluateExpression 6 call_f (VScope 0) never)
    = Some (VNumber (Int 1)) /\
  thrown (evaluateExpression 6 call_f (VScope 0) twice)
    = Some (TypeError (CannotReadProperty "0" VUndefined)) /\
  final_data 1 "length" (evaluateExpression 6 call_f (VScope 0) twice)
    = Some (VNumber (Int 1)).
Proof. repeat split; vm_compute; reflexivity. Qed.

(** Where the two sides meet: a reference [p()] to an 'unevaluated'
    parameter evaluates whatever [defaultCall] was handed for it ([value]),
    in the scope the called function's [argumentScope] names at that
    moment.  The call site hands over a value, and nothing in the sources
    assigns [argumentScope]. *)
Lemma reference_evaluates_what_was_handed_over fuel p s sc c t o value fnToken st :
  scopes st !! s = Some sc ->
  modelled_key p = true ->
  scope_own sc p = Some c ->
  cells st !! c = Some (VObject LFunction t) ->
  objects st !! t = Some o ->
  fn o = Native (NUnevaluated value fnToken) ->
  evaluateExpression (S (S fuel)) (reference p) (VScope s) st
    = evaluateExpression (S fuel) value (argumentScope_of fnToken st) st.
Proof.
  intros Hs Hk Hown Hc Ho Hfn. unfold reference.
  rewrite evaluateExpression_FunctionCall.
  rewrite (read_of_bound_name fuel p s sc c _ st Hs Hk Hown Hc).
  cbn [bind map_eval]. unfold call, invoke. cbn [LFunction_method String.eqb Ascii.eqb Bool.eqb].
  cbn [nth]. unfold defaultCall. rewrite Ho, Hfn. cbn [array_map map_eval bind call_native].
  reflexivity.
Qed.

(** What lib.js does on its own: handed the argument expression itself,
    and with [argumentScope] naming the caller's scope, [defaultCall]
    evaluates the argument of an 'unevaluated' parameter once per
    reference (here twice) and never when there is none. *)
Lemma defaultCall_by_name :
  let f code := mkObject ∅ (Code (VArray code)) (VScope 0)
                         (Some (VArray [VParamater "p" "unevaluated"])) (Some (VScope 0)) in
  final_data 1 "length"
    (defaultCall (evaluateExpression 6) (VObject LFunction 0) (VArray [grow])
       (program (f [reference "p"; reference "p"]))) = Some (VNumber (Int 2)) /\
  final_data 1 "length"
    (defaultCall (evaluateExpression 6) (VObject LFunction 0) (VArray [grow])
       (program (f []))) = Some (VNumber (Int 0)).
Proof. split; vm_compute; reflexivity. Qed.

(** ** The [return] binding *)

Lemma bind_Normal {A B : Type} (m : outcome A) (k : A -> state -> outcome B) b st' :
  bind m k = Normal b st' ->
  exists a st1, m = Normal a st1 /\ k a st1 = Normal b st'.
Proof. destruct m as [a st1| |]; simpl; intros H; [eauto|done..]. Qed.

Lemma map_eval_in_sequence interp variables l :
  forall st rs st',
    map_eval (fun e => interp e variables) l st = Normal rs st' <->
    evaluated_in_sequence interp variables l st rs st'.
Proof.
  induction l as [|e l IH]; intros st rs st'; simpl.
  - split.
    + intros [= <- <-]. constructor.
    + by inversion 1.
  - split.
    + intros H. apply bind_Normal in H as (r & st1 & He & H).
      apply bind_Normal in H as (rs' & st2 & Hl & [= <- <-]).
      econstructor; [done|]. by apply IH.
    + inversion 1 as [|? ? ? r st1 rs' ? He Hl]; subst.
      rewrite He. simpl. apply IH in Hl. by rewrite Hl.
Qed.

Lemma evaluated_in_sequence_length interp variables l st rs st' :
  evaluated_in_sequence interp variables l st rs st' -> length rs = length l.
Proof. induction 1; simpl; congruence. Qed.

Lemma Object_assign_empty_frames source st scope st1 :
  Object_assign_empty source st = Normal scope st1 ->
  frames st1 = frames st /\ scope = VScope (length (scopes st)).
Proof. unfold Object_assign_empty. repeat case_match; intros [= <- <-]; done. Qed.

(** What lib.js's [defaultCall] does for the calls that come back: such
    a call has evaluated every expression of the body, in order, each to
    a value ([evaluated_in_sequence], in the call's new scope, from the
    store [st0] left by the binding of the parameters to the store the
    call ends in), whatever the [return] binding did in between; and its
    result is the value of the last invocation of that binding during the
    call, or null when there was none.  [new] is what the call added to
    the history; the invocations of this call's own binding are those
    recorded under the call's [returnValue] local, which is the next free
    one when the call starts.  Which calls come back is another matter:
    with the call site of interp.js, a body that hands [return] a value of
    the language does not (see [return_of_a_language_value]). *)
Theorem defaultCall_result_is_last_return :
  forall fuel a o code args st r st',
    frames_agree st ->
    objects st !! a = Some o ->
    fn o = Code code ->
    defaultCall (evaluateExpression fuel) (VObject LFunction a) args st = Normal r st' ->
    exists body st0 results new,
      code = VArray body /\
      evaluated_in_sequence (evaluateExpression fuel) (VScope (length (scopes st)))
                            body st0 results st' /\
      length results = length body /\
      history st' = history st ++ new /\
      r = List.last (returns_of (length (frames st)) new) VNull.
Proof.
  intros fuel a o code args st r st' Hagree Hobj Hfn Hcall.
  pose proof (behaved_defaultCall (evaluateExpression fuel)
                (behaved_evaluateExpression fuel) (VObject LFunction a) args st) as Hsteps.
  rewrite Hcall in Hsteps. destruct Hsteps as [[new Hnew] Hkeep].
  specialize (Hkeep Hagree).
  unfold defaultCall in Hcall. rewrite Hobj, Hfn in Hcall.
  assert (Hbody : exists st0 expressions st4,
             evaluateEachExpression (evaluateExpression fuel)
               (VScope (length (scopes st))) code st0 = Normal expressions st4 /\
             frames st4 !! length (frames st) = Some r /\ st4 = st').
  { destruct code; try discriminate.
    all: apply bind_Normal in Hcall as (scope & st1 & Hassign & Hcall).
    all: apply Object_assign_empty_frames in Hassign as [Hframes ->].
    all: cbn beta iota zeta delta [new_LFunction] in Hcall.
    all: apply bind_Normal in Hcall as (? & st2 & _ & Hcall).
    all: destruct (match paramaterList o with Some v => v | None => VUndefined end).
    all: cbn beta iota delta [elements] in Hcall; try discriminate.
    all: apply bind_Normal in Hcall as (? & st3 & _ & Hcall).
    all: apply bind_Normal in Hcall as (expressions & st4 & Heach & Hcall).
    all: rewrite Hframes in Hcall.
    all: destruct (frames st4 !! length (frames st)) eqn:Hr; try discriminate.
    all: injection Hcall as <- <-; eauto 10. }
  destruct Hbody as (st0 & expressions & st4 & Heach & Hr & ->).
  unfold evaluateEachExpression, array_map in Heach.
  destruct code as [| | | | |body| | | | | | |]; try discriminate.
  apply bind_Normal in Heach as (results & st5 & Hmap & [= <- <-]).
  apply map_eval_in_sequence in Hmap.
  exists body, st0, results, new.
  split; [done|]. split; [done|].
  split; [by eapply evaluated_in_sequence_length|]. split; [done|].
  destruct Hkeep as [Hv _]. rewrite (Hv _ _ Hr), Hnew, returns_of_app.
  rewrite (returns_of_absent _ (history st)); [done|].
  intros e Hin. destruct Hagree as [_ He]. specialize (He e Hin). lia.
Qed.

Lemma frames_agree_fresh st : frames st = [] -> history st = [] -> frames_agree st.
Proof.
  intros Hf Hh. unfold frames_agree. rewrite Hf, Hh. split; [|done].
  intros f v. by rewrite lookup_nil.
Qed.

(** The agreement holds in every store a run reaches from one in which no
    call has started yet. *)
Lemma frames_agree_reached fuel e v st r st' :
  frames st = [] -> history st = [] ->
  evaluateExpression fuel e v st = Normal r st' ->
  frames_agree st'.
Proof.
  intros Hf Hh Hrun. pose proof (behaved_evaluateExpression fuel e v st) as H.
  rewrite Hrun in H. apply H. by apply frames_agree_fresh.
Qed.

(** A body that calls [return] twice, with [a.push()] after each call:
    the result is the second value, and [a] has grown twice.  The values
    returned are the host arrays [[]] and [[[]]]: whatever is handed to
    [return] goes through the evaluator twice (see C1), and these come out
    of the second pass as they went in. *)
Lemma defaultCall_result_is_last_return_witness :
  let st := program (language_function
                       [return_ (VArray []); grow; return_ (VArray [VArray []]); grow]
                       (VScope 0) []) in
  exists st',
    defaultCall (evaluateExpression 6) (VObject LFunction 0) (VArray []) st
      = Normal (VArray [VArray []]) st' /\
    (objects st' !! 1 ≫= fun o => data o !! "length") = Some (VNumber (Int 2)) /\
    exists body st0 results new,
      VArray [return_ (VArray []); grow; return_ (VArray [VArray []]); grow] = VArray body /\
      evaluated_in_sequence (evaluateExpression 6) (VScope (length (scopes st)))
                            body st0 results st' /\
      length results = length body /\
      history st' = history st ++ new /\
      VArray [VArray []] = List.last (returns_of (length (frames st)) new) VNull.
Proof.
  intros st. eexists. split; [vm_compute; reflexivity|].
  split; [vm_compute; reflexivity|].
  eapply (defaultCall_result_is_last_return 6 0 _ _ (VArray []) st).
  - apply frames_agree_fresh; reflexivity.
  - reflexivity.
  - reflexivity.
  - vm_compute; reflexivity.
Defined.

(** ** has *)

(** [has] never looks at [data]: writing a key leaves its answer as it was. *)
Lemma has_ignores_set obj key k value st v st' :
  defaultSet obj k value st = Normal v st' ->
  result (has obj key st') = result (has obj key st).
Proof.
  unfold defaultSet, has. destruct obj as [| | | | | | | | | |c a| |]; try done.
  destruct (objects st !! a) as [o|] eqn:Ho; [|done].
  destruct (negb (modelled_key (the_string (toJString k)))); [done|].
  intros [= <- <-]. destruct (negb (modelled_key (property_key key))); [done|].
  simpl. rewrite list_lookup_insert_eq by (by eapply lookup_lt_Some). simpl.
  by destruct c.
Qed.

(** C4.  The claim: [has(o, k)] tells whether [k] is in [o]'s own data
    map, so it is true right after [set(o, k, v)].  The code asks
    [key in obj], the host object, not [key in obj.data] as [defaultGet]
    does: after [set(o, 'x', 1)] the key is in the data map and [has]
    answers false; it answers true for ['data'], which no program ever
    set, and false for the ['length'] a new array owns.  (For ['push'] on
    a new array it answers false, as the claim says.) *)
Theorem has_consults_the_host_object :
  let o := fst (new_LObject empty_state) in
  let after_set := set o (VString "x") (VNumber (Int 1)) (snd (new_LObject empty_state)) in
  let arr := fst (new_LArray empty_state) in
  let st_arr := snd (new_LArray empty_state) in
  final_data 0 "x" after_set = Some (VNumber (Int 1)) /\
  (final after_set ≫= fun st => result (has o (VString "x") st)) = Some false /\
  (final after_set ≫= fun st => result (has o (VString "data") st)) = Some true /\
  result (has arr (VString "length") st_arr) = Some false /\
  result (has arr (VString "push") st_arr) = Some false.
Proof. repeat split; vm_compute; reflexivity. Qed.

(** ** Function literals *)

(** C5.  The claim: evaluating a function literal returns a function
    object with the captured scope, the parameters and the body, without
    failing.  It never returns: after [setScopeVariables] the evaluator
    calls [fn.setArguments(args)], and class LFunction has no such method
    (it has [setParamaters]; only the comment above the class speaks of
    [setArguments]), so every function literal ends in a TypeError.
    The parameters are never recorded. *)
Theorem function_literal_never_returns :
  forall fuel args code variables st,
    is_normal (evaluateExpression fuel (FunctionPrim args code) variables st) = false.
Proof.
  intros [|fuel] args code variables st; [reflexivity|].
  cbn -[Object_assign_empty invoke]. unfold bind.
  destruct (Object_assign_empty _ _) as [copy st1| |]; [|reflexivity..].
  destruct (invoke _ _ "setScopeVariables" _ _) as [x st2| |]; reflexivity.
Qed.

(** In any scope, what it throws is the host's TypeError. *)
Lemma function_literal_throws fuel args code s sc st :
  scopes st !! s = Some sc ->
  thrown (evaluateExpression (S fuel) (FunctionPrim args code) (VScope s) st)
    = Some (TypeError (NotAFunction "fn.setArguments")).
Proof.
  intros Hs. cbn -[invoke]. rewrite Hs. cbn -[invoke].
  unfold invoke at 1. cbn [LFunction_method String.eqb Ascii.eqb Bool.eqb].
  cbn [objects set_objects set_scopes nth].
  rewrite lookup_app_r by done. rewrite Nat.sub_diag. reflexivity.
Qed.

(** ** Variables *)

(** Changing a bound name overwrites its cell in place: afterwards every
    scope that binds some name to the same cell reads the new value. *)
Lemma change_is_seen_through_every_alias fuel name valueExpression s sc c value st st1 :
  evaluateExpression fuel valueExpression (VScope s) st = Normal value st1 ->
  scopes st1 !! s = Some sc ->
  modelled_key name = true ->
  scope_own sc name = Some c ->
  c < length (cells st1) ->
  evaluateExpression (S fuel) (VariableChange name valueExpression) (VScope s) st
    = Normal VUndefined (set_cells st1 (<[c := value]> (cells st1))) /\
  forall fuel' alias s' sc',
    scopes st1 !! s' = Some sc' ->
    modelled_key alias = true ->
    scope_own sc' alias = Some c ->
    evaluateExpression (S fuel') (VariableIdentifier alias) (VScope s')
      (set_cells st1 (<[c := value]> (cells st1)))
    = Normal value (set_cells st1 (<[c := value]> (cells st1))).
Proof.
  intros Hv Hs Hk Hown Hc. split.
  - cbn -[Object_keys js_String]. unfold property_key. cbn [js_String].
    rewrite Hv. simpl. rewrite Hs, Hk, Hown. simpl.
    by rewrite bool_decide_true by done.
  - intros fuel' alias s' sc' Hs' Hk' Hown'.
    eapply read_of_bound_name; [exact Hs'|done|done|].
    simpl. by apply list_lookup_insert_eq.
Qed.

(** C6.  The claim: changing a name that has no cell fails with a lookup
    error that identifies the name.  The change branch has no check of
    its own: it runs [variables[name].value = value] and lets the host
    fail on [undefined.value].  What propagates is the host's TypeError,
    whose text does not contain the name, where the read branch throws
    ["Variable counter not in [...]"]. *)
Theorem change_of_unbound_name_is_anonymous :
  let st := program (language_function [] VNull []) in
  let change := evaluateExpression 2 (VariableChange "counter" (StringLiteral "a"))
                                   (VScope 0) st in
  let read := evaluateExpression 1 (VariableIdentifier "counter") (VScope 0) st in
  thrown change = Some (TypeError (CannotSetProperty "value" VUndefined)) /\
  exn_message (TypeError (CannotSetProperty "value" VUndefined))
    = "Cannot set property 'value' of undefined"%string /\
  identifies (TypeError (CannotSetProperty "value" VUndefined)) "counter" = false /\
  thrown read = Some (ThrownString "Variable counter not in [f,a]") /\
  identifies (ThrownString "Variable counter not in [f,a]") "counter" = true.
Proof. repeat split; vm_compute; reflexivity. Qed.

(** Changing a name the scope only inherits does not fail either: the
    value lands on the host's member and a later read finds it there. *)
Lemma change_of_inherited_name :
  let st := program (language_function [] VNull []) in
  result (evaluateExpression 3
            (VArray [VariableChange "toString" (StringLiteral "a");
                     VariableIdentifier "toString"])
            (VScope 0) st)
    = Some (VArray [VUndefined; VStringPrim (VString "a")]).
Proof. vm_compute; reflexivity. Qed.

(** C7.  The claim: reading a name absent from the scope fails with a
    lookup error that names it.  The test is [name in variables], and a
    scope is a plain host object, for which [in] also answers for what it
    inherits from the host's Object.prototype: reading [toString] in a
    scope that binds only [f] and [a] returns undefined and throws
    nothing.  (For every other absent name the error is thrown and names
    it, and a bound name yields its cell's value: [read_of_unbound_name],
    [read_of_bound_name].) *)
Theorem read_of_inherited_name_does_not_fail :
  let st := program (language_function [] VNull []) in
  scope_own [("f", 0); ("a", 1)] "toString" = None /\
  evaluateExpression 1 (VariableIdentifier "toString") (VScope 0) st = Normal VUndefined st.
Proof. split; vm_compute; reflexivity. Qed.

(** ** Conversions and wrappers *)

(** C8.  The claim: the three conversions to host values accept a
    wrapper or a raw host value and normalise either; in particular
    [toJBoolean(b)] is [b] for a raw boolean.  [toJString] and
    [toJNumber] do ([String(str)], [Number(num)] in their else branch);
    [toJBoolean] returns false for everything that is not a BooleanPrim
    holding true, the raw [true] included. *)
Theorem toJBoolean_of_raw_true :
  toJBoolean (VBoolean true) = VBoolean false /\
  toJBoolean (VBooleanPrim (VBoolean true)) = VBoolean true /\
  (forall s, toJString (VString s) = VString s) /\
  (forall n, toJNumber (VNumber n) = VNumber n).
Proof. repeat split. Qed.

(** C9.  For each of the three wrappers and every value written:
    reading after the write gives the coercion of the written value to
    the wrapper's kind; coercing a coerced value changes nothing; and
    whatever the raw field holds, a read yields a value of the wrapper's
    kind. *)
Theorem wrapper_read_after_write :
  forall raw v,
    StringPrim.get_str (StringPrim.set_str (VStringPrim raw) v) = VString (js_String v) /\
    BooleanPrim.get_bool (BooleanPrim.set_bool (VBooleanPrim raw) v)
      = VBoolean (js_Boolean v) /\
    NumberPrim.get_num (NumberPrim.set_num (VNumberPrim raw) v) = VNumber (js_Number v) /\
    js_String (VString (js_String v)) = js_String v /\
    js_Boolean (VBoolean (js_Boolean v)) = js_Boolean v /\
    js_Number (VNumber (js_Number v)) = js_Number v /\
    StringPrim.get_str (VStringPrim raw) = VString (js_String raw) /\
    BooleanPrim.get_bool (VBooleanPrim raw) = VBoolean (js_Boolean raw) /\
    NumberPrim.get_num (VNumberPrim raw) = VNumber (js_Number raw).
Proof. intros raw v. repeat split. Qed.

(** ** The array prototype *)

Lemma num_to_string_is_a_numeral n :
  num_to_string n <> "length"%string /\ modelled_key (num_to_string n) = true.
Proof.
  destruct n as [|[|p|p]]; [done|done|..]; unfold num_to_string; simpl;
    destruct (Pos.to_uint p); done.
Qed.

(** C10.  [pop] has no guard: for an array whose [length] is the number
    [n], it deletes the entry under the numeral of [n - 1] and sets
    [length] to [n - 1], whatever [n] is; at [n = 0] that is the entry
    [-1] and the length [-1] (see the witness, on a new array, where the
    entry [-1] does not exist). *)
Theorem pop_decrements_unconditionally :
  forall c a o n st,
    objects st !! a = Some o ->
    data o !! "length"%string = Some (VNumber (Int n)) ->
    (- 2 ^ 53 < n <= 2 ^ 53)%Z ->
    LArrayPrototype.pop (VObject c a) st =
      Normal VUndefined
        (store_data a o
           (<["length"%string := VNumber (Int (n - 1))]>
              (delete (num_to_string (Int (n - 1))) (data o))) st).
Proof.
  intros c a o n st Ho Hlen Hn.
  destruct (num_to_string_is_a_numeral (Int (n - 1))) as [Hne Hkey].
  assert (Hexact : exact (Int n) && exact (Int (n - 1)) = true).
  { unfold exact. apply andb_true_intro; split; apply andb_true_intro; split;
      apply Z.leb_le; lia. }
  unfold LArrayPrototype.pop, self_data. rewrite Ho. cbn [bind fst snd].
  unfold data_get. rewrite Hlen. unfold js_sub. cbn [js_Number num_sub].
  rewrite Hexact. unfold property_key. cbn [js_String]. rewrite Hkey. cbn [negb].
  rewrite lookup_delete_ne by done. rewrite Hlen. cbn [js_Number num_sub].
  by rewrite Hexact.
Qed.

Lemma pop_decrements_unconditionally_witness :
  let st := snd (new_LArray empty_state) in
  (objects st !! 0 ≫= fun o => data o !! "-1"%string) = None /\
  exists st',
    LArrayPrototype.pop (VObject LArray 0) st = Normal VUndefined st' /\
    (objects st' !! 0 ≫= fun o => data o !! "length"%string) = Some (VNumber (Int (-1))) /\
    (objects st' !! 0 ≫= fun o => data o !! "-1"%string) = None.
Proof.
  intros st. split; [vm_compute; reflexivity|].
  eexists. split.
  - eapply (pop_decrements_unconditionally LArray 0 _ 0 st);
      [reflexivity | reflexivity | lia].
  - split; vm_compute; reflexivity.
Defined.

(** The same through the evaluator: [a.pop()] on the empty array [a]. *)
Lemma pop_through_the_evaluator :
  let o := evaluateExpression 4 (FunctionCall (GetProp (VariableIdentifier "a") "pop") [])
                              (VScope 0) (program (language_function [] VNull [])) in
  result o = Some VUndefined /\
  final_data 1 "length" o = Some (VNumber (Int (-1))).
Proof. split; vm_compute; reflexivity. Qed.

(** * More of lib.js and interp.js *)

(** ** Reading and writing properties *)

Lemma toJString_is_String key : toJString key = VString (js_String key).
Proof. by destruct key. Qed.

Lemma the_string_toJString key : the_string (toJString key) = property_key key.
Proof. by rewrite toJString_is_String. Qed.

Lemma set_objects_same st : set_objects st (objects st) = st.
Proof. by destruct st. Qed.

Lemma set_data_same o : set_data o (data o) = o.
Proof. by destruct o. Qed.

(** What [set] does to an object that exists. *)
Lemma set_existing c a o key value st :
  objects st !! a = Some o ->
  modelled_key (property_key key) = true ->
  set (VObject c a) key value st
    = Normal value
        (set_objects st (<[a := set_data o (<[property_key key := value]> (data o))]>
                           (objects st))).
Proof.
  intros Ho Hk. unfold set, defaultSet.
  by rewrite Ho, the_string_toJString, Hk.
Qed.

(** [get] on an object that exists, without the loop: the object's own
    data first, then what the data map inherits from the host, then the
    table of the object's constructor; anything else is undefined. *)
Lemma get_existing c a o key st :
  objects st !! a = Some o ->
  modelled_key (property_key key) = true ->
  get (VObject c a) key st =
    match data o !! property_key key with
    | Some v => Normal v st
    | None =>
        if inherited (property_key key) then Normal (VHostMember (property_key key)) st
        else match table_own (prototype c) (property_key key) with
             | Some m =>
                 Normal (VObject LFunction (length (objects st)))
                   (set_objects st
                      (objects st ++
                         [mkObject ∅ (Native (NBound m (VObject c a))) VNull None None]))
             | None => Normal VUndefined st
             end
    end.
Proof.
  intros Ho Hk. unfold get, defaultGet.
  rewrite Ho, the_string_toJString, Hk. cbn [negb].
  unfold data_in, data_get.
  destruct (data o !! property_key key) as [v|] eqn:Hd.
  { by rewrite bool_decide_true by eauto. }
  rewrite bool_decide_false by (by intros [? ?]). cbn [orb].
  destruct (inherited (property_key key)) eqn:Hi; [done|].
  destruct (table_own (prototype c) (property_key key)) as [m|] eqn:Ht.
  - cbn [walk]. unfold table_in. rewrite Ht.
    rewrite bool_decide_true by eauto. cbn [orb]. by rewrite Ht.
  - destruct c; cbn [walk super prototype] in *; unfold table_in;
      rewrite ?Ht, ?Hi; cbn [table_own];
      rewrite ?bool_decide_false by (by intros [? ?]); cbn [orb]; by rewrite ?Hi.
Qed.

(** X1.  Reading a key right after writing it yields the value written.
    Keys are compared by the string they denote, so a StringPrim and the
    raw string with the same text name the same entry; and an entry of
    the object's own data hides a method of the prototype table with the
    same name (the witness writes [push] on an array and reads the number
    back). *)
Theorem get_after_set :
  forall c a o key key' value st,
    objects st !! a = Some o ->
    modelled_key (property_key key) = true ->
    property_key key' = property_key key ->
    exists st',
      set (VObject c a) key value st = Normal value st' /\
      get (VObject c a) key' st' = Normal value st'.
Proof.
  intros c a o key key' value st Ho Hk Hsame.
  eexists. split; [by apply set_existing|].
  erewrite get_existing; cycle 1.
  - simpl. apply list_lookup_insert_eq. by eapply lookup_lt_Some.
  - by rewrite Hsame.
  - simpl. by rewrite Hsame, lookup_insert_eq.
Qed.

Lemma get_after_set_witness :
  let st := snd (new_LArray empty_state) in
  exists st',
    set (VObject LArray 0) (VStringPrim (VString "push")) (VNumber (Int 7)) st
      = Normal (VNumber (Int 7)) st' /\
    get (VObject LArray 0) (VString "push") st' = Normal (VNumber (Int 7)) st'.
Proof.
  intros st.
  apply (get_after_set LArray 0
           (mkObject {[ "length"%string := VNumber (Int 0) ]} (Code VUndefined) VUndefined None None)
           (VStringPrim (VString "push")) (VString "push") (VNumber (Int 7)) st);
    reflexivity.
Defined.

(** X2.  [set] on an object that exists returns the value and changes
    one entry of one object's data: the object's other fields and other
    entries, every other object, the cells, the scopes and the locals of
    running calls are as before, [get] answers as before for every other
    object and every other key, and [has] answers as before for every
    object and key. *)
Theorem set_changes_one_entry :
  forall c a o key value st,
    objects st !! a = Some o ->
    modelled_key (property_key key) = true ->
    exists st' o',
      set (VObject c a) key value st = Normal value st' /\
      objects st' !! a = Some o' /\
      fn o' = fn o /\ scopeVariables o' = scopeVariables o /\
      paramaterList o' = paramaterList o /\ argumentScope o' = argumentScope o /\
      (forall k, k <> property_key key -> data o' !! k = data o !! k) /\
      (forall b, b <> a -> objects st' !! b = objects st !! b) /\
      length (objects st') = length (objects st) /\
      cells st' = cells st /\ scopes st' = scopes st /\ frames st' = frames st /\
      (forall c' b key',
         b <> a \/ property_key key' <> property_key key ->
         result (get (VObject c' b) key' st') = result (get (VObject c' b) key' st)) /\
      (forall c' b key',
         result (has (VObject c' b) key' st') = result (has (VObject c' b) key' st)).
Proof.
  intros c a o key value st Ho Hk.
  pose proof (lookup_lt_Some _ _ _ Ho) as Hlt.
  eexists _, _. split; [by apply set_existing|].
  cbn [objects set_objects cells scopes frames].
  split; [by apply list_lookup_insert_eq|].
  do 4 (split; [done|]).
  split; [intros k Hne; simpl; by rewrite lookup_insert_ne|].
  split; [intros b Hne; by rewrite list_lookup_insert_ne|].
  split; [by rewrite length_insert|].
  do 3 (split; [done|]).
  split; cycle 1.
  { intros c' b key'. unfold has. cbn [objects set_objects].
    destruct (negb (modelled_key _)); [done|].
    destruct (decide (b = a)) as [->|Hne].
    - rewrite list_lookup_insert_eq by done. rewrite Ho. simpl. by destruct c'.
    - rewrite list_lookup_insert_ne by done. by destruct (objects st !! b). }
  intros c' b key' Hother.
  destruct (modelled_key (property_key key')) eqn:Hk'; cycle 1.
  { unfold get, defaultGet. cbn [objects set_objects].
    rewrite the_string_toJString, Hk'.
    destruct (decide (b = a)) as [->|Hne].
    - by rewrite list_lookup_insert_eq, Ho.
    - rewrite list_lookup_insert_ne by done. by destruct (objects st !! b). }
  destruct (decide (b = a)) as [->|Hne].
  - destruct Hother as [?|Hkey]; [done|].
    erewrite (get_existing c' a _ key' (set_objects _ _));
      [|by apply list_lookup_insert_eq|done].
    rewrite (get_existing c' a o key' st) by done.
    cbn [data set_data objects set_objects]. rewrite lookup_insert_ne by done.
    rewrite length_insert.
    by repeat case_match.
  - unfold get, defaultGet. cbn [objects set_objects].
    rewrite list_lookup_insert_ne by done.
    destruct (objects st !! b); [|done].
    repeat case_match; simplify_eq; try done.
    all: unfold new_LFunction in *; simplify_eq; cbn [objects set_objects result].
    all: by rewrite ?length_insert.
Qed.

Lemma set_changes_one_entry_witness :
  let st := snd (new_LArray (snd (new_LObject empty_state))) in
  exists st' o',
    set (VObject LObject 0) (VString "x") VNull st = Normal VNull st' /\
    objects st' !! 0 = Some o' /\
    result (get (VObject LArray 1) (VString "length") st') = Some (VNumber (Int 0)).
Proof.
  intros st.
  destruct (set_changes_one_entry LObject 0
              (mkObject ∅ (Code VUndefined) VUndefined None None)
              (VString "x") VNull st eq_refl eq_refl)
    as (st' & o' & Hset & Ho' & _ & _ & _ & _ & _ & _ & _ & _ & _ & _ & Hget & _).
  exists st', o'. split; [exact Hset|]. split; [exact Ho'|].
  rewrite Hget; [reflexivity | left; discriminate].
Defined.

(** X3.  The order in which [get] resolves a key on an object that
    exists: the object's own data; then what the data map, a plain host
    object, inherits from the host (so [get(obj, 'toString')] hands out a
    function of the host); then the prototype table of the object's own
    constructor, whose method comes back wrapped in a new function object
    bound to the receiver; anything else is undefined.  [get] never fails
    on such an object, and the tables of the superclasses add nothing. *)
Theorem get_resolution_order :
  forall c a o key st,
    objects st !! a = Some o ->
    modelled_key (property_key key) = true ->
    get (VObject c a) key st =
      match data o !! property_key key with
      | Some v => Normal v st
      | None =>
          if inherited (property_key key) then Normal (VHostMember (property_key key)) st
          else match table_own (prototype c) (property_key key) with
               | Some m =>
                   Normal (VObject LFunction (length (objects st)))
                     (set_objects st
                        (objects st ++
                           [mkObject ∅ (Native (NBound m (VObject c a))) VNull None None]))
               | None => Normal VUndefined st
               end
      end.
Proof. intros. by apply get_existing. Qed.

Lemma get_resolution_order_witness :
  let st := snd (new_LArray empty_state) in
  get (VObject LArray 0) (VString "pop") st
    = Normal (VObject LFunction 1)
        (set_objects st
           (objects st ++
              [mkObject ∅ (Native (NBound pop (VObject LArray 0))) VNull None None])) /\
  get (VObject LArray 0) (VString "shift") st = Normal VUndefined st /\
  get (VObject LArray 0) (VString "valueOf") st = Normal (VHostMember "valueOf") st.
Proof.
  intros st.
  pose proof (get_resolution_order LArray 0
                (mkObject {[ "length"%string := VNumber (Int 0) ]} (Code VUndefined)
                          VUndefined None None)) as H.
  split; [|split].
  - apply (H (VString "pop") st); reflexivity.
  - apply (H (VString "shift") st); reflexivity.
  - apply (H (VString "valueOf") st); reflexivity.
Defined.

(** ** push and pop *)

Lemma exact_in_range n m :
  (- 2 ^ 53 <= n <= 2 ^ 53)%Z -> (- 2 ^ 53 <= m <= 2 ^ 53)%Z ->
  exact (Int n) && exact (Int m) = true.
Proof.
  intros Hn Hm. unfold exact.
  apply andb_true_intro; split; apply andb_true_intro; split; apply Z.leb_le; lia.
Qed.

(** What [push] does to an array whose [length] is the number [n]. *)
Lemma push_existing c a o n what st :
  objects st !! a = Some o ->
  data o !! "length"%string = Some (VNumber (Int n)) ->
  (- 2 ^ 53 <= n < 2 ^ 53)%Z ->
  LArrayPrototype.push (VObject c a) what st =
    Normal VUndefined
      (store_data a o
         (<["length"%string := VNumber (Int (n + 1))]>
            (<[num_to_string (Int n) := what]> (data o))) st).
Proof.
  intros Ho Hlen Hn.
  destruct (num_to_string_is_a_numeral (Int n)) as [Hne Hkey].
  unfold LArrayPrototype.push, self_data. rewrite Ho. cbn [bind fst snd].
  unfold data_get. rewrite Hlen. unfold property_key. cbn [js_String].
  rewrite Hkey. cbn [negb]. rewrite lookup_insert_ne by done. rewrite Hlen.
  unfold js_add. cbn [to_primitive js_Number num_add].
  by rewrite exact_in_range by lia.
Qed.

(** X4.  [push] on an array whose [length] is the number [n] stores the
    value under the numeral of [n] and makes the length [n + 1]: [get]
    finds the value at index [n] and the new length, answers as before
    for every other key, and no other object changes. *)
Theorem push_appends :
  forall c a o n what st,
    objects st !! a = Some o ->
    data o !! "length"%string = Some (VNumber (Int n)) ->
    (- 2 ^ 53 <= n < 2 ^ 53)%Z ->
    exists st',
      LArrayPrototype.push (VObject c a) what st = Normal VUndefined st' /\
      get (VObject c a) (VNumber (Int n)) st' = Normal what st' /\
      get (VObject c a) (VString "length") st' = Normal (VNumber (Int (n + 1))) st' /\
      (forall key,
         property_key key <> num_to_string (Int n) ->
         property_key key <> "length"%string ->
         result (get (VObject c a) key st') = result (get (VObject c a) key st)) /\
      (forall b, b <> a -> objects st' !! b = objects st !! b).
Proof.
  intros c a o n what st Ho Hlen Hn.
  destruct (num_to_string_is_a_numeral (Int n)) as [Hne Hkey].
  pose proof (lookup_lt_Some _ _ _ Ho) as Hlt.
  eexists. split; [by apply push_existing|].
  assert (Ho' : forall d, objects (store_data a o d st) !! a = Some (set_data o d)).
  { intros d. simpl. by apply list_lookup_insert_eq. }
  split; [|split; [|split]].
  - erewrite get_existing; [|apply Ho'|exact Hkey].
    cbn [data set_data property_key js_String].
    rewrite lookup_insert_ne by done. by rewrite lookup_insert_eq.
  - erewrite get_existing; [|apply Ho'|done].
    cbn [data set_data property_key js_String]. by rewrite lookup_insert_eq.
  - intros key Hk1 Hk2.
    destruct (modelled_key (property_key key)) eqn:Hk.
    + erewrite get_existing; [|apply Ho'|done].
      rewrite (get_existing c a o key st) by done.
      cbn [data set_data]. rewrite !lookup_insert_ne by done.
      unfold store_data. cbn [objects set_objects]. rewrite length_insert.
      by repeat case_match.
    + unfold get, defaultGet. rewrite Ho', Ho, the_string_toJString, Hk. done.
  - intros b Hb. simpl. by rewrite list_lookup_insert_ne.
Qed.

Lemma push_appends_witness :
  let st := snd (new_LArray empty_state) in
  exists st',
    LArrayPrototype.push (VObject LArray 0) (VString "x") st = Normal VUndefined st' /\
    get (VObject LArray 0) (VNumber (Int 0)) st' = Normal (VString "x") st' /\
    get (VObject LArray 0) (VString "length") st' = Normal (VNumber (Int 1)) st'.
Proof.
  intros st.
  destruct (push_appends LArray 0
              (mkObject {[ "length"%string := VNumber (Int 0) ]} (Code VUndefined)
                        VUndefined None None)
              0 (VString "x") st eq_refl eq_refl ltac:(lia))
    as (st' & Hpush & Hget & Hlen & _).
  exists st'. split; [exact Hpush|]. split; [exact Hget|exact Hlen].
Defined.

(** X5.  [pop] undoes [push]: when the entry under the numeral of the
    length is free, pushing a value and popping it again leaves the store
    exactly as it was. *)
Theorem pop_undoes_push :
  forall c a o n what st,
    objects st !! a = Some o ->
    data o !! "length"%string = Some (VNumber (Int n)) ->
    data o !! num_to_string (Int n) = None ->
    (- 2 ^ 53 <= n < 2 ^ 53)%Z ->
    exists st1,
      LArrayPrototype.push (VObject c a) what st = Normal VUndefined st1 /\
      LArrayPrototype.pop (VObject c a) st1 = Normal VUndefined st.
Proof.
  intros c a o n what st Ho Hlen Hfree Hn.
  destruct (num_to_string_is_a_numeral (Int n)) as [Hne Hkey].
  pose proof (lookup_lt_Some _ _ _ Ho) as Hlt.
  eexists. split; [by apply push_existing|].
  unfold LArrayPrototype.pop, self_data, store_data. cbn [objects set_objects].
  rewrite list_lookup_insert_eq by done. cbn [bind fst snd data set_data].
  unfold data_get. rewrite lookup_insert_eq.
  unfold js_sub. cbn [js_Number num_sub].
  replace (n + 1 - 1)%Z with n by lia.
  rewrite exact_in_range by lia.
  unfold property_key. cbn [js_String]. rewrite Hkey. cbn [negb].
  rewrite lookup_delete_ne by done. rewrite lookup_insert_eq.
  cbn [js_Number num_sub]. replace (n + 1 - 1)%Z with n by lia.
  rewrite exact_in_range by lia.
  f_equal. unfold set_objects, set_data.
  cbn [cells scopes objects frames host_values history
       data fn scopeVariables paramaterList argumentScope].
  rewrite list_insert_insert_eq.
  assert (insert "length"%string (VNumber (Int n))
            (delete (num_to_string (Int n))
               (insert "length"%string (VNumber (Int (n + 1)))
                  (insert (num_to_string (Int n)) what (data o)))) = data o) as Hd.
  { apply map_eq. intros i.
    destruct (decide (i = "length"%string)) as [->|Hi].
    - by rewrite lookup_insert_eq.
    - rewrite lookup_insert_ne by done.
      destruct (decide (i = num_to_string (Int n))) as [->|Hi'].
      + by rewrite lookup_delete_eq.
      + by rewrite lookup_delete_ne, !lookup_insert_ne. }
  rewrite Hd. destruct o; cbn. rewrite list_insert_id by done. by destruct st.
Qed.

Lemma pop_undoes_push_witness :
  let st := snd (new_LArray empty_state) in
  exists st1,
    LArrayPrototype.push (VObject LArray 0) (VString "x") st = Normal VUndefined st1 /\
    LArrayPrototype.pop (VObject LArray 0) st1 = Normal VUndefined st.
Proof.
  intros st.
  apply (pop_undoes_push LArray 0
           (mkObject {[ "length"%string := VNumber (Int 0) ]} (Code VUndefined)
                     VUndefined None None)
           0 (VString "x") st); [reflexivity | reflexivity | reflexivity | lia].
Defined.

(** ** toLObject *)

Lemma set_data_set_data o d d' : set_data (set_data o d) d' = set_data o d'.
Proof. done. Qed.

Lemma toLObject_loop_existing c a props :
  forall o st,
    objects st !! a = Some o ->
    Forall (fun kv => modelled_key (fst kv) = true) props ->
    toLObject_loop (VObject c a) props st =
      Normal VUndefined
        (set_objects st
           (<[a := set_data o (foldl (fun d kv => <[fst kv := snd kv]> d) (data o) props)]>
              (objects st))).
Proof.
  induction props as [|[key value] rest IH]; intros o st Ho Hkeys.
  - simpl. by rewrite set_data_same, list_insert_id, set_objects_same.
  - apply Forall_cons in Hkeys as [Hkey Hrest].
    cbn [toLObject_loop]. rewrite (set_existing c a o) by done.
    cbn [bind property_key js_String].
    erewrite IH; [|by apply list_lookup_insert_eq; eapply lookup_lt_Some|done].
    cbn [foldl fst snd data set_data objects set_objects].
    by rewrite list_insert_insert_eq.
Qed.

Lemma foldl_insert_absent (props : list (string * val)) :
  forall (d : gmap string val) k,
    ~ In k (map fst props) ->
    foldl (fun d kv => <[fst kv := snd kv]> d) d props !! k = d !! k.
Proof.
  induction props as [|[k0 v0] rest IH]; intros d k Hk; [done|].
  simpl in *. rewrite IH by tauto. apply lookup_insert_ne. tauto.
Qed.

Lemma foldl_insert_present (props : list (string * val)) :
  forall (d : gmap string val) k v,
    List.NoDup (map fst props) ->
    In (k, v) props ->
    foldl (fun d kv => <[fst kv := snd kv]> d) d props !! k = Some v.
Proof.
  induction props as [|[k0 v0] rest IH]; intros d k v Hnd Hin; [done|].
  simpl in *. apply NoDup_cons_iff in Hnd as [Hk0 Hnd].
  destruct Hin as [[= -> ->]|Hin].
  - rewrite foldl_insert_absent by done. apply lookup_insert_eq.
  - by apply IH.
Qed.

(** X6.  [toLObject] makes one new LObject and copies every property of
    the host object into it: afterwards [get] yields the property's value
    for each of its keys and undefined for every other key that the host
    does not answer to by itself; the objects that existed before, the
    cells and the scopes are untouched.  ([props] lists the enumerable
    properties of the host object, each key once.) *)
Theorem toLObject_holds_the_data :
  forall props st,
    List.NoDup (map fst props) ->
    Forall (fun kv => modelled_key (fst kv) = true) props ->
    exists st',
      toLObject props st = Normal (VObject LObject (length (objects st))) st' /\
      (forall k v, In (k, v) props ->
         get (VObject LObject (length (objects st))) (VString k) st' = Normal v st') /\
      (forall key,
         modelled_key (property_key key) = true ->
         ~ In (property_key key) (map fst props) ->
         inherited (property_key key) = false ->
         get (VObject LObject (length (objects st))) key st' = Normal VUndefined st') /\
      length (objects st') = S (length (objects st)) /\
      (forall b o, objects st !! b = Some o -> objects st' !! b = Some o) /\
      cells st' = cells st /\ scopes st' = scopes st.
Proof.
  intros props st Hnd Hkeys.
  unfold toLObject, new_LObject.
  erewrite toLObject_loop_existing; [|by apply list_lookup_middle|done].
  cbn [bind objects set_objects data].
  rewrite insert_app_r_alt by done. rewrite Nat.sub_diag. cbn [insert list_insert].
  eexists. split; [reflexivity|].
  assert (Hnew : forall st0 d,
            objects (set_objects st0 (objects st ++ [d])) !! length (objects st) = Some d).
  { intros st0 d. simpl. by apply list_lookup_middle. }
  split; [|split; [|split; [|split]]].
  - intros k v Hin.
    assert (modelled_key k = true) as Hk.
    { rewrite Forall_forall in Hkeys. apply (Hkeys (k, v)). by apply list_elem_of_In. }
    erewrite get_existing; [|apply Hnew|done].
    cbn [data set_data property_key js_String].
    by rewrite (foldl_insert_present props ∅ k v).
  - intros key Hk Hout Hin.
    erewrite get_existing; [|apply Hnew|done].
    cbn [data set_data]. rewrite foldl_insert_absent by done.
    rewrite lookup_empty, Hin. done.
  - simpl. rewrite length_app. simpl. lia.
  - intros b o Hb. simpl. rewrite lookup_app_l; [done|by eapply lookup_lt_Some].
  - done.
Qed.

Lemma toLObject_holds_the_data_witness :
  exists st',
    toLObject [("x", VNumber (Int 1)); ("y", VNull)]%string empty_state
      = Normal (VObject LObject 0) st' /\
    get (VObject LObject 0) (VString "y") st' = Normal VNull st' /\
    get (VObject LObject 0) (VString "z") st' = Normal VUndefined st'.
Proof.
  destruct (toLObject_holds_the_data
              [("x", VNumber (Int 1)); ("y", VNull)]%string empty_state)
    as (st' & Hnew & Hin & Hout & _).
  - constructor; [simpl; intros [H|[]]; discriminate H|].
    constructor; [simpl; tauto|]. constructor.
  - repeat (constructor; [reflexivity|]). constructor.
  - exists st'. split; [exact Hnew|]. split.
    + apply Hin. right. left. reflexivity.
    + apply (Hout (VString "z")); [reflexivity| |reflexivity].
      simpl. intros [H|[H|[]]]; discriminate H.
Defined.

(** ** Literals *)

(** X7.  A literal node evaluates, in any scope and without touching
    the store, to the wrapper of its payload, and converting the wrapper
    back gives the payload coerced to the wrapper's kind: a raw string,
    boolean or number comes back as itself. *)
Theorem literal_round_trip :
  forall fuel v variables st,
    evaluateExpression (S fuel) (VArray [VString C.STRING_PRIM; v]) variables st
      = Normal (toLString v) st /\
    toJString (toLString v) = VString (js_String v) /\
    evaluateExpression (S fuel) (VArray [VString C.BOOLEAN_PRIM; v]) variables st
      = Normal (toLBoolean v) st /\
    toJBoolean (toLBoolean v) = VBoolean (js_Boolean v) /\
    evaluateExpression (S fuel) (VArray [VString C.NUMBER_PRIM; v]) variables st
      = Normal (toLNumber v) st /\
    toJNumber (toLNumber v) = VNumber (js_Number v).
Proof.
  intros fuel v variables st. repeat split.
  simpl. by destruct (js_Boolean v).
Qed.

(** ** Defining a variable *)

Lemma scope_own_put sc name c k :
  scope_own (scope_put sc name c) k =
    if (name =? k)%string then Some c else scope_own sc k.
Proof.
  induction sc as [|[k' c'] sc IH]; simpl.
  - done.
  - destruct (String.eqb_spec k' name) as [->|Hne]; simpl.
    + by destruct (name =? k)%string.
    + rewrite IH. destruct (String.eqb_spec k' k) as [->|Hk]; [|done].
      destruct (String.eqb_spec name k) as [->|_]; done.
Qed.

(** What [scope_define] does in a scope that exists. *)
Lemma scope_define_existing s sc name value st :
  scopes st !! s = Some sc ->
  modelled_key name = true ->
  scope_define (VScope s) name value st =
    Normal VUndefined
      (set_scopes (set_cells st (cells st ++ [value]))
         (<[s := scope_put sc name (length (cells st))]> (scopes st))).
Proof. intros Hs Hk. unfold scope_define. by rewrite Hs, Hk. Qed.

(** X8.  A definition [name => value] always makes a new Variable:
    afterwards the name reads as the value in the scope of the definition,
    the store has one more cell and the same objects, and every other
    binding, in this scope or any other, still reads what it read before,
    also one that shared the name's previous cell. *)
Theorem define_then_read :
  forall fuel name valueExpression s sc value st st1,
    evaluateExpression fuel valueExpression (VScope s) st = Normal value st1 ->
    scopes st1 !! s = Some sc ->
    modelled_key name = true ->
    exists st2,
      evaluateExpression (S fuel) (VariableAssign name valueExpression) (VScope s) st
        = Normal VUndefined st2 /\
      (forall fuel',
         evaluateExpression (S fuel') (VariableIdentifier name) (VScope s) st2
           = Normal value st2) /\
      cells st2 = cells st1 ++ [value] /\
      objects st2 = objects st1 /\
      (forall fuel' other s' sc' c old,
         scopes st1 !! s' = Some sc' ->
         s' <> s \/ other <> name ->
         modelled_key other = true ->
         scope_own sc' other = Some c ->
         cells st1 !! c = Some old ->
         evaluateExpression (S fuel') (VariableIdentifier other) (VScope s') st2
           = Normal old st2).
Proof.
  intros fuel name valueExpression s sc value st st1 Hv Hs Hk.
  pose proof (lookup_lt_Some _ _ _ Hs) as Hlt.
  eexists. split.
  { cbn -[scope_define]. unfold property_key. cbn [js_String]. rewrite Hv.
    cbn [bind]. by apply scope_define_existing. }
  split; [|split; [done|split; [done|]]].
  - intros fuel'.
    eapply read_of_bound_name; [|done| |].
    + simpl. by apply list_lookup_insert_eq.
    + rewrite scope_own_put. by rewrite String.eqb_refl.
    + simpl. by apply list_lookup_middle.
  - intros fuel' other s' sc' c old Hs' Hother Hk' Hown Hc.
    assert (Hcell : (cells st1 ++ [value]) !! c = Some old).
    { by apply lookup_app_l_Some. }
    destruct (decide (s' = s)) as [->|Hne].
    + destruct Hother as [?|Hname]; [done|].
      assert (sc' = sc) as -> by congruence.
      eapply read_of_bound_name; [|done| |exact Hcell].
      * simpl. by apply list_lookup_insert_eq.
      * rewrite scope_own_put.
        destruct (String.eqb_spec name other) as [->|_]; done.
    + eapply read_of_bound_name; [|done|exact Hown|exact Hcell].
      simpl. by rewrite list_lookup_insert_ne.
Qed.

Lemma define_then_read_witness :
  let st := program (language_function [] VNull []) in
  exists st2,
    evaluateExpression 2 (VariableAssign "a" (StringLiteral "x")) (VScope 0) st
      = Normal VUndefined st2 /\
    evaluateExpression 1 (VariableIdentifier "a") (VScope 0) st2
      = Normal (VStringPrim (VString "x")) st2 /\
    evaluateExpression 1 (VariableIdentifier "f") (VScope 0) st2
      = Normal (VObject LFunction 0) st2.
Proof.
  intros st.
  destruct (define_then_read 1 "a" (StringLiteral "x") 0 [("f", 0); ("a", 1)]%string
              (VStringPrim (VString "x")) st st eq_refl eq_refl eq_refl)
    as (st2 & Hdef & Hread & _ & _ & Hother).
  exists st2. split; [exact Hdef|]. split; [apply Hread|].
  apply (Hother 0 "f"%string 0 [("f", 0); ("a", 1)]%string 0 (VObject LFunction 0));
    [reflexivity | right; discriminate | reflexivity | reflexivity | reflexivity].
Defined.

(** ** Nodes the evaluator does not know *)

(** X9.  Anything that is not undefined or null, is not an array of
    arrays and whose first element is none of the eleven node kinds is
    rejected with InvalidExpressionType carrying the expression itself,
    and the store is left as it was. *)
Theorem unknown_node_is_rejected :
  forall fuel expression tag variables st,
    index expression 0 = Some tag ->
    is_array_of_arrays expression = false ->
    (forall kind, In kind node_kinds -> is_tag tag kind = false) ->
    evaluateExpression (S fuel) expression variables st
      = Throw (InvalidExpressionType expression) st.
Proof.
  intros fuel expression tag variables st Htag Harr Hkind.
  cbn [evaluateExpression]. unfold evaluateExpression_body.
  rewrite Htag, Harr.
  rewrite !Hkind by (unfold node_kinds; simpl; tauto).
  reflexivity.
Qed.

Lemma unknown_node_is_rejected_witness :
  evaluateExpression 1 (VArray [VString "WHILE_LOOP"; VArray []]) VUndefined empty_state
    = Throw (InvalidExpressionType (VArray [VString "WHILE_LOOP"; VArray []])) empty_state /\
  evaluateExpression 1 (VNumber (Int 5)) VUndefined empty_state
    = Throw (InvalidExpressionType (VNumber (Int 5))) empty_state.
Proof.
  split.
  - apply (unknown_node_is_rejected 0 _ (VString "WHILE_LOOP")); [reflexivity|reflexivity|].
    intros kind Hin. simpl in Hin. decompose [or] Hin; subst; try reflexivity. contradiction.
  - apply (unknown_node_is_rejected 0 _ VUndefined); [reflexivity|reflexivity|].
    reflexivity.
Defined.

(** ** Sequences *)

Lemma evaluateExpression_sequence fuel l variables st :
  forallb is_array l = true ->
  evaluateExpression (S fuel) (VArray l) variables st =
    let* (ys, st) := map_eval (fun e => evaluateExpression fuel e variables) l st in
    Normal (VArray ys) st.
Proof.
  intros Harr. cbn [evaluateExpression]. unfold evaluateExpression_body.
  cbn [index is_array_of_arrays]. rewrite Harr.
  assert (is_tag (nth 0 l VUndefined) C.COMMENT = false) as ->.
  { destruct l as [|[] ?]; done. }
  reflexivity.
Qed.

Lemma map_eval_failure interp variables l1 e l2 :
  forall st rs st1 x st2,
    evaluated_in_sequence interp variables l1 st rs st1 ->
    interp e variables st1 = Throw x st2 ->
    map_eval (fun e => interp e variables) (l1 ++ e :: l2) st = Throw x st2.
Proof.
  induction l1 as [|e1 l1 IH]; intros st rs st1 x st2 Hseq He.
  - inversion Hseq; subst. simpl. by rewrite He.
  - inversion Hseq as [|? ? ? r st' rs' ? He1 Hrest]; subst.
    simpl. rewrite He1. simpl. by erewrite IH.
Qed.

(** X10.  An array of arrays is a sequence: it evaluates to the array of
    its elements' values exactly when the elements evaluate one after the
    other, each in the store its predecessor left; and when an element
    throws, the sequence throws the same exception in the same store and
    the elements after it are not evaluated. *)
Theorem sequence_is_evaluated_in_order :
  forall fuel l variables st,
    forallb is_array l = true ->
    (forall r st',
       evaluateExpression (S fuel) (VArray l) variables st = Normal r st' <->
       exists rs,
         r = VArray rs /\
         evaluated_in_sequence (evaluateExpression fuel) variables l st rs st') /\
    (forall l1 e l2 rs st1 x st2,
       l = l1 ++ e :: l2 ->
       evaluated_in_sequence (evaluateExpression fuel) variables l1 st rs st1 ->
       evaluateExpression fuel e variables st1 = Throw x st2 ->
       evaluateExpression (S fuel) (VArray l) variables st = Throw x st2).
Proof.
  intros fuel l variables st Harr. split.
  - intros r st'. rewrite evaluateExpression_sequence by done. split.
    + intros H. apply bind_Normal in H as (rs & st1 & Hmap & [= <- <-]).
      exists rs. split; [done|]. by apply map_eval_in_sequence.
    + intros (rs & -> & Hseq). apply map_eval_in_sequence in Hseq.
      by rewrite Hseq.
  - intros l1 e l2 rs st1 x st2 -> Hseq He.
    rewrite evaluateExpression_sequence by done.
    by erewrite map_eval_failure.
Qed.

Lemma sequence_is_evaluated_in_order_witness :
  let st := program (language_function [] VNull []) in
  evaluateExpression 3
    (VArray [VariableIdentifier "a"; VariableIdentifier "missing"; VariableIdentifier "f"])
    (VScope 0) st
  = Throw (ThrownString "Variable missing not in [f,a]") st.
Proof.
  intros st.
  destruct (sequence_is_evaluated_in_order 2
              [VariableIdentifier "a"; VariableIdentifier "missing"; VariableIdentifier "f"]
              (VScope 0) st eq_refl) as [_ Hfail].
  apply (Hfail [VariableIdentifier "a"] (VariableIdentifier "missing")
               [VariableIdentifier "f"] [VObject LArray 1] st); [reflexivity| |reflexivity].
  econstructor; [reflexivity|constructor].
Defined.

(** ** Failing operands *)

(** X11.  The evaluator catches nothing: when an operand throws, the
    definition, change, property read, property write or call it belongs
    to throws the same exception and leaves the store the operand left; in
    particular the variable is not defined and the property is not
    written. *)
Theorem failure_of_an_operand_propagates :
  forall fuel e variables st x st1,
    evaluateExpression fuel e variables st = Throw x st1 ->
    (forall name,
       evaluateExpression (S fuel) (VariableAssign name e) variables st = Throw x st1) /\
    (forall name,
       evaluateExpression (S fuel) (VariableChange name e) variables st = Throw x st1) /\
    (forall key,
       evaluateExpression (S fuel) (GetProp e key) variables st = Throw x st1) /\
    (forall key valueExpression,
       evaluateExpression (S fuel) (SetProp e key valueExpression) variables st
         = Throw x st1) /\
    (forall argExpressions,
       evaluateExpression (S fuel) (FunctionCall e argExpressions) variables st
         = Throw x st1) /\
    (forall objExpression obj st0 key,
       evaluateExpression fuel objExpression variables st0 = Normal obj st ->
       evaluateExpression (S fuel) (SetProp objExpression key e) variables st0
         = Throw x st1).
Proof.
  intros fuel e variables st x st1 He.
  repeat split; intros; cbn -[scope_define get set call];
    rewrite ?H; cbn [bind]; by rewrite He.
Qed.

Lemma failure_of_an_operand_propagates_witness :
  let st := program (language_function [] VNull []) in
  evaluateExpression 2 (VariableAssign "b" (VariableIdentifier "missing")) (VScope 0) st
    = Throw (ThrownString "Variable missing not in [f,a]") st.
Proof.
  intros st.
  apply (failure_of_an_operand_propagates 1 (VariableIdentifier "missing") (VScope 0) st).
  reflexivity.
Defined.

(** ** evaluateGetPropUsingIdentifier *)

(** X12.  [evaluateGetPropUsingIdentifier] does what the evaluator's
    own branch for a property read does, whatever the node's first
    element is: it evaluates the object expression and hands the result
    and the key to [get]. *)
Theorem evaluateGetPropUsingIdentifier_is_the_get_branch :
  forall fuel variables tag objExpr key rest st,
    evaluateGetPropUsingIdentifier fuel variables (VArray (tag :: objExpr :: key :: rest)) st
      = evaluateExpression (S fuel)
          (VArray [VString C.GET_PROP_USING_IDENTIFIER; objExpr; key]) variables st /\
    (forall obj st1,
       evaluateExpression fuel objExpr variables st = Normal obj st1 ->
       evaluateGetPropUsingIdentifier fuel variables
         (VArray (tag :: objExpr :: key :: rest)) st = get obj key st1).
Proof.
  intros. split; [reflexivity|].
  intros obj st1 Hobj. unfold evaluateGetPropUsingIdentifier. cbn [idx index nth].
  by rewrite Hobj.
Qed.

(** ** LEnvironment *)

(** X13.  LEnvironment over a scope that exists: [__get__] after
    [__set__] yields the value written, and the evaluator reads the same
    value under that name in the scope. *)
Theorem LEnvironment_get_after_set :
  forall s sc variableName value st,
    scopes st !! s = Some sc ->
    modelled_key (property_key variableName) = true ->
    exists st',
      LEnvironment.__set__ (VScope s) variableName value st = Normal VUndefined st' /\
      LEnvironment.__get__ (VScope s) variableName st' = Normal value st' /\
      (forall fuel,
         evaluateExpression (S fuel) (VArray [VString C.VARIABLE_IDENTIFIER; variableName])
                            (VScope s) st' = Normal value st').
Proof.
  intros s sc variableName value st Hs Hk.
  pose proof (lookup_lt_Some _ _ _ Hs) as Hlt.
  eexists. split; [by apply scope_define_existing|].
  assert (forall A (k : nat -> outcome A) (k' : outcome A),
            match scope_own (scope_put sc (property_key variableName) (length (cells st)))
                            (property_key variableName) with
            | Some c => k c
            | None => k'
            end = k (length (cells st))) as Hown.
  { intros A k k'. by rewrite scope_own_put, String.eqb_refl. }
  split.
  - unfold LEnvironment.__get__. cbn [scopes set_scopes set_cells cells].
    rewrite list_lookup_insert_eq by done. rewrite Hk. cbn [negb].
    rewrite Hown. by rewrite list_lookup_middle.
  - intros fuel. cbn [evaluateExpression]. unfold evaluateExpression_body.
    cbn [index nth idx is_tag is_array_of_arrays forallb is_array andb
         String.eqb Ascii.eqb Bool.eqb C.COMMENT C.FUNCTION_CALL C.VARIABLE_IDENTIFIER].
    cbn [scopes set_scopes set_cells cells].
    rewrite list_lookup_insert_eq by done. rewrite Hk. cbn [negb].
    unfold scope_in. rewrite scope_own_put, String.eqb_refl.
    rewrite bool_decide_true by eauto. cbn [orb].
    by rewrite list_lookup_middle.
Qed.

Lemma LEnvironment_get_after_set_witness :
  let st := program (language_function [] VNull []) in
  exists st',
    LEnvironment.__set__ (VScope 0) (VString "b") VNull st = Normal VUndefined st' /\
    LEnvironment.__get__ (VScope 0) (VString "b") st' = Normal VNull st'.
Proof.
  intros st.
  destruct (LEnvironment_get_after_set 0 [("f", 0); ("a", 1)]%string (VString "b") VNull st
              eq_refl eq_refl) as (st' & Hset & Hget & _).
  exists st'. split; [exact Hset|exact Hget].
Defined.

(** X14.  LEnvironment's [__get__] and the evaluator's variable read
    agree on every name the scope owns or inherits; on any other name
    [__get__] fails with the host's TypeError for [undefined.value],
    while the evaluator throws its own error, whose text contains the
    name. *)
Theorem LEnvironment_get_against_the_evaluator :
  forall fuel s sc variableName st,
    scopes st !! s = Some sc ->
    modelled_key (property_key variableName) = true ->
    let read := evaluateExpression (S fuel)
                  (VArray [VString C.VARIABLE_IDENTIFIER; variableName]) (VScope s) st in
    let env := LEnvironment.__get__ (VScope s) variableName st in
    (scope_in sc (property_key variableName) = true -> env = read) /\
    (scope_in sc (property_key variableName) = false ->
       env = Throw (TypeError (CannotReadProperty "value" VUndefined)) st /\
       exists message,
         read = Throw (ThrownString message) st /\
         contains (js_String variableName) message = true).
Proof.
  intros fuel s sc variableName st Hs Hk read env.
  assert (Hread : read =
    if scope_in sc (property_key variableName) then
      match scope_own sc (property_key variableName) with
      | Some c =>
          match cells st !! c with
          | Some value => Normal value st
          | None => Abort OutsideModel
          end
      | None => Normal (host_value st (property_key variableName)) st
      end
    else
      Throw (ThrownString
               ("Variable " ++ js_String variableName ++ " not in ["
                ++ js_String (VArray (Object_keys sc)) ++ "]")) st).
  { unfold read. cbn [evaluateExpression]. unfold evaluateExpression_body.
    cbn [index nth idx is_tag is_array_of_arrays forallb is_array andb
         String.eqb Ascii.eqb Bool.eqb C.COMMENT C.FUNCTION_CALL C.VARIABLE_IDENTIFIER].
    by rewrite Hs, Hk. }
  assert (Henv : env =
    match scope_own sc (property_key variableName) with
    | Some c =>
        match cells st !! c with
        | Some value => Normal value st
        | None => Abort OutsideModel
        end
    | None =>
        if inherited (property_key variableName)
        then Normal (host_value st (property_key variableName)) st
        else Throw (TypeError (CannotReadProperty "value" VUndefined)) st
    end).
  { unfold env, LEnvironment.__get__. by rewrite Hs, Hk. }
  rewrite Hread, Henv. unfold scope_in. split.
  - intros Hin. rewrite Hin.
    destruct (scope_own sc _) as [c|]; [done|].
    rewrite bool_decide_false in Hin by (by intros [? ?]). cbn [orb] in Hin. by rewrite Hin.
  - intros Hin. rewrite Hin. apply orb_false_elim in Hin as [Hown Hinh].
    destruct (scope_own sc _) as [c|].
    { by rewrite bool_decide_true in Hown by eauto. }
    rewrite Hinh. split; [done|]. eexists. split; [reflexivity|].
    apply (contains_append "Variable ").
Qed.

Lemma LEnvironment_get_against_the_evaluator_witness :
  let st := program (language_function [] VNull []) in
  LEnvironment.__get__ (VScope 0) (VString "a") st
    = evaluateExpression 1 (VariableIdentifier "a") (VScope 0) st /\
  LEnvironment.__get__ (VScope 0) (VString "missing") st
    = Throw (TypeError (CannotReadProperty "value" VUndefined)) st.
Proof.
  intros st. split.
  - apply (LEnvironment_get_against_the_evaluator 0 0 [("f", 0); ("a", 1)]%string
             (VString "a") st eq_refl eq_refl). reflexivity.
  - apply (LEnvironment_get_against_the_evaluator 0 0 [("f", 0); ("a", 1)]%string
             (VString "missing") st eq_refl eq_refl). reflexivity.
Defined.

(** ** What a run keeps *)

Lemma objects_kept_refl l : objects_kept l l.
Proof. split; [eauto|]. intros a o' H1 H2. congruence. Qed.

Lemma objects_kept_trans l1 l2 l3 :
  objects_kept l1 l2 -> objects_kept l2 l3 -> objects_kept l1 l3.
Proof.
  intros [K1 N1] [K2 N2]. split.
  - intros a o Ho. destruct (K1 _ _ Ho) as (o1 & Ho1 & Hf1 & Ha1).
    destruct (K2 _ _ Ho1) as (o2 & Ho2 & Hf2 & Ha2).
    exists o2. split; [done|]. split; congruence.
  - intros a o3 Ho3 Hnone. destruct (l2 !! a) as [o2|] eqn:Ho2.
    + destruct (K2 _ _ Ho2) as (o3' & Ho3' & _ & Ha).
      assert (o3' = o3) as -> by congruence. rewrite Ha. by eapply N1.
    + by eapply N2.
Qed.

Lemma objects_kept_insert l a o o' :
  l !! a = Some o -> fn o' = fn o -> argumentScope o' = argumentScope o ->
  objects_kept l (<[a := o']> l).
Proof.
  intros Ho Hf Ha. split.
  - intros b ob Hb. destruct (decide (b = a)) as [->|Hne].
    + exists o'. rewrite list_lookup_insert_eq by (by eapply lookup_lt_Some).
      assert (ob = o) as -> by congruence. done.
    + exists ob. by rewrite list_lookup_insert_ne.
  - intros b ob Hb Hnone. destruct (decide (b = a)) as [->|Hne]; [congruence|].
    rewrite list_lookup_insert_ne in Hb by done. congruence.
Qed.

Lemma objects_kept_app l o : argumentScope o = None -> objects_kept l (l ++ [o]).
Proof.
  intros Ha. split.
  - intros b ob Hb. exists ob. split; [|done].
    rewrite lookup_app_l; [done|by eapply lookup_lt_Some].
  - intros b ob Hb Hnone. apply lookup_ge_None in Hnone.
    rewrite lookup_app_r in Hb by done.
    destruct (b - length l); simpl in Hb; [congruence|done].
Qed.

Lemma scopes_kept_refl l : scopes_kept l l.
Proof. split; [done|]. eauto. Qed.

Lemma scopes_kept_trans l1 l2 l3 :
  scopes_kept l1 l2 -> scopes_kept l2 l3 -> scopes_kept l1 l3.
Proof.
  intros [L1 K1] [L2 K2]. split; [lia|].
  intros s sc Hs. destruct (K1 _ _ Hs) as (sc1 & Hs1 & Hn1).
  destruct (K2 _ _ Hs1) as (sc2 & Hs2 & Hn2). eauto.
Qed.

Lemma scopes_kept_insert l s sc name c :
  l !! s = Some sc -> scopes_kept l (<[s := scope_put sc name c]> l).
Proof.
  intros Hs. split; [by rewrite length_insert|].
  intros s' sc' Hs'. destruct (decide (s' = s)) as [->|Hne].
  - exists (scope_put sc name c).
    rewrite list_lookup_insert_eq by (by eapply lookup_lt_Some).
    assert (sc' = sc) as -> by congruence. split; [done|].
    intros k Hk. rewrite scope_own_put. by destruct (name =? k)%string.
  - exists sc'. by rewrite list_lookup_insert_ne.
Qed.

Lemma scopes_kept_app l sc : scopes_kept l (l ++ [sc]).
Proof.
  split; [rewrite length_app; lia|].
  intros s' sc' Hs'. exists sc'. split; [|done].
  rewrite lookup_app_l; [done|by eapply lookup_lt_Some].
Qed.

Lemma grows_refl st : grows st st.
Proof.
  split; [done|]. split; [done|].
  split; [apply objects_kept_refl|apply scopes_kept_refl].
Qed.

Lemma grows_trans st1 st2 st3 : grows st1 st2 -> grows st2 st3 -> grows st1 st3.
Proof.
  intros (C1 & F1 & O1 & S1) (C2 & F2 & O2 & S2).
  split; [lia|]. split; [lia|].
  split; [by eapply objects_kept_trans|by eapply scopes_kept_trans].
Qed.

Lemma argument_scope_true st s :
  argument_scope st s = true <->
  exists a o, objects st !! a = Some o /\ argumentScope o = Some (VScope s).
Proof.
  unfold argument_scope. rewrite existsb_exists. split.
  - intros (o & Hin & Hs). apply list_elem_of_In, list_elem_of_lookup in Hin as [a Ha].
    exists a, o. split; [done|]. unfold names_scope in Hs.
    destruct (argumentScope o) as [[]|]; try done.
    by apply Nat.eqb_eq in Hs as ->.
  - intros (a & o & Ha & Hs). exists o. split.
    + apply list_elem_of_In. by eapply list_elem_of_lookup_2.
    + unfold names_scope. rewrite Hs. apply Nat.eqb_refl.
Qed.

(** Nothing ever becomes an argument scope. *)
Lemma argument_scope_grows st st' s :
  grows st st' -> argument_scope st' s = true -> argument_scope st s = true.
Proof.
  rewrite !argument_scope_true.
  intros (_ & _ & [K N] & _) (a & o' & Ho' & Harg).
  destruct (objects st !! a) as [o|] eqn:Ho.
  - destruct (K _ _ Ho) as (o'' & Ho'' & _ & Ha).
    assert (o'' = o') as -> by congruence. exists a, o. split; congruence.
  - rewrite (N _ _ Ho' Ho) in Harg. discriminate.
Qed.

Lemma argument_scope_false st st' s :
  grows st st' -> argument_scope st s = false -> argument_scope st' s = false.
Proof.
  intros G Hs. destruct (argument_scope st' s) eqn:Hs'; [|done].
  apply (argument_scope_grows st st' s G) in Hs'. congruence.
Qed.

Lemma keeps_refl variables st : keeps variables st st.
Proof. split; [apply grows_refl|done]. Qed.

Lemma keeps_step variables scope st st1 st2 :
  keeps variables st st1 -> allowed st variables scope -> keeps scope st1 st2 ->
  keeps variables st st2.
Proof.
  intros [G1 F1] Hallowed [G2 F2]. split; [by eapply grows_trans|].
  intros s sc Hs Hnw. apply F2; [by apply F1|].
  intros [Hscope|[Hlen|Harg]].
  - apply Hnw. by apply Hallowed.
  - specialize (F1 _ _ Hs Hnw). apply lookup_lt_Some in F1. lia.
  - apply Hnw. right; right. by eapply argument_scope_grows.
Qed.

(** A step that leaves every scope object as it was. *)
Lemma keeps_quiet variables st st' :
  grows st st' ->
  (forall s sc, scopes st !! s = Some sc -> scopes st' !! s = Some sc) ->
  keeps variables st st'.
Proof. intros G F. split; [done|]. eauto. Qed.

Lemma allowed_same st variables : allowed st variables variables.
Proof. intros s ->. by left. Qed.

Lemma allowed_new st0 variables st :
  keeps variables st0 st -> allowed st0 variables (VScope (length (scopes st))).
Proof.
  intros [(_ & _ & _ & [L _]) _] s [= <-]. right; left. done.
Qed.

Lemma allowed_argumentScope st0 variables st fnToken :
  keeps variables st0 st -> allowed st0 variables (argumentScope_of fnToken st).
Proof.
  intros [G _] s Hs. right; right. eapply argument_scope_grows; [done|].
  apply argument_scope_true. unfold argumentScope_of in Hs.
  destruct (objects st !! fnToken) as [o|] eqn:Ho; [|done].
  destruct (argumentScope o) as [v|] eqn:Ha; [|done].
  exists fnToken, o. by subst.
Qed.

Lemma outcome_keeps_from {A : Type} variables scope st0 st (o : outcome A) :
  outcome_keeps scope st o -> keeps variables st0 st -> allowed st0 variables scope ->
  outcome_keeps variables st0 o.
Proof.
  intros Ho Hst Hallowed. destruct o; simpl in *; [..|done]; by eapply keeps_step.
Qed.

Lemma continues_isolated {A : Type} variables scope st0 (m : state -> outcome A) :
  isolated scope m -> allowed st0 variables scope -> continues variables st0 m.
Proof. intros Hm Hallowed st Hst. by eapply outcome_keeps_from. Qed.

Lemma continues_bind {A B : Type} variables st0
  (m : state -> outcome A) (k : A -> state -> outcome B) :
  continues variables st0 m -> (forall a, continues variables st0 (k a)) ->
  continues variables st0 (fun st => bind (m st) k).
Proof.
  intros Hm Hk st Hst. specialize (Hm st Hst). unfold bind.
  destruct (m st) as [a st1|e st1|r]; simpl in *; [|done..].
  by apply Hk.
Qed.

Lemma outcome_keeps_bind {A B : Type} variables st0
  (m : outcome A) (k : A -> state -> outcome B) :
  outcome_keeps variables st0 m -> (forall a, continues variables st0 (k a)) ->
  outcome_keeps variables st0 (bind m k).
Proof.
  intros Hm Hk. unfold bind.
  destruct m as [a st1|e st1|r]; simpl in *; [|done..]. by apply Hk.
Qed.

Lemma continues_Normal {A : Type} variables st0 (a : A) :
  continues variables st0 (Normal a).
Proof. by intros st Hst. Qed.

Lemma continues_Throw {A : Type} variables st0 e :
  continues variables st0 (Throw (A := A) e).
Proof. by intros st Hst. Qed.

(** *** The steps of lib.js *)

Lemma keeps_set_objects variables st l' :
  objects_kept (objects st) l' -> keeps variables st (set_objects st l').
Proof.
  intros Hl. apply keeps_quiet; [|done].
  split; [done|]. split; [done|]. split; [done|apply scopes_kept_refl].
Qed.

Lemma keeps_set_cells variables st c' :
  length (cells st) <= length c' -> keeps variables st (set_cells st c').
Proof.
  intros Hl. apply keeps_quiet; [|done].
  split; [done|]. split; [done|]. split; [apply objects_kept_refl|apply scopes_kept_refl].
Qed.

Lemma keeps_set_host_values variables st h : keeps variables st (set_host_values st h).
Proof.
  apply keeps_quiet; [|done].
  split; [done|]. split; [done|]. split; [apply objects_kept_refl|apply scopes_kept_refl].
Qed.

Lemma keeps_frames variables st f' h' :
  length (frames st) <= length f' ->
  keeps variables st (mkState (cells st) (scopes st) (objects st) f' (host_values st) h').
Proof.
  intros Hl. apply keeps_quiet; [|done].
  split; [done|]. split; [done|]. split; [apply objects_kept_refl|apply scopes_kept_refl].
Qed.

Lemma keeps_new_scope variables st sc :
  keeps variables st (set_scopes st (scopes st ++ [sc])).
Proof.
  apply keeps_quiet.
  - split; [done|]. split; [done|]. split; [apply objects_kept_refl|apply scopes_kept_app].
  - intros s sc' Hs. simpl. rewrite lookup_app_l; [done|by eapply lookup_lt_Some].
Qed.

Lemma keeps_new_LFunction variables f st :
  keeps variables st (snd (new_LFunction f st)).
Proof. apply keeps_set_objects. by apply objects_kept_app. Qed.

Lemma isolated_has variables obj key : isolated variables (has obj key).
Proof. intros st. unfold has. repeat case_match; simpl; try done; apply keeps_refl. Qed.

Lemma isolated_defaultGet variables obj key : isolated variables (defaultGet obj key).
Proof.
  intros st. unfold defaultGet, new_LFunction.
  repeat case_match; simplify_eq; simpl; try done; try apply keeps_refl.
  apply keeps_set_objects. by apply objects_kept_app.
Qed.

Lemma isolated_get variables obj key : isolated variables (get obj key).
Proof.
  intros st. unfold get.
  destruct obj; first [apply isolated_defaultGet | simpl; apply keeps_refl].
Qed.

Lemma isolated_defaultSet variables obj key value :
  isolated variables (defaultSet obj key value).
Proof.
  intros st. unfold defaultSet. repeat case_match; simpl; try done.
  apply keeps_set_objects. by eapply objects_kept_insert.
Qed.

Lemma isolated_set variables obj key value : isolated variables (set obj key value).
Proof.
  intros st. unfold set.
  destruct obj; first [apply isolated_defaultSet | simpl; apply keeps_refl].
Qed.

Lemma keeps_store_data variables a o d st :
  objects st !! a = Some o -> keeps variables st (store_data a o d st).
Proof. intros Ho. apply keeps_set_objects. by eapply objects_kept_insert. Qed.

Lemma self_data_Normal self st a o st' :
  self_data self st = Normal (a, o) st' -> st' = st /\ objects st !! a = Some o.
Proof. unfold self_data. repeat case_match; intros [=]; by simplify_eq. Qed.

Lemma isolated_push variables self what : isolated variables (LArrayPrototype.push self what).
Proof.
  intros st. unfold LArrayPrototype.push.
  destruct (self_data self st) as [[a o] st1|e st1|r] eqn:Hself; simpl; [| |done].
  - apply self_data_Normal in Hself as [-> Ho].
    repeat case_match; simpl; try done. by apply keeps_store_data.
  - unfold self_data in Hself. repeat case_match; simplify_eq; apply keeps_refl.
Qed.

Lemma isolated_pop variables self : isolated variables (LArrayPrototype.pop self).
Proof.
  intros st. unfold LArrayPrototype.pop.
  destruct (self_data self st) as [[a o] st1|e st1|r] eqn:Hself; simpl; [| |done].
  - apply self_data_Normal in Hself as [-> Ho].
    repeat case_match; simpl; try done. by apply keeps_store_data.
  - unfold self_data in Hself. repeat case_match; simplify_eq; apply keeps_refl.
Qed.

Lemma isolated_debug variables self : isolated variables (LFunctionPrototype.debug self).
Proof.
  intros st. unfold LFunctionPrototype.debug.
  repeat case_match; simpl; try done; apply keeps_refl.
Qed.

Lemma isolated_apply_method variables value arguments :
  isolated variables (apply_method value arguments).
Proof.
  destruct value; simpl; [apply isolated_push | apply isolated_pop | apply isolated_debug].
Qed.

Lemma isolated_Object_assign_empty variables source :
  isolated variables (Object_assign_empty source).
Proof.
  intros st. unfold Object_assign_empty.
  repeat case_match; simpl; try done; apply keeps_new_scope.
Qed.

Lemma Object_assign_empty_new source st scope st1 :
  Object_assign_empty source st = Normal scope st1 -> scope = VScope (length (scopes st)).
Proof. unfold Object_assign_empty. repeat case_match; intros [= <- <-]; done. Qed.

(** Defining a variable writes to the scope it is defined in. *)
Lemma isolated_scope_define variables name value :
  isolated variables (scope_define variables name value).
Proof.
  intros st. unfold scope_define, new_Variable.
  repeat case_match; simplify_eq; simpl; try done; try apply keeps_refl.
  split.
  - split; [simpl; rewrite length_app; lia|]. split; [done|].
    split; [apply objects_kept_refl|]. simpl. by apply scopes_kept_insert.
  - intros s' sc' Hs' Hnw. simpl. rewrite list_lookup_insert_ne; [done|].
    intros <-. apply Hnw. by left.
Qed.

Lemma continues_map_eval variables st0 (f : val -> state -> outcome val) l :
  (forall x, continues variables st0 (f x)) -> continues variables st0 (map_eval f l).
Proof.
  intros Hf. induction l as [|x l IH]; simpl; [apply continues_Normal|].
  apply continues_bind; [apply Hf|]. intros y.
  apply continues_bind; [apply IH|]. intros ys. apply continues_Normal.
Qed.

Lemma continues_array_map variables st0 what (f : val -> state -> outcome val) a :
  (forall x, continues variables st0 (f x)) -> continues variables st0 (array_map what f a).
Proof.
  intros Hf. unfold array_map. destruct a; try apply continues_Throw.
  apply continues_bind; [by apply continues_map_eval|].
  intros ys. apply continues_Normal.
Qed.

Section IsolatedInterp.

Variable interp : evaluator.
Hypothesis isolated_interp : forall e v, isolated v (interp e v).

Lemma continues_interp variables st0 e scope :
  allowed st0 variables scope -> continues variables st0 (interp e scope).
Proof. intros H. eapply continues_isolated; [apply isolated_interp|done]. Qed.

Lemma continues_evaluateEachExpression variables st0 scope expressions :
  allowed st0 variables scope ->
  continues variables st0 (evaluateEachExpression interp scope expressions).
Proof. intros H. apply continues_array_map. intros x. by apply continues_interp. Qed.

Lemma continues_call_native variables st0 f arguments :
  continues variables st0 (call_native interp f arguments).
Proof.
  intros st Hst. destruct f as [r|value fnToken|value obj]; simpl.
  - destruct (sliced_first _); [|done].
    case_bool_decide; simpl; [|done].
    eapply keeps_step; [exact Hst|apply allowed_same|].
    apply keeps_frames. by rewrite length_insert.
  - eapply outcome_keeps_from; [apply isolated_interp|done|].
    by apply allowed_argumentScope.
  - eapply outcome_keeps_from; [apply isolated_apply_method|done|apply allowed_same].
Qed.

Lemma continues_bind_paramater variables st0 fnToken args scope i paramater :
  allowed st0 variables scope ->
  continues variables st0 (bind_paramater interp fnToken args scope i paramater).
Proof.
  intros Hscope. unfold bind_paramater.
  destruct (index args i); [|apply continues_Throw].
  destruct (paramater_type paramater); [|apply continues_Throw].
  destruct (is_tag _ "normal").
  { apply continues_bind.
    - apply continues_interp. by intros s.
    - intros value. eapply continues_isolated; [apply isolated_scope_define|done]. }
  destruct (is_tag _ "unevaluated"); [|apply continues_Normal].
  intros st Hst. unfold new_LFunction.
  eapply outcome_keeps_from; [apply isolated_scope_define| |done].
  eapply keeps_step; [exact Hst|apply allowed_same|].
  apply (keeps_new_LFunction variables _ st).
Qed.

Lemma continues_bind_paramaters variables st0 fnToken args scope paramaters :
  allowed st0 variables scope ->
  forall i, continues variables st0 (bind_paramaters interp fnToken args scope i paramaters).
Proof.
  intros Hscope.
  induction paramaters as [|p ps IH]; intros i; simpl; [apply continues_Normal|].
  apply continues_bind; [by apply continues_bind_paramater|]. intros _. apply IH.
Qed.

Lemma continues_defaultCall variables st0 fnToken args :
  continues variables st0 (defaultCall interp fnToken args).
Proof.
  intros st Hst. unfold defaultCall.
  destruct fnToken as [| | | | | | | | | |[] a| |]; try done.
  destruct (objects st !! a) as [o|]; [|done].
  assert (Huser : forall code,
    outcome_keeps variables st0
      (let* (scope, st) := Object_assign_empty (scopeVariables o) st in
       let returnValue := length (frames st) in
       let st := mkState (cells st) (scopes st) (objects st)
                         (frames st ++ [VNull]) (host_values st) (history st) in
       let (f, st) := new_LFunction (Native (NReturn returnValue)) st in
       let* (_, st) := scope_define scope "return" f st in
       let paramaters :=
         match paramaterList o with Some v => v | None => VUndefined end in
       match paramaters, elements paramaters with
       | VHostMember _, _ => Abort OutsideModel
       | _, None => Throw (TypeError (CannotReadProperty "length" paramaters)) st
       | _, Some ps =>
           let* (_, st) := bind_paramaters interp a args scope 0 ps st in
           let* (_, st) := evaluateEachExpression interp scope code st in
           match frames st !! returnValue with
           | Some v => Normal v st
           | None => Abort OutsideModel
           end
       end)).
  { intros code.
    destruct (Object_assign_empty (scopeVariables o) st) as [scope st1|e st1|r] eqn:Hassign;
      cbn [bind]; [| |done].
    2:{ pose proof (isolated_Object_assign_empty variables (scopeVariables o) st) as H.
        rewrite Hassign in H. simpl in *. eapply keeps_step; [exact Hst|apply allowed_same|done]. }
    assert (Hscope : allowed st0 variables scope).
    { apply Object_assign_empty_new in Hassign as ->. by apply allowed_new. }
    assert (Hst1 : keeps variables st0 st1).
    { pose proof (isolated_Object_assign_empty variables (scopeVariables o) st) as H.
      rewrite Hassign in H. simpl in H.
      eapply keeps_step; [exact Hst|apply allowed_same|done]. }
    cbn zeta. unfold new_LFunction.
    match goal with
    | |- outcome_keeps _ _ (bind (scope_define _ _ _ ?s) _) =>
        assert (Hst2 : keeps variables st0 s)
    end.
    { eapply keeps_step; [exact Hst1|apply allowed_same|].
      apply (keeps_step variables variables st1
               (mkState (cells st1) (scopes st1) (objects st1)
                        (frames st1 ++ [VNull]) (host_values st1) (history st1)));
        [|apply allowed_same|].
      - apply keeps_frames. rewrite length_app. lia.
      - apply keeps_set_objects. by apply objects_kept_app. }
    apply outcome_keeps_bind.
    { eapply outcome_keeps_from; [apply isolated_scope_define|exact Hst2|done]. }
    intros _ st3 Hst3.
    assert (Hrest : forall ps,
      outcome_keeps variables st0
        (let* (_, st) := bind_paramaters interp a args scope 0 ps st3 in
         let* (_, st) := evaluateEachExpression interp scope code st in
         match frames st !! length (frames st1) with
         | Some v => Normal v st
         | None => Abort OutsideModel
         end)).
    { intros ps.
      apply outcome_keeps_bind; [by apply continues_bind_paramaters|]. intros _.
      apply continues_bind; [by apply continues_evaluateEachExpression|].
      intros _ st4 Hst4. by destruct (frames st4 !! _). }
    destruct (match paramaterList o with Some v => v | None => VUndefined end);
      first [ apply Hrest | exact (Hrest []) | done ]. }
  destruct (fn o) as [f|code].
  - apply outcome_keeps_bind.
    + apply continues_array_map; [|done]. intros x st1 Hst1.
      eapply outcome_keeps_from; [apply isolated_interp|done|].
      by apply allowed_argumentScope.
    + intros mapped. apply continues_call_native.
  - destruct code; try apply Huser. done.
Qed.

Lemma continues_invoke variables st0 fn name arguments :
  continues variables st0 (invoke interp fn name arguments).
Proof.
  intros st Hst. unfold invoke, LFunction_method.
  repeat case_match; simplify_eq; simpl; try done;
    try (by apply continues_defaultCall);
    try (eapply outcome_keeps_from; [apply isolated_defaultGet|done|apply allowed_same]);
    try (eapply outcome_keeps_from; [apply isolated_defaultSet|done|apply allowed_same]).
  all: repeat case_match; simpl; try done.
  all: eapply keeps_step; [exact Hst|apply allowed_same|].
  all: apply keeps_set_objects; by eapply objects_kept_insert.
Qed.

Lemma continues_call variables st0 fn args :
  continues variables st0 (call interp fn args).
Proof.
  intros st Hst. unfold call.
  repeat case_match; first [by apply continues_invoke | done].
Qed.

Lemma continues_evaluateExpression_body variables st0 expression scope :
  allowed st0 variables scope ->
  continues variables st0 (evaluateExpression_body interp expression scope).
Proof.
  intros Hscope st Hst. unfold evaluateExpression_body.
  destruct (index expression 0) as [tag|]; [|done].
  destruct (is_tag tag C.COMMENT); [done|].
  destruct (is_array_of_arrays expression); [by apply continues_evaluateEachExpression|].
  destruct (is_tag tag C.FUNCTION_CALL).
  { apply outcome_keeps_bind; [by apply continues_interp|]. intros fn.
    apply continues_bind.
    - apply continues_array_map. intros x. by apply continues_interp.
    - intros args. apply continues_call. }
  destruct (is_tag tag C.VARIABLE_IDENTIFIER); [repeat case_match; done|].
  destruct (is_tag tag C.VARIABLE_ASSIGN).
  { apply outcome_keeps_bind; [by apply continues_interp|]. intros value.
    eapply continues_isolated; [apply isolated_scope_define|done]. }
  destruct (is_tag tag C.VARIABLE_CHANGE).
  { apply outcome_keeps_bind; [by apply continues_interp|]. intros value st1 Hst1.
    repeat case_match; simpl; try done;
      (eapply keeps_step; [exact Hst1|apply allowed_same|]);
      first [ apply keeps_set_cells; by rewrite length_insert
            | apply keeps_set_host_values ]. }
  destruct (is_tag tag C.FUNCTION_PRIM).
  { unfold new_LFunction.
    match goal with
    | |- outcome_keeps _ _ (bind (Object_assign_empty _ ?s) _) =>
        assert (Hst1 : keeps variables st0 s)
    end.
    { eapply keeps_step; [exact Hst|apply allowed_same|].
      apply keeps_set_objects. by apply objects_kept_app. }
    apply outcome_keeps_bind.
    { eapply outcome_keeps_from;
        [apply (isolated_Object_assign_empty variables)|exact Hst1|apply allowed_same]. }
    intros copy.
    apply continues_bind; [apply continues_invoke|]. intros _.
    apply continues_bind; [apply continues_invoke|]. intros _.
    apply continues_Normal. }
  destruct (is_tag tag C.STRING_PRIM); [done|].
  destruct (is_tag tag C.BOOLEAN_PRIM); [done|].
  destruct (is_tag tag C.NUMBER_PRIM); [done|].
  destruct (is_tag tag C.SET_PROP_USING_IDENTIFIER).
  { apply outcome_keeps_bind; [by apply continues_interp|]. intros obj.
    apply continues_bind; [by apply continues_interp|]. intros value.
    apply continues_bind.
    - eapply continues_isolated; [apply (isolated_set variables)|apply allowed_same].
    - intros _. apply continues_Normal. }
  destruct (is_tag tag C.GET_PROP_USING_IDENTIFIER).
  { apply outcome_keeps_bind; [by apply continues_interp|]. intros obj.
    eapply continues_isolated; [apply (isolated_get variables)|apply allowed_same]. }
  done.
Qed.

End IsolatedInterp.

Lemma isolated_evaluateExpression fuel :
  forall e v, isolated v (evaluateExpression fuel e v).
Proof.
  induction fuel as [|fuel IH]; intros e v st; [done|].
  apply (continues_evaluateExpression_body _ IH v st e v);
    [apply allowed_same|apply keeps_refl].
Qed.

Lemma isolated_defaultCall fuel variables fnToken args :
  isolated variables (defaultCall (evaluateExpression fuel) fnToken args).
Proof.
  intros st.
  apply (continues_defaultCall _ (isolated_evaluateExpression fuel) variables st fnToken args).
  apply keeps_refl.
Qed.

(** ** The store only grows *)

Lemma objects_kept_length l l' : objects_kept l l' -> length l <= length l'.
Proof.
  intros [K _]. destruct (decide (length l <= length l')) as [|Hgt]; [done|].
  destruct (lookup_lt_is_Some_2 l (length l')) as [o Ho]; [lia|].
  destruct (K _ _ Ho) as (o' & Ho' & _). apply lookup_lt_Some in Ho'. lia.
Qed.

(** X17.  An evaluation only adds to the store: no cell, scope object,
    object or local of a call disappears; an object keeps the host
    function or code it was made with and its [argumentScope], and no new
    object has one; a scope object keeps every name it owned. *)
Theorem evaluation_only_adds :
  forall fuel expression variables st st',
    final (evaluateExpression fuel expression variables st) = Some st' ->
    length (cells st) <= length (cells st') /\
    length (scopes st) <= length (scopes st') /\
    length (objects st) <= length (objects st') /\
    length (frames st) <= length (frames st') /\
    (forall a o, objects st !! a = Some o ->
       exists o', objects st' !! a = Some o' /\
                  fn o' = fn o /\ argumentScope o' = argumentScope o) /\
    (forall a o', objects st' !! a = Some o' -> objects st !! a = None ->
       argumentScope o' = None) /\
    (forall s sc name, scopes st !! s = Some sc -> is_Some (scope_own sc name) ->
       exists sc', scopes st' !! s = Some sc' /\ is_Some (scope_own sc' name)).
Proof.
  intros fuel expression variables st st' Hfinal.
  pose proof (isolated_evaluateExpression fuel expression variables st) as H.
  assert (keeps variables st st') as [(Hc & Hf & Ho & Hs) _].
  { destruct (evaluateExpression fuel expression variables st);
      simpl in *; by simplify_eq. }
  split; [done|]. split; [apply Hs|]. split; [by apply objects_kept_length|].
  split; [done|]. split; [apply Ho|]. split; [apply Ho|].
  intros s sc name Hsc Hname. destruct Hs as [_ Hs].
  destruct (Hs _ _ Hsc) as (sc' & Hsc' & Hnames). eauto.
Qed.

Lemma evaluation_only_adds_witness :
  let st := program (language_function [] VNull []) in
  exists st',
    final (evaluateExpression 4 (FunctionCall (GetProp (VariableIdentifier "a") "pop") [])
                              (VScope 0) st) = Some st' /\
    length (objects st) <= length (objects st') /\
    exists o', objects st' !! 0 = Some o' /\ fn o' = Code (VArray []).
Proof.
  intros st. eexists. split; [vm_compute; reflexivity|].
  destruct (evaluation_only_adds 4 (FunctionCall (GetProp (VariableIdentifier "a") "pop") [])
              (VScope 0) st _ ltac:(vm_compute; reflexivity))
    as (_ & _ & Hlen & _ & Hobj & _).
  split; [exact Hlen|].
  destruct (Hobj 0 (language_function [] VNull []) eq_refl) as (o' & Ho' & Hfn & _).
  exists o'. split; [exact Ho'|exact Hfn].
Defined.

(** ** interp *)

(** X18.  [interp] evaluates the tree in a new scope object that starts
    as a copy of the builtins' and comes back as [variables]: it returns
    exactly when the tree is an array whose expressions are evaluated one
    after the other in that scope, each to a value, starting in the store
    with the copy added; [result] is then the array of these values, one
    for each expression, and the store is the one the last expression
    left.  Every builtin name is still bound in the scope returned, and a
    falsy tree is not evaluated at all. *)
Theorem interp_evaluates_in_a_copy_of_the_builtins :
  forall fuel b sc ast st,
    scopes st !! b = Some sc ->
    let top := VScope (length (scopes st)) in
    let st1 := set_scopes st (scopes st ++ [sc]) in
    (js_Boolean ast = false -> interp fuel (VScope b) ast st = Normal None st) /\
    (js_Boolean ast = true ->
     forall r st',
       interp fuel (VScope b) ast st = Normal r st' <->
       exists expressions results,
         ast = VArray expressions /\
         r = Some (VArray results, top) /\
         length results = length expressions /\
         evaluated_in_sequence (evaluateExpression fuel) top expressions st1 results st') /\
    (forall r st',
       interp fuel (VScope b) ast st = Normal r st' -> js_Boolean ast = true ->
       exists sc',
         scopes st' !! length (scopes st) = Some sc' /\
         forall name, is_Some (scope_own sc name) -> is_Some (scope_own sc' name)).
Proof.
  intros fuel b sc ast st Hb top st1. unfold interp.
  split; [by intros ->|].
  unfold Object_assign_empty. rewrite Hb. cbn [bind]. fold top st1.
  split.
  - intros Hast r st'. rewrite Hast. unfold evaluateEachExpression, array_map. split.
    + destruct ast; try done.
      intros H. apply bind_Normal in H as (result & st2 & H & [= <- <-]).
      apply bind_Normal in H as (rs & st3 & H & [= <- <-]).
      apply map_eval_in_sequence in H.
      exists l, rs. repeat split; [|done]. by eapply evaluated_in_sequence_length.
    + intros (expressions & results & -> & -> & _ & H).
      apply map_eval_in_sequence in H. by rewrite H.
  - intros r st' H Hast. rewrite Hast in H.
    apply bind_Normal in H as (result & st2 & Heach & [= _ <-]).
    pose proof (continues_evaluateEachExpression _ (isolated_evaluateExpression fuel)
                  top st1 top ast (allowed_same _ _) st1 (keeps_refl _ _)) as Hkeeps.
    rewrite Heach in Hkeeps. destruct Hkeeps as [(_ & _ & _ & [_ Hnames]) _].
    apply Hnames. simpl. by apply list_lookup_middle.
Qed.

Lemma interp_evaluates_in_a_copy_of_the_builtins_witness :
  let st := program (language_function [] VNull []) in
  let ast := VArray [VariableAssign "a" (StringLiteral "mine"); VariableIdentifier "a"] in
  interp 4 (VScope 0) (VString EmptyString) st = Normal None st /\
  exists st',
    interp 4 (VScope 0) ast st
      = Normal (Some (VArray [VUndefined; VStringPrim (VString "mine")], VScope 1)) st' /\
    scopes st' !! 1 = Some [("f", 0); ("a", 2)]%string /\
    exists expressions results,
      ast = VArray expressions /\
      Some (VArray [VUndefined; VStringPrim (VString "mine")], VScope 1)
        = Some (VArray results, VScope 1) /\
      length results = length expressions /\
      evaluated_in_sequence (evaluateExpression 4) (VScope 1) expressions
        (set_scopes st (scopes st ++ [[("f", 0); ("a", 1)]%string])) results st'.
Proof.
  intros st ast.
  destruct (interp_evaluates_in_a_copy_of_the_builtins 4 0 [("f", 0); ("a", 1)]%string
              (VString EmptyString) st eq_refl) as (Hfalsy & _).
  destruct (interp_evaluates_in_a_copy_of_the_builtins 4 0 [("f", 0); ("a", 1)]%string
              ast st eq_refl) as (_ & Htruthy & _).
  split; [apply Hfalsy; reflexivity|].
  eexists. split; [vm_compute; reflexivity|]. split; [reflexivity|].
  apply (Htruthy eq_refl). vm_compute; reflexivity.
Defined.

(** ** Calling a method *)

Lemma argumentScope_of_grows st st' a o :
  objects st !! a = Some o -> grows st st' ->
  argumentScope_of a st' = argumentScope_of a st.
Proof.
  intros Ho (_ & _ & [K _] & _). destruct (K _ _ Ho) as (o' & Ho' & _ & Ha).
  unfold argumentScope_of. by rewrite Ho, Ho', Ha.
Qed.

Lemma map_eval_argumentScope fuel a l :
  forall st o scope,
    objects st !! a = Some o ->
    argumentScope_of a st = scope ->
    map_eval (fun arg st => evaluateExpression fuel arg (argumentScope_of a st) st) l st
      = map_eval (fun arg => evaluateExpression fuel arg scope) l st.
Proof.
  induction l as [|x l IH]; intros st o scope Ho Hscope; [done|].
  cbn [map_eval]. rewrite Hscope.
  pose proof (isolated_evaluateExpression fuel x scope st) as H.
  destruct (evaluateExpression fuel x scope st) as [y st1|e st1|r]; [|done..].
  cbn [bind]. destruct H as [G _].
  pose proof G as (_ & _ & [K _] & _). destruct (K _ _ Ho) as (o1 & Ho1 & _).
  erewrite IH; [done|exact Ho1|].
  by rewrite (argumentScope_of_grows st st1 a o).
Qed.

(** A host function is handed the list of its arguments' values, each
    evaluated in the scope that was the function's [argumentScope] when
    the call began. *)
Lemma defaultCall_native fuel a o f args st :
  objects st !! a = Some o ->
  fn o = Native f ->
  defaultCall (evaluateExpression fuel) (VObject LFunction a) args st =
    let* (mapped, st1) :=
      array_map "args" (fun arg => evaluateExpression fuel arg (argumentScope_of a st))
                args st in
    call_native (evaluateExpression fuel) f [mapped] st1.
Proof.
  intros Ho Hf. unfold defaultCall. rewrite Ho, Hf.
  unfold array_map. destruct args; try done.
  by erewrite map_eval_argumentScope.
Qed.

(** X19.  Calling the function that [get] returns for a prototype
    method: the arguments are evaluated in no scope, and the method
    receives the receiver and, as its one further argument, the whole
    array of their values.  So [push] called with one argument stores a
    one-element array, not the argument (the witness). *)
Theorem method_call_receives_the_argument_list :
  forall fuel c a o key m args st,
    objects st !! a = Some o ->
    modelled_key (property_key key) = true ->
    data o !! property_key key = None ->
    inherited (property_key key) = false ->
    table_own (prototype c) (property_key key) = Some m ->
    exists f st1,
      get (VObject c a) key st = Normal f st1 /\
      call (evaluateExpression fuel) f args st1 =
        let* (mapped, st2) :=
          array_map "args" (fun arg => evaluateExpression fuel arg VUndefined) args st1 in
        apply_method m [VObject c a; mapped] st2.
Proof.
  intros fuel c a o key m args st Ho Hk Hd Hi Hm.
  eexists _, _. split.
  { rewrite (get_existing c a o) by done. by rewrite Hd, Hi, Hm. }
  unfold call, invoke. cbn [LFunction_method String.eqb Ascii.eqb Bool.eqb nth].
  erewrite defaultCall_native; [|simpl; by apply list_lookup_middle|done].
  unfold argumentScope_of. cbn [objects set_objects].
  by rewrite list_lookup_middle.
Qed.

Lemma method_call_receives_the_argument_list_witness :
  let st := snd (new_LArray empty_state) in
  exists f st1 st2,
    get (VObject LArray 0) (VString "push") st = Normal f st1 /\
    call (evaluateExpression 1) f (VArray [StringLiteral "x"]) st1 = Normal VUndefined st2 /\
    get (VObject LArray 0) (VNumber (Int 0)) st2
      = Normal (VArray [VStringPrim (VString "x")]) st2.
Proof.
  intros st.
  destruct (method_call_receives_the_argument_list 1 LArray 0
              (mkObject {[ "length"%string := VNumber (Int 0) ]} (Code VUndefined)
                        VUndefined None None)
              (VString "push") push (VArray [StringLiteral "x"]) st
              eq_refl eq_refl eq_refl eq_refl eq_refl) as (f & st1 & Hget & Hcall).
  exists f, st1. eexists. split; [exact Hget|].
  rewrite Hcall. vm_compute in Hget. injection Hget as <- <-.
  split; vm_compute; reflexivity.
Defined.

(** ** Changing a variable *)

(** X20.  A change [name -> value] of a bound name overwrites the
    name's cell in place: no cell is added, no other cell and no scope or
    object changes, and every name of every scope that is bound to the
    same cell reads the new value afterwards. *)
Theorem change_overwrites_in_place :
  forall fuel name valueExpression s sc c value st st1,
    evaluateExpression fuel valueExpression (VScope s) st = Normal value st1 ->
    scopes st1 !! s = Some sc ->
    modelled_key name = true ->
    scope_own sc name = Some c ->
    c < length (cells st1) ->
    exists st2,
      evaluateExpression (S fuel) (VariableChange name valueExpression) (VScope s) st
        = Normal VUndefined st2 /\
      scopes st2 = scopes st1 /\
      objects st2 = objects st1 /\
      length (cells st2) = length (cells st1) /\
      cells st2 !! c = Some value /\
      (forall c', c' <> c -> cells st2 !! c' = cells st1 !! c') /\
      (forall fuel' alias s' sc',
         scopes st1 !! s' = Some sc' ->
         modelled_key alias = true ->
         scope_own sc' alias = Some c ->
         evaluateExpression (S fuel') (VariableIdentifier alias) (VScope s') st2
           = Normal value st2).
Proof.
  intros fuel name valueExpression s sc c value st st1 Hv Hs Hk Hown Hc.
  destruct (change_is_seen_through_every_alias fuel name valueExpression s sc c value st st1
              Hv Hs Hk Hown Hc) as [Hchange Halias].
  eexists. split; [exact Hchange|].
  split; [done|]. split; [done|]. split; [simpl; by rewrite length_insert|].
  split; [simpl; by apply list_lookup_insert_eq|].
  split; [intros c' Hc'; simpl; by rewrite list_lookup_insert_ne|].
  exact Halias.
Qed.

Lemma change_overwrites_in_place_witness :
  let st := mkState [VNull] [[("x", 0)]; [("y", 0)]]%string [] [] ∅ [] in
  exists st2,
    evaluateExpression 2 (VariableChange "x" (StringLiteral "new")) (VScope 0) st
      = Normal VUndefined st2 /\
    evaluateExpression 1 (VariableIdentifier "y") (VScope 1) st2
      = Normal (VStringPrim (VString "new")) st2.
Proof.
  intros st.
  destruct (change_overwrites_in_place 1 "x" (StringLiteral "new") 0 [("x", 0)]%string 0
              (VStringPrim (VString "new")) st st eq_refl eq_refl eq_refl eq_refl
              ltac:(simpl; lia))
    as (st2 & Hchange & _ & _ & _ & _ & _ & Halias).
  exists st2. split; [exact Hchange|].
  apply (Halias 0 "y"%string 1 [("y", 0)]%string); reflexivity.
Defined.

(** ** Calling a function written in the language *)

(** X21.  A function written in the language whose parameters were
    never set ([setParamaters] was not called) cannot be called: the call
    throws the host's TypeError for reading [length] of undefined, before
    a single expression of the body is evaluated. *)
Theorem call_without_paramaters_throws :
  forall interp a o code args st,
    objects st !! a = Some o ->
    fn o = Code code ->
    (forall name, code <> VHostMember name) ->
    paramaterList o = None ->
    (scopeVariables o = VNull \/ scopeVariables o = VUndefined \/
     exists s, scopeVariables o = VScope s /\ is_Some (scopes st !! s)) ->
    thrown (defaultCall interp (VObject LFunction a) args st)
      = Some (TypeError (CannotReadProperty "length" VUndefined)).
Proof.
  intros interp a o code args st Ho Hfn Hcode Hps Hscope.
  unfold defaultCall. rewrite Ho, Hfn, Hps.
  assert (exists sc, Object_assign_empty (scopeVariables o) st
            = Normal (VScope (length (scopes st))) (set_scopes st (scopes st ++ [sc])))
    as [sc ->].
  { destruct Hscope as [->|[->|(s & -> & [sc Hs])]]; simpl; [by eexists..|].
    rewrite Hs. by eexists. }
  cbn [bind]. unfold new_LFunction, scope_define, new_Variable.
  cbn [scopes set_scopes set_objects].
  rewrite list_lookup_middle by done.
  destruct code; try done. by destruct (Hcode name).
Qed.

Lemma call_without_paramaters_throws_witness :
  thrown (defaultCall (evaluateExpression 3) (VObject LFunction 0) (VArray [])
            (snd (new_LFunction (Code (VArray [])) empty_state)))
    = Some (TypeError (CannotReadProperty "length" VUndefined)).
Proof.
  apply (call_without_paramaters_throws (evaluateExpression 3) 0
           (mkObject ∅ (Code (VArray [])) VNull None None) (VArray []) (VArray [])
           (snd (new_LFunction (Code (VArray [])) empty_state)));
    [reflexivity | reflexivity | discriminate | reflexivity | left; reflexivity].
Defined.

(** The loop over the parameters binds names in the call's scope and
    nowhere else, and only the parameters' names. *)
Lemma bind_paramaters_shares fuel a args new ps :
  forall i st sc x st',
    bind_paramaters (evaluateExpression fuel) a args (VScope new) i ps st = Normal x st' ->
    scopes st !! new = Some sc ->
    argument_scope st new = false ->
    exists sc',
      scopes st' !! new = Some sc' /\
      (forall name,
         ~ In name (map (fun p => property_key (paramater_name p)) ps) ->
         scope_own sc' name = scope_own sc name) /\
      grows st st'.
Proof.
  induction ps as [|p ps IH]; intros i st sc x st' Hbind Hnew Harg.
  { simpl in Hbind. injection Hbind as _ <-. exists sc. split; [done|].
    split; [done|apply grows_refl]. }
  cbn [bind_paramaters] in Hbind.
  apply bind_Normal in Hbind as (y & st1 & Hone & Hrest).
  assert (exists sc1,
            scopes st1 !! new = Some sc1 /\
            (forall name, name <> property_key (paramater_name p) ->
               scope_own sc1 name = scope_own sc name) /\
            grows st st1) as (sc1 & Hnew1 & Hsame1 & Hgrows1).
  { unfold bind_paramater in Hone.
    destruct (index args i) as [value|]; [|done].
    destruct (paramater_type p) as [type|]; [|done].
    destruct (is_tag type "normal").
    { apply bind_Normal in Hone as (v & st0 & Hv & Hdef).
      pose proof (isolated_evaluateExpression fuel value VUndefined st) as Hiso.
      rewrite Hv in Hiso. destruct Hiso as [G0 K0].
      assert (scopes st0 !! new = Some sc) as Hnew0.
      { apply K0; [done|]. intros [?|[Hlen|?]]; [done| |congruence].
        apply lookup_lt_Some in Hnew. lia. }
      unfold scope_define in Hdef. rewrite Hnew0 in Hdef.
      destruct (negb (modelled_key _)); [done|].
      unfold new_Variable in Hdef. injection Hdef as _ <-.
      exists (scope_put sc (property_key (paramater_name p)) (length (cells st0))).
      split; [simpl; apply list_lookup_insert_eq; by eapply lookup_lt_Some|].
      split.
      - intros name Hname. rewrite scope_own_put.
        destruct (String.eqb_spec (property_key (paramater_name p)) name); [by subst|done].
      - eapply grows_trans; [exact G0|].
        split; [simpl; rewrite length_app; lia|]. split; [done|].
        split; [apply objects_kept_refl|]. simpl. by apply scopes_kept_insert. }
    destruct (is_tag type "unevaluated").
    { unfold new_LFunction, scope_define in Hone. cbn [scopes set_objects] in Hone.
      rewrite Hnew in Hone.
      destruct (negb (modelled_key _)); [done|].
      unfold new_Variable in Hone. injection Hone as _ <-.
      exists (scope_put sc (property_key (paramater_name p)) (length (cells st))).
      split; [simpl; apply list_lookup_insert_eq; by eapply lookup_lt_Some|].
      split.
      - intros name Hname. rewrite scope_own_put.
        destruct (String.eqb_spec (property_key (paramater_name p)) name); [by subst|done].
      - split; [simpl; rewrite length_app; lia|]. split; [done|].
        split; [simpl; by apply objects_kept_app|]. simpl. by apply scopes_kept_insert. }
    injection Hone as _ <-. exists sc. split; [done|]. split; [done|apply grows_refl]. }
  destruct (IH (S i) st1 sc1 x st' Hrest Hnew1) as (sc' & Hnew' & Hsame' & Hgrows').
  { by eapply argument_scope_false. }
  exists sc'. split; [done|]. split; [|by eapply grows_trans].
  intros name Hname. simpl in Hname.
  rewrite Hsame' by tauto. apply Hsame1. intros ->. tauto.
Qed.

(** X22.  The body of a called function runs in a scope that shares
    the cells of the captured scope: when the evaluation of the body
    starts, every name other than [return] and the parameters' names is
    bound, in the call's new scope, to the very cell the captured scope
    had for it when the call began (and is unbound there if it was unbound
    in the captured scope). *)
Theorem call_shares_the_captured_cells :
  forall fuel a o cs sc ps code args st r st',
    objects st !! a = Some o ->
    fn o = Code code ->
    scopeVariables o = VScope cs ->
    scopes st !! cs = Some sc ->
    paramaterList o = Some (VArray ps) ->
    argument_scope st (length (scopes st)) = false ->
    defaultCall (evaluateExpression fuel) (VObject LFunction a) args st = Normal r st' ->
    exists body st0 sc0 results,
      code = VArray body /\
      evaluated_in_sequence (evaluateExpression fuel) (VScope (length (scopes st)))
                            body st0 results st' /\
      scopes st0 !! length (scopes st) = Some sc0 /\
      (forall name,
         name <> "return"%string ->
         ~ In name (map (fun p => property_key (paramater_name p)) ps) ->
         scope_own sc0 name = scope_own sc name).
Proof.
  intros fuel a o cs sc ps code args st r st' Ho Hfn Hcs Hsc Hps Harg Hcall.
  unfold defaultCall in Hcall. rewrite Ho, Hfn, Hcs, Hps in Hcall.
  unfold Object_assign_empty in Hcall. rewrite Hsc in Hcall. cbn [bind] in Hcall.
  assert (Hbody : exists x st0 expressions,
            bind_paramaters (evaluateExpression fuel) a args (VScope (length (scopes st))) 0 ps
              (set_scopes
                 (set_cells
                    (set_objects
                       (mkState (cells st) (scopes st ++ [sc]) (objects st)
                                (frames st ++ [VNull]) (host_values st) (history st))
                       (objects st ++ [mkObject ∅ (Native (NReturn (length (frames st))))
                                                VNull None None]))
                    (cells st ++ [VObject LFunction (length (objects st))]))
                 (<[length (scopes st) := scope_put sc "return" (length (cells st))]>
                    (scopes st ++ [sc])))
              = Normal x st0 /\
            evaluateEachExpression (evaluateExpression fuel)
              (VScope (length (scopes st))) code st0 = Normal expressions st').
  { destruct code; try discriminate.
    all: cbn beta iota zeta delta [new_LFunction] in Hcall.
    all: unfold scope_define, new_Variable in Hcall.
    all: cbn [scopes set_scopes set_objects set_cells cells objects frames
              host_values history] in Hcall.
    all: rewrite list_lookup_middle in Hcall by done.
    all: cbn [modelled_key negb String.eqb Ascii.eqb Bool.eqb bind elements] in Hcall.
    all: apply bind_Normal in Hcall as (x & st0 & Hbind & Hcall).
    all: apply bind_Normal in Hcall as (expressions & st4 & Heach & Hcall).
    all: destruct (frames st4 !! _); try discriminate.
    all: injection Hcall as <- <-; eauto 10. }
  destruct Hbody as (x & st0 & expressions & Hbind & Heach).
  unfold evaluateEachExpression, array_map in Heach.
  destruct code as [| | | | |body| | | | | | |]; try discriminate.
  apply bind_Normal in Heach as (results & st5 & Hmap & [= <- <-]).
  apply map_eval_in_sequence in Hmap.
  eapply bind_paramaters_shares in Hbind as (sc0 & Hnew0 & Hsame0 & Hgrows0).
  2:{ simpl. apply list_lookup_insert_eq. rewrite length_app. simpl. lia. }
  2:{ unfold argument_scope in *. cbn [objects set_scopes set_cells set_objects].
      rewrite existsb_app, Harg. reflexivity. }
  exists body, st0, sc0, results.
  split; [done|]. split; [done|]. split; [done|].
  intros name Hret Hname. rewrite Hsame0 by done. rewrite scope_own_put.
  destruct (String.eqb_spec "return" name); [by subst|done].
Qed.

Lemma call_shares_the_captured_cells_witness :
  let st := program (language_function [VariableChange "a" (StringLiteral "v")]
                                       (VScope 0) []) in
  exists st',
    defaultCall (evaluateExpression 3) (VObject LFunction 0) (VArray []) st
      = Normal VNull st' /\
    evaluateExpression 1 (VariableIdentifier "a") (VScope 0) st'
      = Normal (VStringPrim (VString "v")) st' /\
    exists st0 sc0,
      scopes st0 !! 1 = Some sc0 /\ scope_own sc0 "a" = Some 1.
Proof.
  intros st.
  evar (st' : state).
  assert (Hcall : defaultCall (evaluateExpression 3) (VObject LFunction 0) (VArray []) st
                  = Normal VNull st').
  { subst st'. vm_compute. reflexivity. }
  exists st'. split; [exact Hcall|]. split; [vm_compute; reflexivity|].
  destruct (call_shares_the_captured_cells 3 0
              (language_function [VariableChange "a" (StringLiteral "v")] (VScope 0) [])
              0 [("f", 0); ("a", 1)]%string [] _ (VArray []) st VNull st'
              eq_refl eq_refl eq_refl eq_refl eq_refl eq_refl Hcall)
    as (body & st0 & sc0 & results & _ & _ & Hsc0 & Hsame).
  exists st0, sc0. split; [exact Hsc0|].
  rewrite Hsame; [reflexivity | discriminate | simpl; tauto].
Defined.

(** X23.  The argument of a 'normal' parameter is evaluated in no scope
    at all ([interp.evaluateExpression(value)], without the variables):
    handed a variable as argument the call throws the host's TypeError for
    [name in undefined], whatever the scopes bind, and handed no argument
    it throws the TypeError for reading [0] of undefined; the body is not
    reached. *)
Theorem normal_parameter_is_evaluated_in_no_scope :
  forall fuel a o code p ps x rest st,
    objects st !! a = Some o ->
    fn o = Code code ->
    (forall name, code <> VHostMember name) ->
    paramaterList o = Some (VArray (VParamater p "normal" :: ps)) ->
    (scopeVariables o = VNull \/ scopeVariables o = VUndefined \/
     exists s, scopeVariables o = VScope s /\ is_Some (scopes st !! s)) ->
    thrown (defaultCall (evaluateExpression (S fuel)) (VObject LFunction a)
              (VArray (VariableIdentifier x :: rest)) st)
      = Some (TypeError (InOperatorOnNonObject x VUndefined)) /\
    thrown (defaultCall (evaluateExpression (S fuel)) (VObject LFunction a) (VArray []) st)
      = Some (TypeError (CannotReadProperty "0" VUndefined)).
Proof.
  intros fuel a o code p ps x rest st Ho Hfn Hcode Hps Hscope.
  assert (exists sc, Object_assign_empty (scopeVariables o) st
            = Normal (VScope (length (scopes st))) (set_scopes st (scopes st ++ [sc])))
    as [sc Hassign].
  { destruct Hscope as [->|[->|(s & -> & [sc Hs])]]; simpl; [by eexists..|].
    rewrite Hs. by eexists. }
  split.
  all: unfold defaultCall; rewrite Ho, Hfn, Hps, Hassign.
  all: cbn [bind]; unfold new_LFunction, scope_define, new_Variable.
  all: cbn [scopes set_scopes set_objects].
  all: rewrite list_lookup_middle by done.
  all: destruct code; try done; by destruct (Hcode name).
Qed.

Lemma normal_parameter_is_evaluated_in_no_scope_witness :
  let st := program (language_function [] (VScope 0) [VParamater "p" "normal"]) in
  thrown (defaultCall (evaluateExpression 1) (VObject LFunction 0)
            (VArray [VariableIdentifier "a"]) st)
    = Some (TypeError (InOperatorOnNonObject "a" VUndefined)).
Proof.
  intros st.
  apply (normal_parameter_is_evaluated_in_no_scope 0 0
           (language_function [] (VScope 0) [VParamater "p" "normal"])
           (VArray []) "p" [] "a" [] st);
    [reflexivity | reflexivity | discriminate | reflexivity
    | right; right; exists 0; split; [reflexivity|eexists; reflexivity]].
Defined.

(** ** Parameters that are not 'normal' *)

Lemma bind_paramaters_not_normal interp1 interp2 a args scope ps :
  forallb not_normal ps = true ->
  forall i st,
    bind_paramaters interp1 a args scope i ps st
      = bind_paramaters interp2 a args scope i ps st /\
    forall x st',
      bind_paramaters interp1 a args scope i ps st = Normal x st' ->
      frames st' = frames st.
Proof.
  induction ps as [|p ps IH]; intros Hps i st; [split; [done|by intros ? ? [= _ <-]]|].
  cbn [forallb] in Hps. apply andb_prop in Hps as [Hp Hps].
  specialize (IH Hps). cbn [bind_paramaters].
  unfold bind_paramater, not_normal in *.
  destruct (index args i) as [value|]; [|done].
  destruct (paramater_type p) as [type|]; [|done].
  apply negb_true_iff in Hp. rewrite Hp.
  destruct (is_tag type "unevaluated").
  - unfold new_LFunction, scope_define, new_Variable.
    repeat case_match; simplify_eq; cbn [bind]; try done.
    destruct (IH (S i) (set_scopes
                (set_cells (set_objects st (objects st ++
                   [mkObject ∅ (Native (NUnevaluated value a)) VNull None None]))
                   (cells st ++ [VObject LFunction (length (objects st))]))
                (<[a0 := scope_put s (property_key (paramater_name p)) (length (cells st))]>
                   (scopes st)))) as [Heq Hframes].
    split; [exact Heq|]. intros x st' Hx. by rewrite (Hframes _ _ Hx).
  - cbn [bind]. apply IH.
Qed.

(** X24.  A call does not evaluate the argument of a parameter that is
    not 'normal' when it binds it: for a function with an empty body and
    no 'normal' parameter the call ends exactly as it does with an
    evaluator that cannot evaluate anything, so no argument is evaluated
    and no side effect of an argument takes place; and when the call
    returns, it returns null. *)
Theorem arguments_are_not_evaluated_unless_referenced :
  forall interp a o ps args st,
    objects st !! a = Some o ->
    fn o = Code (VArray []) ->
    paramaterList o = Some (VArray ps) ->
    forallb not_normal ps = true ->
    defaultCall interp (VObject LFunction a) args st
      = defaultCall no_evaluator (VObject LFunction a) args st /\
    forall r st',
      defaultCall interp (VObject LFunction a) args st = Normal r st' -> r = VNull.
Proof.
  intros interp a o ps args st Ho Hfn Hps Hnot.
  unfold defaultCall. rewrite Ho, Hfn, Hps.
  destruct (Object_assign_empty (scopeVariables o) st) as [scope st1|e st1|r1] eqn:Hassign;
    cbn [bind]; [|done..].
  apply Object_assign_empty_frames in Hassign as [Hframes ->].
  unfold new_LFunction.
  match goal with
  | |- context [scope_define ?v ?n ?f ?s] =>
      destruct (scope_define v n f s) as [x st2|e st2|r2] eqn:Hdef
  end; cbn [bind elements]; [|done..].
  assert (frames st2 = frames st ++ [VNull]) as Hframes2.
  { unfold scope_define, new_Variable in Hdef.
    repeat case_match; simplify_eq; simpl; by rewrite Hframes. }
  destruct (bind_paramaters_not_normal interp no_evaluator a args
              (VScope (length (scopes st))) ps Hnot 0 st2) as [Heq Hkeep].
  rewrite Heq. split; [done|].
  intros r st'.
  destruct (bind_paramaters no_evaluator a args _ 0 ps st2) as [y st3|e st3|r3] eqn:Hbind;
    cbn [bind evaluateEachExpression array_map map_eval]; [|done..].
  apply Hkeep in Heq.
  rewrite Heq, Hframes2, Hframes, list_lookup_middle by done.
  by intros [= <- _].
Qed.

Lemma arguments_are_not_evaluated_unless_referenced_witness :
  let st := program (language_function [] (VScope 0) [VParamater "p" "unevaluated"]) in
  exists st',
    defaultCall (evaluateExpression 6) (VObject LFunction 0) (VArray [grow]) st
      = Normal VNull st' /\
    (objects st' !! 1 ≫= fun o => data o !! "length"%string) = Some (VNumber (Int 0)) /\
    defaultCall no_evaluator (VObject LFunction 0) (VArray [grow]) st = Normal VNull st'.
Proof.
  intros st. eexists. split; [vm_compute; reflexivity|]. split; [reflexivity|].
  rewrite <- (proj1 (arguments_are_not_evaluated_unless_referenced (evaluateExpression 6) 0
                       (language_function [] (VScope 0) [VParamater "p" "unevaluated"])
                       [VParamater "p" "unevaluated"] (VArray [grow]) st
                       eq_refl eq_refl eq_refl eq_refl)).
  vm_compute; reflexivity.
Defined.

(** ** [return] handed a value of the language *)

(** A value of the language is no syntax tree: the evaluator refuses it. *)
Lemma evaluateExpression_of_a_language_value fuel v variables st :
  language_value v = true ->
  evaluateExpression (S fuel) v variables st = Throw (InvalidExpressionType v) st.
Proof. by destruct v. Qed.

(** [return(e)] in a scope that binds [return] to a binding of
    [defaultCall]: the call site evaluates [e], the call protocol
    evaluates the value once more, and when the value is a value of the
    language that is an exception.  The binding itself never runs, so no
    [returnValue] is assigned. *)
Lemma return_of_a_language_value fuel e s sc c t o r v st st1 :
  scopes st !! s = Some sc ->
  scope_own sc "return" = Some c ->
  cells st !! c = Some (VObject LFunction t) ->
  objects st !! t = Some o ->
  fn o = Native (NReturn r) ->
  evaluateExpression (S fuel) e (VScope s) st = Normal v st1 ->
  language_value v = true ->
  evaluateExpression (S (S fuel)) (return_ e) (VScope s) st
    = Throw (InvalidExpressionType v) st1.
Proof.
  intros Hs Hown Hc Ho Hfn He Hv.
  unfold return_. rewrite evaluateExpression_FunctionCall.
  rewrite (read_of_bound_name fuel "return" s sc c _ st Hs eq_refl Hown Hc).
  cbn [bind map_eval]. rewrite He. cbn [bind].
  pose proof (isolated_evaluateExpression (S fuel) e (VScope s) st) as Hkeeps.
  rewrite He in Hkeeps. destruct Hkeeps as [(_ & _ & [Hobjects _] & _) _].
  destruct (Hobjects t o Ho) as (o' & Ho' & Hfn' & _).
  unfold call, invoke. cbn [LFunction_method String.eqb Ascii.eqb Bool.eqb nth].
  rewrite (defaultCall_native (S fuel) t o' (NReturn r)) by congruence.
  unfold array_map. cbn [map_eval].
  by rewrite evaluateExpression_of_a_language_value.
Qed.

(** C3.  The claim: every invocation of a function written in the
    language evaluates every expression of its body in sequence, also
    after the [return] binding has been called, and the call's result is
    the argument of the last invocation of [return], or null when there
    was none.  The program does otherwise as soon as [return] is handed a
    value of the language: the call site of interp.js has evaluated the
    argument already, [defaultCall] evaluates what it is handed once more,
    and the evaluator refuses a value.  With the body
    [return('first'); a.push(); return('second'); a.push()] the call
    throws InvalidExpressionType at the first [return], whatever the
    budget: it has no result with any budget, and [a] is as long as it
    was, so no expression after the first [return] is evaluated.  The
    call [f()] made through the evaluator throws the same exception, and
    so does a call whose body is [return(a)].  Only the last part of the
    claim is what the program does: a body that never calls [return] is
    evaluated to its end, and the result is null. *)
Theorem return_of_a_language_value_throws :
  (forall n,
     thrown (call_of returns_twice (2 + n))
       = Some (InvalidExpressionType (VStringPrim (VString "first")))) /\
  (forall n, final_data 1 "length" (call_of returns_twice (2 + n)) = Some (VNumber (Int 0))) /\
  (forall n, is_normal (call_of returns_twice n) = false) /\
  (forall n,
     thrown (evaluateExpression (3 + n) (reference "f") (VScope 0)
               (program (language_function returns_twice (VScope 0) [])))
       = Some (InvalidExpressionType (VStringPrim (VString "first")))) /\
  (forall n,
     thrown (call_of [return_ (VariableIdentifier "a")] (2 + n))
       = Some (InvalidExpressionType (VObject LArray 1))) /\
  result (call_of [grow; grow] 6) = Some VNull /\
  final_data 1 "length" (call_of [grow; grow] 6) = Some (VNumber (Int 2)).
Proof.
  assert (Hle : forall body n,
            le_outcome (call_of body 2) (call_of body (2 + n))).
  { intros body n. apply le_defaultCall, evaluateExpression_monotone. lia. }
  assert (Htwice : forall n, call_of returns_twice (2 + n) = call_of returns_twice 2).
  { intros n. destruct (Hle returns_twice n) as [Habort | <-]; [discriminate Habort|done]. }
  assert (Ha : forall n, call_of [return_ (VariableIdentifier "a")] (2 + n)
                         = call_of [return_ (VariableIdentifier "a")] 2).
  { intros n. destruct (Hle [return_ (VariableIdentifier "a")] n) as [Habort | <-];
      [discriminate Habort|done]. }
  split; [intros n; rewrite Htwice; vm_compute; reflexivity|].
  split; [intros n; rewrite Htwice; vm_compute; reflexivity|].
  split.
  { intros [|[|n]]; [vm_compute; reflexivity..|].
    change (S (S n)) with (2 + n). by rewrite Htwice. }
  split.
  { intros n.
    destruct (evaluateExpression_monotone 3 (3 + n) ltac:(lia) (reference "f") (VScope 0)
                (program (language_function returns_twice (VScope 0) [])))
      as [Habort | <-]; [discriminate Habort|].
    vm_compute; reflexivity. }
  split; [intros n; rewrite Ha; vm_compute; reflexivity|].
  split; vm_compute; reflexivity.
Qed.
